(** * Inverted index and TF-IDF cosine ranking of the vertical search engine

    A shallow embedding of [invertedindexer.py] ([InvertedIndexer]) and
    [doc_ranker.py] ([DocumentRanker]), of the results view of [app.py]
    ([App]), of the crawler of [crawler.py] ([Crawler]) and of the pipeline
    of [schedular.py] ([Scheduler]).

    - Python dictionaries keep insertion order, and that order is observable
      (the ranking sorts stably over [document_vectors.items()]), so a dict is
      an association list with unique keys: see [PyDict].
    - Python floats are kept abstract behind the interface [FloatOps]; the
      code is written once against that interface.  Properties that only
      depend on which operations the code performs hold for every instance;
      properties that need the order or the analysis of the numbers are
      proved for the instance [R_ops], where a float is idealised as a real
      number.
    - The NLTK tokenizer, stop-word list and Porter stemmer are external to
      the repository and enter as a record [Nltk] of functions.
    - Exceptions are values of [exn]; a call that may raise returns a
      [result].
    - The browser and the pages it loads are external to the repository:
      the crawler takes what every attempt to load a page comes to (a page,
      an exception that the code catches, or one that it does not) as a
      function, and reads a page through the few parts of it that the code
      looks at; [urljoin] enters as a function that may raise.  The crawler
      is modelled from the configured driver to the written file; printing,
      sleeping and writing a file are taken to succeed.  The loop over the
      listing pages runs on fuel.
    - Of the float operations one raises, [w ** 2] on overflow.  The weights
      of a built index do not reach it; [Overflow] has the ranker with that
      exception, for the states that a file can hold. *)

From Stdlib Require Import List String Ascii Bool Arith Lia ZArith.
From Stdlib Require Import Permutation Sorted.
From Stdlib Require Import Reals Lra.
Import ListNotations.
Open Scope string_scope.
Open Scope list_scope.
Open Scope nat_scope.

Set Implicit Arguments.

(** ** Exceptions *)

Inductive exn : Type :=
| KeyError
| IndexError
| FileNotFoundError
| UnpicklingError
| ValueError
| OverflowError
| WebDriverException.

Inductive result (A : Type) : Type :=
| Ok (a : A)
| Raise (e : exn).

Arguments Ok {A} a.
Arguments Raise {A} e.

Definition bind {A B : Type} (m : result A) (k : A -> result B) : result B :=
  match m with
  | Ok a => k a
  | Raise e => Raise e
  end.

Notation "x <- m ;; k" := (bind m (fun x => k))
  (at level 61, m at next level, right associativity).
Notation "' p <- m ;; k" := (bind m (fun x => let p := x in k))
  (at level 61, p pattern, m at next level, right associativity).

(** [for x in xs: acc = body(acc, x)], where the body may raise. *)
Fixpoint for_each {A S : Type} (body : S -> A -> result S) (xs : list A) (acc : S)
  : result S :=
  match xs with
  | [] => Ok acc
  | x :: xs' => acc' <- body acc x ;; for_each body xs' acc'
  end.

(** [[f(x) for x in xs]], where [f] may raise. *)
Fixpoint map_result {A B : Type} (f : A -> result B) (xs : list A) : result (list B) :=
  match xs with
  | [] => Ok []
  | x :: xs' => y <- f x ;; ys <- map_result f xs' ;; Ok (y :: ys)
  end.

(** [enumerate(xs)] *)
Definition enumerate {A : Type} (xs : list A) : list (nat * A) :=
  combine (seq 0 (List.length xs)) xs.

(** [xs[i] = v] on a list; the callers below only write inside the list. *)
Fixpoint list_set {A : Type} (i : nat) (v : A) (xs : list A) : list A :=
  match xs, i with
  | [], _ => []
  | _ :: xs', O => v :: xs'
  | x :: xs', S i' => x :: list_set i' v xs'
  end.

(** ** Keys with a decidable equality *)

Class KeyEq (K : Type) : Type := {
  keqb : K -> K -> bool;
  keqb_spec : forall x y, reflect (x = y) (keqb x y)
}.

#[export] Instance string_key : KeyEq string :=
  {| keqb := String.eqb; keqb_spec := String.eqb_spec |}.

#[export] Instance nat_key : KeyEq nat :=
  {| keqb := Nat.eqb; keqb_spec := Nat.eqb_spec |}.

(** ** Insertion-ordered dictionaries *)

Module PyDict.
Section Dict.
Context {K V : Type} `{KeyEq K}.

Definition dict : Type := list (K * V).

Definition empty : dict := [].

(** [d.get(k)], [None] when the key is absent *)
Fixpoint get (k : K) (d : dict) : option V :=
  match d with
  | [] => None
  | (k', v) :: d' => if keqb k k' then Some v else get k d'
  end.

(** [d.get(k, dflt)] *)
Definition get_default (k : K) (dflt : V) (d : dict) : V :=
  match get k d with
  | Some v => v
  | None => dflt
  end.

(** [d[k]] on a plain dict *)
Definition getitem (k : K) (d : dict) : result V :=
  match get k d with
  | Some v => Ok v
  | None => Raise KeyError
  end.

(** [d[k] = v]: an existing key keeps its position, a new key goes last *)
Fixpoint set (k : K) (v : V) (d : dict) : dict :=
  match d with
  | [] => [(k, v)]
  | (k', v') :: d' =>
      if keqb k k' then (k', v) :: d' else (k', v') :: set k v d'
  end.

(** [k in d] *)
Definition mem (k : K) (d : dict) : bool :=
  match get k d with
  | Some _ => true
  | None => false
  end.

Definition keys (d : dict) : list K := map fst d.
Definition values (d : dict) : list V := map snd d.
Definition items (d : dict) : list (K * V) := d.
End Dict.
Arguments dict : clear implicits.

(** The dictionary with every value [v] at key [k] replaced by [f k v]. *)
Definition map_values {K V W : Type} (f : K -> V -> W) (d : dict K V) : dict K W :=
  map (fun '(k, v) => (k, f k v)) d.
End PyDict.

Import PyDict.

(** [x in xs] for a list or set of strings *)
Definition str_in (x : string) (xs : list string) : bool :=
  existsb (String.eqb x) xs.

(** ** Float operations used by the code *)

Class FloatOps (F : Type) : Type := {
  f0 : F;                       (* 0.0 *)
  f1 : F;                       (* 1.0 *)
  of_nat : nat -> F;            (* an int converted to float *)
  fadd : F -> F -> F;
  fmul : F -> F -> F;
  fdiv : F -> F -> F;
  fln : F -> F;                 (* math.log *)
  fsqrt : F -> F;               (* math.sqrt *)
  fsqr : F -> F;                (* w ** 2 *)
  fround4 : F -> F;             (* round(x, 4) *)
  feq0 : F -> bool;             (* x == 0.0 *)
  flt : F -> F -> bool          (* x < y *)
}.

(** ** The NLTK functions and the string methods used by [preprocess_text] *)

Record Nltk : Type := {
  lower : string -> string;                 (* str.lower *)
  word_tokenize : string -> list string;    (* nltk.tokenize.word_tokenize *)
  isalnum : string -> bool;                 (* str.isalnum *)
  stop_words : list string;                 (* set(stopwords.words('english')) *)
  stem : string -> string                   (* PorterStemmer().stem *)
}.

(** ** Data model *)

(** An author object of the input JSON; [None] is a missing key. *)
Record Author : Type := {
  a_name : option string;
  a_url : option string
}.

(** A publication record of the input JSON; [None] is a missing key. *)
Record Publication : Type := {
  p_title : option string;
  p_url : option string;
  p_date : option string;
  p_authors : option (list Author);
  p_abstract : option string
}.

(** [pub.get(key, dflt)] *)
Definition pub_get {A : Type} (field : option A) (dflt : A) : A :=
  match field with
  | Some v => v
  | None => dflt
  end.

(** An entry of [self.documents]. *)
Record Document : Type := {
  d_id : nat;
  d_title : string;
  d_url : string;
  d_date : string;
  d_authors : list Author;
  d_abstract : string
}.

(** An entry of the list returned by [rank_documents]: the copied document
    with the added key ['score']. *)
Record Ranked (F : Type) : Type := {
  r_doc : Document;
  r_score : F
}.

(** The four attributes of an [InvertedIndexer] that make up the index. *)
Record InvertedIndexer (F : Type) : Type := {
  inverted_index : dict string (list (nat * F));
  term_document_counts : dict string nat;
  document_vectors : dict nat (dict string F);
  documents : list Document
}.

(** ** [InvertedIndexer] *)

Section Indexer.
Context {F : Type} `{FloatOps F}.
Variable nltk : Nltk.

(** [InvertedIndexer.__init__]: the state before any build or load. *)
Definition init : InvertedIndexer F :=
  {| inverted_index := [];
     term_document_counts := [];
     document_vectors := [];
     documents := [] |}.

(** [preprocess_text] *)
Definition preprocess_text (text : string) : list string :=
  let tokens := word_tokenize nltk (lower nltk text) in
  let tokens := filter (isalnum nltk) tokens in
  map (stem nltk)
      (filter (fun t => negb (str_in t (stop_words nltk))) tokens).

(** [compute_inverse_document_frequency]; the count is read with
    [.get(term, 0)], which adds no key to the defaultdict. *)
Definition compute_inverse_document_frequency
    (self : InvertedIndexer F) (term : string) : F :=
  fadd
    (fln (fdiv (of_nat (List.length (documents self) + 1))
               (of_nat (get_default term 0 (term_document_counts self) + 1))))
    f1.

(** [d[k] += 1] on a [defaultdict(int)] *)
Definition dd_incr (k : string) (d : dict string nat) : dict string nat :=
  set k (get_default k 0 d + 1) d.

(** [d[k].append(x)] on a [defaultdict(list)] *)
Definition dd_append {A : Type} (k : string) (x : A) (d : dict string (list A))
  : dict string (list A) :=
  set k (get_default k [] d ++ [x]) d.

(** [set(tokens)]: the distinct tokens (the iteration order of a Python set
    of strings is unspecified; one order is fixed here). *)
Definition token_set (tokens : list string) : list string :=
  nodup string_dec tokens.

(** [[a['name'] for a in authors]] *)
Definition author_names (authors : list Author) : result (list string) :=
  map_result
    (fun a => match a_name a with
              | Some n => Ok n
              | None => Raise KeyError
              end)
    authors.

(** The text that is tokenized for a publication:
    [f"{title} {abstract} {authors_text}"]. *)
Definition combined_text (pub : Publication) (names : list string) : string :=
  String.append (pub_get (p_title pub) EmptyString)
    (String.append " "
       (String.append (pub_get (p_abstract pub) EmptyString)
          (String.append " " (String.concat " " names)))).

(** Raw term frequencies: [for token in tokens: term_counts[token] += 1]. *)
Definition count_terms (tokens : list string) : dict string nat :=
  fold_left (fun term_counts token => dd_incr token term_counts) tokens [].

(** The body of the first loop of [build_index] for one publication. *)
Definition index_publication
    (self : InvertedIndexer F) (entry : nat * Publication)
  : result (InvertedIndexer F) :=
  let '(doc_id, pub) := entry in
  names <- author_names (pub_get (p_authors pub) []) ;;
  let tokens := preprocess_text (combined_text pub names) in
  let documents' :=
    documents self ++
      [{| d_id := doc_id;
          d_title := pub_get (p_title pub) EmptyString;
          d_url := pub_get (p_url pub) EmptyString;
          d_date := pub_get (p_date pub) EmptyString;
          d_authors := pub_get (p_authors pub) [];
          d_abstract := pub_get (p_abstract pub) EmptyString |}] in
  let term_counts := count_terms tokens in
  let counts' :=
    fold_left (fun counts token => dd_incr token counts)
              (token_set tokens) (term_document_counts self) in
  let '(tf_vector, index') :=
    fold_left
      (fun '(tf_vector, index) '(term, count) =>
         let tf := fadd f1 (fln (of_nat count)) in
         (set term tf tf_vector, dd_append term (doc_id, tf) index))
      (items term_counts) ([], inverted_index self) in
  Ok {| inverted_index := index';
        term_document_counts := counts';
        document_vectors := set doc_id tf_vector (document_vectors self);
        documents := documents' |}.

(** One step of the inner loop of the conversion of TF to TF-IDF:
    [self.inverted_index[term][i] = (doc_id, tf * idf)] and
    [self.document_vectors[doc_id][term] *= idf]. *)
Definition scale_posting (term : string) (idf : F)
    (self : InvertedIndexer F) (entry : nat * (nat * F))
  : result (InvertedIndexer F) :=
  let '(i, (doc_id, tf)) := entry in
  let index' :=
    set term
        (list_set i (doc_id, fmul tf idf)
                  (get_default term [] (inverted_index self)))
        (inverted_index self) in
  vector <- getitem doc_id (document_vectors self) ;;
  w <- getitem term vector ;;
  Ok {| inverted_index := index';
        term_document_counts := term_document_counts self;
        document_vectors :=
          set doc_id (set term (fmul w idf) vector) (document_vectors self);
        documents := documents self |}.

(** The body of the outer loop: the postings of [term] are enumerated as
    they are when the loop reaches the term; a write at index [i] leaves
    the entries after [i] as they were. *)
Definition scale_term
    (self : InvertedIndexer F) (entry : string * list (nat * F))
  : result (InvertedIndexer F) :=
  let '(term, postings) := entry in
  let idf := compute_inverse_document_frequency self term in
  for_each (scale_posting term idf) (enumerate postings) self.

(** [build_index], from the publications read from the JSON file. *)
Definition build_index
    (publications : list Publication) (self : InvertedIndexer F)
  : result (InvertedIndexer F) :=
  self1 <- for_each index_publication (enumerate publications) self ;;
  for_each scale_term (items (inverted_index self1)) self1.

(** *** Persistence *)

(** The dict [data] that [save_index] pickles.  [dict(...)] of a
    defaultdict and [defaultdict(..., data[...])] keep the items and their
    order. *)
Record Pickled : Type := {
  pk_inverted_index : dict string (list (nat * F));
  pk_term_document_counts : dict string nat;
  pk_document_vectors : dict nat (dict string F);
  pk_documents : list Document
}.

(** [pickle.dumps] and [pickle.loads] on such a dict, and the files. *)
Variable blob : Type.
Variable pickle_dumps : Pickled -> blob.
Variable pickle_loads : blob -> result Pickled.

Definition filesystem : Type := dict string blob.

(** [save_index]: returns the file system after the write. *)
Definition save_index (filename : string) (self : InvertedIndexer F)
    (fs : filesystem) : filesystem :=
  let data :=
    {| pk_inverted_index := inverted_index self;
       pk_term_document_counts := term_document_counts self;
       pk_document_vectors := document_vectors self;
       pk_documents := documents self |} in
  set filename (pickle_dumps data) fs.

(** [load_index]: replaces the four attributes of [self]. *)
Definition load_index (filename : string) (self : InvertedIndexer F)
    (fs : filesystem) : result (InvertedIndexer F) :=
  match get filename fs with
  | None => Raise FileNotFoundError
  | Some b =>
      data <- pickle_loads b ;;
      Ok {| inverted_index := pk_inverted_index data;
            term_document_counts := pk_term_document_counts data;
            document_vectors := pk_document_vectors data;
            documents := pk_documents data |}
  end.

(** ** [DocumentRanker] *)

(** The builtin [sum]: starts from 0 and adds from the left. *)
Definition py_sum (xs : list F) : F := fold_left fadd xs f0.

(** [calculate_query_vector] *)
Definition calculate_query_vector
    (self : InvertedIndexer F) (query_terms : list string) : dict string F :=
  let counts :=
    fold_left (fun qv term => set term (fadd (get_default term f0 qv) f1) qv)
              query_terms [] in
  fold_left
    (fun qv term =>
       let idf := compute_inverse_document_frequency self term in
       set term (fmul (get_default term f0 qv) idf) qv)
    (keys counts) counts.

(** [set(query_vector.keys()) & set(document_vector.keys())], listed in the
    order of the query vector. *)
Definition common_terms (query_vector document_vector : dict string F)
  : list string :=
  filter (fun t => mem t document_vector) (keys query_vector).

(** [calculate_cosine_similarity] *)
Definition calculate_cosine_similarity
    (query_vector document_vector : dict string F) : F :=
  match common_terms query_vector document_vector with
  | [] => f0
  | common =>
      let numerator :=
        py_sum (map (fun t => fmul (get_default t f0 query_vector)
                                   (get_default t f0 document_vector))
                    common) in
      let query_mag := fsqrt (py_sum (map fsqr (values query_vector))) in
      let doc_mag := fsqrt (py_sum (map fsqr (values document_vector))) in
      if feq0 query_mag || feq0 doc_mag then f0
      else fdiv numerator (fmul query_mag doc_mag)
  end.

(** [sorted(similarities, key=lambda x: x[1], reverse=True)]: a stable sort
    by descending score, entries of equal score keep their order. *)
Fixpoint insert_by_score (x : nat * F) (l : list (nat * F)) : list (nat * F) :=
  match l with
  | [] => [x]
  | y :: l' =>
      if flt (snd x) (snd y) then y :: insert_by_score x l' else x :: l
  end.

Definition sorted_by_score (l : list (nat * F)) : list (nat * F) :=
  fold_right insert_by_score [] l.

(** [xs[:n]] *)
Definition slice_to {A : Type} (n : Z) (xs : list A) : list A :=
  if (0 <=? n)%Z then firstn (Z.to_nat n) xs
  else firstn (List.length xs - Z.to_nat (- n)) xs.

(** The list [similarities] of [rank_documents]. *)
Definition similarities (self : InvertedIndexer F) (query_terms : list string)
  : list (nat * F) :=
  let query_vector := calculate_query_vector self query_terms in
  map (fun '(doc_id, doc_vector) =>
         (doc_id, calculate_cosine_similarity query_vector doc_vector))
      (items (document_vectors self)).

(** [self.indexer.documents[doc_id].copy()] with ['score'] added. *)
Definition result_entry (self : InvertedIndexer F) (entry : nat * F)
  : result (Ranked F) :=
  let '(doc_id, score) := entry in
  match nth_error (documents self) doc_id with
  | Some doc => Ok {| r_doc := doc; r_score := fround4 score |}
  | None => Raise IndexError
  end.

(** [rank_documents]; [top_n] is [None] when the argument is absent. *)
Definition rank_documents
    (self : InvertedIndexer F) (query : string) (top_n : option Z)
  : result (list (Ranked F)) :=
  let query_terms := preprocess_text query in
  match query_terms with
  | [] => Ok []
  | _ =>
      let ranked_docs := sorted_by_score (similarities self query_terms) in
      results <- map_result (result_entry self) ranked_docs ;;
      match top_n with
      | None => Ok results
      | Some n => if (n =? 0)%Z then Ok results else Ok (slice_to n results)
      end
  end.
End Indexer.

Arguments Pickled F : clear implicits.

(** ** Floats idealised as real numbers *)

(** [round(x, 4)] on reals: the nearest multiple of 1/10000, a tie going to
    the even one. *)
Definition round_half_even (x : R) : Z :=
  let n := Int_part x in
  let r := frac_part x in
  if Rlt_dec r (1 / 2) then n
  else if Rlt_dec (1 / 2) r then (n + 1)%Z
  else if Z.even n then n else (n + 1)%Z.

Definition round4 (x : R) : R :=
  (IZR (round_half_even (x * 10000)) / 10000)%R.

#[export] Instance R_ops : FloatOps R :=
  {| f0 := 0%R;
     f1 := 1%R;
     of_nat := INR;
     fadd := Rplus;
     fmul := Rmult;
     fdiv := Rdiv;
     fln := ln;
     fsqrt := sqrt;
     fsqr := fun w => (w * w)%R;
     fround4 := round4;
     feq0 := fun x => if Req_dec_T x 0 then true else false;
     flt := fun x y => if Rlt_dec x y then true else false |}.

(** ** A small text pipeline for the examples

    The tokenizer, stop words and stemmer of NLTK are not part of the
    repository.  The examples below run the code with this stand-in: ASCII
    lower-casing, splitting at blanks, ASCII [isalnum], a few stop words and
    a stemmer that strips one final ['s']. *)

Module Toy.
Definition is_upper (c : ascii) : bool :=
  let n := nat_of_ascii c in (65 <=? n) && (n <=? 90).

Definition is_alnum_char (c : ascii) : bool :=
  let n := nat_of_ascii c in
  ((48 <=? n) && (n <=? 57)) || ((65 <=? n) && (n <=? 90))
  || ((97 <=? n) && (n <=? 122)).

Definition lower_char (c : ascii) : ascii :=
  if is_upper c then ascii_of_nat (nat_of_ascii c + 32) else c.

Fixpoint lower (s : string) : string :=
  match s with
  | EmptyString => EmptyString
  | String c s' => String (lower_char c) (lower s')
  end.

Fixpoint all_chars (p : ascii -> bool) (s : string) : bool :=
  match s with
  | EmptyString => true
  | String c s' => p c && all_chars p s'
  end.

Definition isalnum (s : string) : bool :=
  match s with
  | EmptyString => false
  | _ => all_chars is_alnum_char s
  end.

(** Splits at blanks; [word] holds the characters of the current token,
    last one first. *)
Fixpoint split_blanks (s : string) (word : list ascii) : list string :=
  let flush rest :=
    match word with
    | [] => rest
    | _ => string_of_list_ascii (rev word) :: rest
    end in
  match s with
  | EmptyString => flush []
  | String c s' =>
      if Ascii.eqb c " " then flush (split_blanks s' [])
      else split_blanks s' (c :: word)
  end.

Definition word_tokenize (s : string) : list string := split_blanks s [].

Definition stem (s : string) : string :=
  match rev (list_ascii_of_string s) with
  | c :: (_ :: _) as rest =>
      if Ascii.eqb c "s" then string_of_list_ascii (rev rest) else s
  | _ => s
  end.

Definition nltk : Nltk :=
  Build_Nltk lower word_tokenize isalnum ["the"; "and"; "of"; "a"; "in"] stem.

(** The two publications of the concrete scenario of the specification. *)
Definition corpus : list Publication :=
  [ {| p_title := Some "Economic growth models";
       p_url := None;
       p_date := None;
       p_authors := Some [ {| a_name := Some "Alice"; a_url := None |} ];
       p_abstract := Some "Growth theory and models" |};
    {| p_title := Some "Finance markets";
       p_url := None;
       p_date := None;
       p_authors := Some [ {| a_name := Some "Bob"; a_url := None |} ];
       p_abstract := Some "Banking and markets" |} ].

(** The index built from [corpus], with real weights. *)
Definition index : InvertedIndexer R :=
  match build_index nltk corpus init with
  | Ok st => st
  | Raise _ => init
  end.

(** A pickle that stores the pickled dict itself. *)
Definition pickle_dumps (data : Pickled R) : Pickled R := data.
Definition pickle_loads (b : Pickled R) : result (Pickled R) := Ok b.

(** A publication with no key at all. *)
Definition bare : Publication :=
  {| p_title := None;
     p_url := None;
     p_date := None;
     p_authors := None;
     p_abstract := None |}.

(** A publication with an author object that has no ['name']. *)
Definition nameless : Publication :=
  {| p_title := Some "Untitled";
     p_url := None;
     p_date := None;
     p_authors := Some [ {| a_name := None; a_url := Some "http://x" |} ];
     p_abstract := None |}.
End Toy.

(** ** The quantities the index is specified by *)

Section IndexSpec.
Context {F : Type} `{FloatOps F}.
Variable nltk : Nltk.

(** The tokens of a publication ([[]] when an author has no name and
    [build_index] raises). *)
Definition tokens_of (pub : Publication) : list string :=
  match author_names (pub_get (p_authors pub) []) with
  | Ok names => preprocess_text nltk (combined_text pub names)
  | Raise _ => []
  end.

(** The raw count of a term in the tokens of a document. *)
Definition raw_count (tokens : list string) (t : string) : nat :=
  count_occ string_dec tokens t.

(** The number of documents whose tokens contain the term. *)
Definition doc_frequency (corpus : list (list string)) (t : string) : nat :=
  List.length (filter (str_in t) corpus).

(** [1 + ln(count)] *)
Definition tf (count : nat) : F := fadd f1 (fln (of_nat count)).

(** [ln((n + 1) / (df + 1)) + 1] *)
Definition idf (n df : nat) : F :=
  fadd (fln (fdiv (of_nat (n + 1)) (of_nat (df + 1)))) f1.

(** The document vector after the first loop of [build_index]. *)
Definition tf_vector_of (tokens : list string) : dict string F :=
  map (fun '(t, c) => (t, tf c)) (count_terms tokens).

(** The document vectors and the postings of a term after the first loop. *)
Definition tf_vectors (corpus : list (list string)) : dict nat (dict string F) :=
  map (fun '(i, tokens) => (i, tf_vector_of tokens)) (enumerate corpus).

Definition tf_postings (corpus : list (list string)) (t : string) : list (nat * F) :=
  flat_map (fun '(i, tokens) =>
              if str_in t tokens then [(i, tf (raw_count tokens t))] else [])
           (enumerate corpus).

(** The entry of [self.documents] made from a publication. *)
Definition document_of (doc_id : nat) (pub : Publication) : Document :=
  {| d_id := doc_id;
     d_title := pub_get (p_title pub) EmptyString;
     d_url := pub_get (p_url pub) EmptyString;
     d_date := pub_get (p_date pub) EmptyString;
     d_authors := pub_get (p_authors pub) [];
     d_abstract := pub_get (p_abstract pub) EmptyString |}.

(** Every author object of the publication has a ['name']. *)
Definition authors_named (pub : Publication) : Prop :=
  Forall (fun a => a_name a <> None) (pub_get (p_authors pub) []).
End IndexSpec.

(** ** The state between the two loops of [build_index] *)

Section Invariants.
Context {F : Type} `{FloatOps F}.

(** The first loop has run over documents with the token lists [corpus] and
    has stored the entries [docs]. *)
Record first_loop_state (corpus : list (list string)) (docs : list Document)
    (st : InvertedIndexer F) : Prop := {
  fl_documents : documents st = docs;
  fl_length : List.length docs = List.length corpus;
  fl_vectors : document_vectors st = tf_vectors corpus;
  fl_counts :
    forall t, get_default t 0 (term_document_counts st) = doc_frequency corpus t;
  fl_index_keys : NoDup (keys (inverted_index st));
  fl_index :
    forall t, get t (inverted_index st)
              = if existsb (str_in t) corpus then Some (tf_postings corpus t)
                else None
}.

(** The entries of [self.documents] for publications numbered from [k]. *)
Definition documents_from (k : nat) (pubs : list Publication) : list Document :=
  map (fun '(i, pub) => document_of i pub) (combine (seq k (List.length pubs)) pubs).
End Invariants.

(** ** The effect of the second loop of [build_index] *)

Section SecondLoopSpec.
Context {F : Type} `{FloatOps F}.

(** The weight of term [t] multiplied by [x]. *)
Definition scale_at (t : string) (x : F) (vector : dict string F) : dict string F :=
  map_values (fun t' w => if String.eqb t' t then fmul w x else w) vector.

(** The same in the vectors of the documents [ds]. *)
Definition scale_docs (t : string) (x : F) (ds : list nat)
    (vectors : dict nat (dict string F)) : dict nat (dict string F) :=
  map_values
    (fun d vector => if existsb (Nat.eqb d) ds then scale_at t x vector else vector)
    vectors.

(** Every weight of a term of [ts] multiplied by the factor [g] of the term. *)
Definition scale_terms (g : string -> F) (ts : list string)
    (vectors : dict nat (dict string F)) : dict nat (dict string F) :=
  map_values
    (fun _ vector =>
       map_values (fun t w => if str_in t ts then fmul w (g t) else w) vector)
    vectors.

(** A posting with its weight multiplied by [x]. *)
Definition scale_weight (x : F) (posting : nat * F) : nat * F :=
  (fst posting, fmul (snd posting) x).

(** The postings of every term list the documents whose vector has the
    term, each once. *)
Definition index_matches (index : dict string (list (nat * F)))
    (vectors : dict nat (dict string F)) : Prop :=
  forall t ps, In (t, ps) index ->
    NoDup (map fst ps)
    /\ forall d, In d (map fst ps)
                 <-> exists vector, In (d, vector) vectors /\ In t (keys vector).

(** The postings of every term with the weights multiplied by the factor of
    the term. *)
Definition scale_index (g : string -> F) (index : dict string (list (nat * F)))
  : dict string (list (nat * F)) :=
  map_values (fun t ps => map (scale_weight (g t)) ps) index.
End SecondLoopSpec.

(** ** The index built from a list of publications *)

Section BuiltSpec.
Context {F : Type} `{FloatOps F}.
Variable nltk : Nltk.

(** The stored weight of a term with [count] occurrences in a document, in a
    corpus of [n] documents of which [df] contain the term:
    [(1 + ln(count)) * (ln((n + 1) / (df + 1)) + 1)]. *)
Definition tf_idf (count n df : nat) : F := fmul (tf count) (idf n df).

(** What [build_index] leaves in a new [InvertedIndexer]. *)
Record built_state (pubs : list Publication) (st : InvertedIndexer F) : Prop := {
  bs_documents : documents st = documents_from 0 pubs;
  bs_counts :
    forall t, get_default t 0 (term_document_counts st)
              = doc_frequency (map (tokens_of nltk) pubs) t;
  bs_vectors :
    document_vectors st
    = map_values
        (fun _ vector =>
           map_values
             (fun t w =>
                fmul w (idf (List.length pubs)
                            (doc_frequency (map (tokens_of nltk) pubs) t)))
             vector)
        (tf_vectors (map (tokens_of nltk) pubs));
  bs_index_keys : NoDup (keys (inverted_index st));
  bs_index :
    forall t, get t (inverted_index st)
              = if existsb (str_in t) (map (tokens_of nltk) pubs)
                then Some (map (scale_weight
                                  (idf (List.length pubs)
                                       (doc_frequency (map (tokens_of nltk) pubs) t)))
                               (tf_postings (map (tokens_of nltk) pubs) t))
                else None
}.
End BuiltSpec.

(** The number of document ids whose vector contains the term. *)
Definition vectors_containing {F : Type} (t : string) (st : InvertedIndexer F) : nat :=
  List.length
    (filter (fun entry => mem t (snd entry)) (items (document_vectors st))).

(** ** The ranking *)

Section RankingSpec.
Context {F : Type} `{FloatOps F}.

(** The sorted list [ranked_docs] of [rank_documents]. *)
Definition ranked_docs (self : InvertedIndexer F) (query_terms : list string)
  : list (nat * F) :=
  sorted_by_score (similarities self query_terms).

(** The effect of [if top_n: results = results[:top_n]]. *)
Definition truncate {A : Type} (top_n : option Z) (results : list A) : list A :=
  match top_n with
  | None => results
  | Some n => if (n =? 0)%Z then results else slice_to n results
  end.

(** The document id and the score of a result. *)
Definition id_and_score (r : Ranked F) : nat * F := (d_id (r_doc r), r_score r).

(** The result [r] is the copy of the stored document [fst e] with the
    rounded score of [e]. *)
Definition result_of (self : InvertedIndexer F) (r : Ranked F) (e : nat * F) : Prop :=
  nth_error (documents self) (fst e) = Some (r_doc r)
  /\ d_id (r_doc r) = fst e
  /\ r_score r = fround4 (snd e).
End RankingSpec.

(** Descending score, ascending document id among equal scores. *)
Definition ranks_before (x y : nat * R) : Prop :=
  (snd y < snd x)%R \/ (snd x = snd y /\ fst x < fst y).



(** The number of entries that [results[:top_n]] keeps of [len] entries,
    when [top_n] is given and not 0. *)
Definition kept (top_n : option Z) (len : nat) : nat :=
  match top_n with
  | None => len
  | Some n =>
      if (n =? 0)%Z then len
      else if (0 <=? n)%Z then Nat.min (Z.to_nat n) len
           else len - Z.to_nat (- n)
  end.

(** The sum of a list of reals. *)
Definition Rsum (xs : list R) : R := fold_right Rplus 0%R xs.

(** ** The documents as objects

    [rank_documents] copies each stored document dict and writes ['score']
    into the copy.  To state what it leaves untouched, the dicts of
    [self.documents] and of the results are objects on a heap, and the calls
    of [rank_documents] that touch the indexer are steps of a state monad
    over the indexer and the heap. *)

Module Objects.
Section WithFloats.
Context {F : Type} `{FloatOps F}.
Variable nltk : Nltk.

(** A document dict: the stored keys and, once written, ['score']. *)
Record DocObject : Type := {
  o_doc : Document;
  o_score : option F
}.

(** The address of an object is its position in the heap; a new object is
    appended. *)
Definition address : Type := nat.

Record World : Type := {
  w_inverted_index : dict string (list (nat * F));
  w_term_document_counts : dict string nat;
  w_document_vectors : dict nat (dict string F);
  w_documents : list address;
  w_heap : list DocObject
}.

Definition M (A : Type) : Type := World -> result A * World.

Definition ret {A : Type} (a : A) : M A := fun w => (Ok a, w).

Definition raise {A : Type} (e : exn) : M A := fun w => (Raise e, w).

Definition mbind {A B : Type} (m : M A) (k : A -> M B) : M B :=
  fun w =>
    match m w with
    | (Ok a, w') => k a w'
    | (Raise e, w') => (Raise e, w')
    end.

Notation "x <~ m ;; k" := (mbind m (fun x => k))
  (at level 61, m at next level, right associativity).

(** [[body(x) for x in xs]] *)
Fixpoint for_list {A B : Type} (body : A -> M B) (xs : list A) : M (list B) :=
  match xs with
  | [] => ret []
  | x :: xs' => y <~ body x ;; ys <~ for_list body xs' ;; ret (y :: ys)
  end.

(** [len(self.indexer.documents)] *)
Definition documents_len : M nat :=
  fun w => (Ok (List.length (w_documents w)), w).

(** [self.term_document_counts.get(term, 0)]: reads, adds no key. *)
Definition counts_get (term : string) : M nat :=
  fun w => (Ok (get_default term 0 (w_term_document_counts w)), w).

(** [self.term_document_counts[term]] on the defaultdict: a missing key is
    added with the count 0.  [rank_documents] never takes this step. *)
Definition counts_getitem (term : string) : M nat :=
  fun w =>
    match get term (w_term_document_counts w) with
    | Some n => (Ok n, w)
    | None =>
        (Ok 0,
         {| w_inverted_index := w_inverted_index w;
            w_term_document_counts := set term 0 (w_term_document_counts w);
            w_document_vectors := w_document_vectors w;
            w_documents := w_documents w;
            w_heap := w_heap w |})
    end.

(** [self.indexer.document_vectors.items()] *)
Definition vectors_items : M (list (nat * dict string F)) :=
  fun w => (Ok (items (w_document_vectors w)), w).

(** [self.indexer.documents[doc_id]]: the reference stored in the list. *)
Definition documents_getitem (doc_id : nat) : M address :=
  fun w =>
    match nth_error (w_documents w) doc_id with
    | Some a => (Ok a, w)
    | None => (Raise IndexError, w)
    end.

(** [d.copy()]: a new object with the keys and values of the object at [a]. *)
Definition dict_copy (a : address) : M address :=
  fun w =>
    match nth_error (w_heap w) a with
    | Some o =>
        (Ok (List.length (w_heap w)),
         {| w_inverted_index := w_inverted_index w;
            w_term_document_counts := w_term_document_counts w;
            w_document_vectors := w_document_vectors w;
            w_documents := w_documents w;
            w_heap := w_heap w ++ [o] |})
    | None => (Raise KeyError, w)
    end.

(** [d['score'] = v] on the object at [a]. *)
Definition dict_set_score (a : address) (v : F) : M unit :=
  fun w =>
    match nth_error (w_heap w) a with
    | Some o =>
        (Ok tt,
         {| w_inverted_index := w_inverted_index w;
            w_term_document_counts := w_term_document_counts w;
            w_document_vectors := w_document_vectors w;
            w_documents := w_documents w;
            w_heap := list_set a {| o_doc := o_doc o; o_score := Some v |} (w_heap w) |})
    | None => (Raise KeyError, w)
    end.

(** [compute_inverse_document_frequency] *)
Definition compute_inverse_document_frequency (term : string) : M F :=
  n <~ documents_len ;;
  df <~ counts_get term ;;
  ret (fadd (fln (fdiv (of_nat (n + 1)) (of_nat (df + 1)))) f1).

(** The second loop of [calculate_query_vector]. *)
Fixpoint apply_idf (terms : list string) (query_vector : dict string F)
  : M (dict string F) :=
  match terms with
  | [] => ret query_vector
  | term :: terms' =>
      idf <~ compute_inverse_document_frequency term ;;
      apply_idf terms'
        (set term (fmul (get_default term f0 query_vector) idf) query_vector)
  end.

(** [calculate_query_vector]; the query vector is a local object. *)
Definition calculate_query_vector (query_terms : list string) : M (dict string F) :=
  let counts :=
    fold_left (fun qv term => set term (fadd (get_default term f0 qv) f1) qv)
              query_terms [] in
  apply_idf (keys counts) counts.

(** The body of the loop that builds [results]. *)
Definition result_entry (entry : nat * F) : M address :=
  let '(doc_id, score) := entry in
  a <~ documents_getitem doc_id ;;
  doc_info <~ dict_copy a ;;
  _ <~ dict_set_score doc_info (fround4 score) ;;
  ret doc_info.

(** [rank_documents]: returns the references to the result dicts. *)
Definition rank_documents (query : string) (top_n : option Z) : M (list address) :=
  let query_terms := preprocess_text nltk query in
  match query_terms with
  | [] => ret []
  | _ =>
      query_vector <~ calculate_query_vector query_terms ;;
      vectors <~ vectors_items ;;
      let similarities :=
        map (fun '(doc_id, doc_vector) =>
               (doc_id, calculate_cosine_similarity query_vector doc_vector))
            vectors in
      let ranked_docs := sorted_by_score similarities in
      results <~ for_list result_entry ranked_docs ;;
      ret (truncate top_n results)
  end.

(** The indexer as a world: every stored document is an object without
    ['score']. *)
Definition world_of (st : InvertedIndexer F) : World :=
  {| w_inverted_index := inverted_index st;
     w_term_document_counts := term_document_counts st;
     w_document_vectors := document_vectors st;
     w_documents := seq 0 (List.length (documents st));
     w_heap := map (fun d => {| o_doc := d; o_score := None |}) (documents st) |}.

(** The result dict at an address, read as an entry of the result list. *)
Definition view (w : World) (a : address) : option (Ranked F) :=
  match nth_error (w_heap w) a with
  | Some {| o_doc := d; o_score := Some s |} => Some {| r_doc := d; r_score := s |}
  | _ => None
  end.

(** The object of a result. *)
Definition object_of (r : Ranked F) : DocObject :=
  {| o_doc := r_doc r; o_score := Some (r_score r) |}.

(** [w'] has the index, the document list and every object of [w], as they
    are in [w]. *)
Definition unchanged (w w' : World) : Prop :=
  w_inverted_index w' = w_inverted_index w
  /\ w_term_document_counts w' = w_term_document_counts w
  /\ w_document_vectors w' = w_document_vectors w
  /\ w_documents w' = w_documents w
  /\ firstn (List.length (w_heap w)) (w_heap w') = w_heap w.
End WithFloats.
Arguments World F : clear implicits.
Arguments DocObject F : clear implicits.
End Objects.

(** ** Quantities for the further properties *)

(** The float that [0.0 + 1.0 + ... + 1.0] gives, with [n] additions: the
    count [n] as [calculate_query_vector] accumulates it. *)
Definition float_count {F : Type} `{FloatOps F} (n : nat) : F :=
  Nat.iter n (fun x => fadd x f1) f0.

(** ** The ranker with the overflow of the squares

    Of the float operations of the ranker one can raise: [w ** 2] raises
    OverflowError when the square is out of the range of the floats.  The
    weights of a built index are far from that, the weights of an index
    loaded from a file need not be.  Below are
    [calculate_cosine_similarity] and [rank_documents] with that exception;
    [pow_overflows w] tells whether [w ** 2] raises. *)

Module Overflow.
Section WithFloats.
Context {F : Type} `{FloatOps F}.
Variable nltk : Nltk.
Variable pow_overflows : F -> bool.

(** [w ** 2] *)
Definition square (w : F) : result F :=
  if pow_overflows w then Raise OverflowError else Ok (fsqr w).

(** [calculate_cosine_similarity] *)
Definition calculate_cosine_similarity
    (query_vector document_vector : dict string F) : result F :=
  match common_terms query_vector document_vector with
  | [] => Ok f0
  | common =>
      let numerator :=
        py_sum (map (fun t => fmul (get_default t f0 query_vector)
                                   (get_default t f0 document_vector))
                    common) in
      query_squares <- map_result square (values query_vector) ;;
      let query_mag := fsqrt (py_sum query_squares) in
      doc_squares <- map_result square (values document_vector) ;;
      let doc_mag := fsqrt (py_sum doc_squares) in
      if feq0 query_mag || feq0 doc_mag then Ok f0
      else Ok (fdiv numerator (fmul query_mag doc_mag))
  end.

(** The list [similarities] of [rank_documents]. *)
Definition similarities (self : InvertedIndexer F) (query_terms : list string)
  : result (list (nat * F)) :=
  let query_vector := calculate_query_vector self query_terms in
  map_result
    (fun '(doc_id, doc_vector) =>
       score <- calculate_cosine_similarity query_vector doc_vector ;;
       Ok (doc_id, score))
    (items (document_vectors self)).

(** [rank_documents] *)
Definition rank_documents
    (self : InvertedIndexer F) (query : string) (top_n : option Z)
  : result (list (Ranked F)) :=
  let query_terms := preprocess_text nltk query in
  match query_terms with
  | [] => Ok []
  | _ =>
      similarities <- similarities self query_terms ;;
      let ranked_docs := sorted_by_score similarities in
      results <- map_result (result_entry self) ranked_docs ;;
      match top_n with
      | None => Ok results
      | Some n => if (n =? 0)%Z then Ok results else Ok (slice_to n results)
      end
  end.

End WithFloats.
End Overflow.

(** ** String methods used by the application and the crawler *)

(** A string holds the bytes of the UTF-8 text.  The methods below split
    and strip at ASCII characters only, which no byte of a longer character
    equals, so they act on the bytes as Python's act on the characters. *)
Module PyStr.
(** [s.lstrip(chars)] *)
Fixpoint lstrip (chars : list ascii) (s : string) : string :=
  match s with
  | EmptyString => EmptyString
  | String c s' =>
      if existsb (Ascii.eqb c) chars then lstrip chars s' else s
  end.

(** [lstrip] on the list of the characters of the string. *)
Fixpoint lstrip_list (chars : list ascii) (l : list ascii) : list ascii :=
  match l with
  | [] => []
  | c :: l' => if existsb (Ascii.eqb c) chars then lstrip_list chars l' else l
  end.

(** The string reversed. *)
Definition reverse (s : string) : string :=
  string_of_list_ascii (rev (list_ascii_of_string s)).

(** [s.rstrip(chars)] *)
Definition rstrip (chars : list ascii) (s : string) : string :=
  reverse (lstrip chars (reverse s)).

(** [s.strip(chars)] *)
Definition strip (chars : list ascii) (s : string) : string :=
  rstrip chars (lstrip chars s).

(** [s.split(sep)] for a separator of one character; [word] holds the
    characters of the current piece, last one first.  The result is never
    empty: the empty string gives one empty piece. *)
Fixpoint split_at (sep : ascii) (s : string) (word : list ascii) : list string :=
  match s with
  | EmptyString => [string_of_list_ascii (rev word)]
  | String c s' =>
      if Ascii.eqb c sep
      then string_of_list_ascii (rev word) :: split_at sep s' []
      else split_at sep s' (c :: word)
  end.

Definition split (sep : ascii) (s : string) : list string := split_at sep s [].

(** The ASCII white space that [s.strip()] removes. *)
Definition whitespace : list ascii :=
  [" "%char; "009"%char; "010"%char; "011"%char; "012"%char; "013"%char].

(** [s.strip()] on a string of ASCII characters. *)
Definition strip_whitespace (s : string) : string := strip whitespace s.
End PyStr.

(** ** The results page of [app.py] *)

Module App.

(** The exceptions that leave the view function: those of the ranker and of
    the loop over the results, and the division by a zero page size. *)
Inductive app_exn : Type :=
| Core (e : exn)
| ZeroDivisionError.

Inductive outcome (A : Type) : Type :=
| Rendered (a : A)
| Failed (e : app_exn).

Arguments Rendered {A} a.
Arguments Failed {A} e.

Definition DEFAULT_RESULTS_PER_PAGE : Z := 5.

(** [request.args.get(key, dflt)], and for the two numbers also the
    [except ValueError] branch: the argument is [None] when it is absent or
    when [int(...)] does not accept it. *)
Definition args_get {A : Type} (arg : option A) (dflt : A) : A :=
  match arg with
  | Some v => v
  | None => dflt
  end.

(** A slice bound brought into [0 .. len], a negative one counted from the
    end. *)
Definition slice_bound (len i : Z) : Z :=
  if (i <? 0)%Z then Z.max (i + len) 0 else Z.min i len.

(** [xs[a:b]] *)
Definition slice {A : Type} (a b : Z) (xs : list A) : list A :=
  let len := Z.of_nat (List.length xs) in
  skipn (Z.to_nat (slice_bound len a)) (firstn (Z.to_nat (slice_bound len b)) xs).

(** [math.ceil(a / b)] for [b <> 0]: the least integer not below the
    quotient.  The float division is exact enough for this below 2^53,
    far above any number of results. *)
Definition ceil_div (a b : Z) : Z := (- ((- a) / b))%Z.

(** [range(a, b)] *)
Definition range (a b : Z) : list Z :=
  map (fun i => (a + Z.of_nat i)%Z) (seq 0 (Z.to_nat (b - a))).

Section WithFloats.
Context {F : Type} `{FloatOps F}.
Variable nltk : Nltk.
Variable strip : string -> string.      (* str.strip *)

(** A result dict after the loop that adds ['authors_str'] and
    ['score_display']. *)
Record Row : Type := {
  row_doc : Document;
  row_score : F;
  row_authors_str : string;
  row_score_display : F
}.

(** The keyword arguments of [render_template]. *)
Record Page : Type := {
  c_query : string;
  c_paginated_results : list Row;
  c_total_results : Z;
  c_current_page : Z;
  c_total_pages : Z;
  c_page_range : list Z;
  c_results_per_page : Z;
  c_no_results : bool
}.

(** The body of [for doc in all_results]. *)
Definition add_display (r : Ranked F) : result Row :=
  names <- author_names (d_authors (r_doc r)) ;;
  Ok {| row_doc := r_doc r;
        row_score := r_score r;
        row_authors_str := String.concat ", " names;
        row_score_display := fround4 (r_score r) |}.

(** [all_results] after that loop: the same list, each dict with its two
    new keys. *)
Definition all_rows (self : InvertedIndexer F) (query : string) : result (list Row) :=
  all_results <- rank_documents nltk self query None ;;
  map_result add_display all_results.

(** The numbers and the page of results for a page size that is not 0. *)
Definition paginate (query : string) (page results_per_page : Z) (rows : list Row)
  : Page :=
  let total_results := Z.of_nat (List.length rows) in
  let total_pages := Z.max 1 (ceil_div total_results results_per_page) in
  let page := Z.max 1 (Z.min page total_pages) in
  let start_idx := ((page - 1) * results_per_page)%Z in
  let end_idx := (start_idx + results_per_page)%Z in
  let start_page := Z.max 1 (page - 2) in
  let end_page := Z.min total_pages (page + 2) in
  {| c_query := query;
     c_paginated_results := slice start_idx end_idx rows;
     c_total_results := total_results;
     c_current_page := page;
     c_total_pages := total_pages;
     c_page_range := range start_page (end_page + 1);
     c_results_per_page := results_per_page;
     c_no_results := (List.length rows =? 0)%nat |}.

(** The view function [results]; [self] is the indexer of the global
    [ranker]. *)
Definition results (self : InvertedIndexer F) (query_arg : option string)
    (page_arg per_page_arg : option Z) : outcome Page :=
  let query := strip (args_get query_arg EmptyString) in
  let page := args_get page_arg 1%Z in
  let results_per_page := args_get per_page_arg DEFAULT_RESULTS_PER_PAGE in
  match query with
  | EmptyString =>
      Rendered {| c_query := query;
                  c_paginated_results := [];
                  c_total_results := 0;
                  c_current_page := 1;
                  c_total_pages := 1;
                  c_page_range := [];
                  c_results_per_page := results_per_page;
                  c_no_results := true |}
  | _ =>
      match all_rows self query with
      | Raise e => Failed (Core e)
      | Ok rows =>
          if (results_per_page =? 0)%Z then Failed ZeroDivisionError
          else Rendered (paginate query page results_per_page rows)
      end
  end.

(** The results that a response shows: none when the view fails. *)
Definition shown (o : outcome Page) : list Row :=
  match o with
  | Rendered ctx => c_paginated_results ctx
  | Failed _ => []
  end.

(** The start of the module: a new indexer loads the index file. *)
Definition startup {blob : Type} (pickle_loads : blob -> result (Pickled F))
    (fs : filesystem blob) : result (InvertedIndexer F) :=
  load_index pickle_loads "inverted_index.pkl" init fs.
End WithFloats.
Arguments Row F : clear implicits.
Arguments Page F : clear implicits.
End App.

(** ** The crawler of [crawler.py] *)

Module Crawler.

Definition PORTAL_ENTRY_URL : string :=
  "https://pureportal.coventry.ac.uk/en/organisations/fbl-school-of-economics-finance-and-accounting/publications".
Definition PORTAL_ROOT : string := "https://pureportal.coventry.ac.uk".
Definition OUTPUT_FILE : string := "coventry_publications.json".
Definition MAX_RETRY_ATTEMPTS : nat := 3.

(** A child of the author paragraph, as [extract_authors] tells them
    apart. *)
Inductive Element : Type :=
| Anchor (text : string) (href : option string)
    (* an <a> tag: its get_text(strip=True) and its href attribute *)
| Text (s : string)          (* a string of the document *)
| OtherTag.                  (* any other tag *)

(** What the crawler reads of a publication's page. *)
Record DetailPage : Type := {
  persons : option (list Element);
    (* select_one("p.relations.persons") and the contents of the tag *)
  abstract_box : option (option string)
    (* the abstract box and, in it, the text of the text block *)
}.

(** An entry of a listing page: the title tag with its text and, when it
    has a link, the href attribute of the link; the text of the date tag. *)
Record TitleTag : Type := {
  t_text : string;
  t_a : option (option string)
}.

Record Item : Type := {
  i_title_tag : option TitleTag;
  i_date_tag : option string
}.

(** A listing page: its entries, and the link to the next page with its
    href attribute. *)
Record ListingPage : Type := {
  l_publications : list Item;
  l_next_link : option (option string)
}.

(** The dicts that the crawler builds; an author's url is [None] for
    Python's None. *)
Record AuthorRecord : Type := {
  ar_name : string;
  ar_url : option string
}.

Record Listed : Type := {
  li_title : string;
  li_url : string;
  li_date : string
}.

Record Enriched : Type := {
  e_title : string;
  e_url : string;
  e_date : string;
  e_authors : list AuthorRecord;
  e_abstract : string
}.

(** What [json.load] gives back of a dumped record: every key is there.
    The indexer does not read the url of an author, so a url that is null
    and one that is missing are the same to it. *)
Definition author_of (a : AuthorRecord) : Author :=
  {| a_name := Some (ar_name a); a_url := ar_url a |}.

Definition publication_of (r : Enriched) : Publication :=
  {| p_title := Some (e_title r);
     p_url := Some (e_url r);
     p_date := Some (e_date r);
     p_authors := Some (map author_of (e_authors r));
     p_abstract := Some (e_abstract r) |}.

(** [for attempt in range(MAX_RETRY_ATTEMPTS)]: [outcome k] is what attempt
    [k] comes to, [None] when it raises TimeoutException or
    WebDriverException, which the loop catches and answers with the next
    attempt.  The first attempt that comes to anything else ends the loop. *)
Fixpoint first_success {A : Type} (outcome : nat -> option A) (attempt left : nat)
  : option A :=
  match left with
  | 0 => None
  | S left' =>
      match outcome attempt with
      | Some page => Some page
      | None => first_success outcome (S attempt) left'
      end
  end.

Definition retry {A : Type} (outcome : nat -> option A) : option A :=
  first_success outcome 0 MAX_RETRY_ATTEMPTS.

Section WithUrljoin.
(** [urllib.parse.urljoin]; it raises ValueError on a url that it cannot
    split, such as ["//["]. *)
Variable urljoin : string -> string -> result string.

(** The names of a string of the author paragraph. *)
Definition text_authors (element : string) : list AuthorRecord :=
  flat_map
    (fun possible_name =>
       let clean_name := PyStr.strip [" "%char; ","%char] possible_name in
       match clean_name with
       | EmptyString => []
       | _ => [{| ar_name := clean_name; ar_url := None |}]
       end)
    (PyStr.split ","%char element).

(** The body of the loop of [extract_authors]: the records that it appends.
    The url of a link is joined before the name is tested. *)
Definition element_authors (base_url : string) (element : Element)
  : result (list AuthorRecord) :=
  match element with
  | Anchor name href =>
      url <- urljoin base_url (pub_get href EmptyString) ;;
      match name with
      | EmptyString => Ok []
      | _ => Ok [{| ar_name := name; ar_url := Some url |}]
      end
  | Text s => Ok (text_authors s)
  | OtherTag => Ok []
  end.

(** [extract_authors] *)
Definition extract_authors (detail_soup : DetailPage) (base_url : string)
  : result (list AuthorRecord) :=
  match persons detail_soup with
  | None => Ok []
  | Some contents =>
      records <- map_result (element_authors base_url) contents ;;
      Ok (List.concat records)
  end.

(** [extract_abstract] *)
Definition extract_abstract (detail_soup : DetailPage) : string :=
  match abstract_box detail_soup with
  | Some (Some text) => text
  | _ => EmptyString
  end.

(** The body of the loop over the entries of a listing page;
    [title_tag.a["href"]] raises KeyError when the link has no href, and
    [urljoin] may raise on the href. *)
Definition collect_item (collected : list Listed) (pub : Item) : result (list Listed) :=
  match i_title_tag pub with
  | Some title_tag =>
      match t_a title_tag with
      | Some a =>
          match a with
          | Some href =>
              url <- urljoin PORTAL_ROOT href ;;
              Ok (collected
                  ++ [{| li_title := t_text title_tag;
                         li_url := url;
                         li_date := pub_get (i_date_tag pub) "N/A" |}])
          | None => Raise KeyError
          end
      | None => Ok collected
      end
  | None => Ok collected
  end.

(** What phase one can raise: the KeyError of a title link without href,
    what the driver raises past the [except] of the attempts, and what
    [urljoin] raises on an href. *)
Definition phase_one_error (listing : string -> nat -> option (result ListingPage))
    (e : exn) : Prop :=
  e = KeyError
  \/ (exists url attempt, listing url attempt = Some (Raise e))
  \/ exists href, urljoin PORTAL_ROOT href = Raise e.

(** The state of phase one. *)
Record Frontier : Type := {
  queue : list string;
  discovered_pages : list string;
  collected_publications : list Listed
}.

(** The body of [while queue] for the page [current_page] taken from the
    queue that is left as [rest].  [listing url k] is what attempt [k] at
    the url comes to: [None] when it raises an exception that the loop
    catches; [Some (Ok soup)] when the page has loaded and
    [driver.page_source], which is read after the attempts and outside their
    [try], gives the page [soup]; [Some (Raise e)] when the driver raises
    an exception that the loop does not catch, or when the page has
    loaded and reading [driver.page_source] raises (a WebDriverException,
    say). *)
Definition visit (listing : string -> nat -> option (result ListingPage))
    (current_page : string) (rest : list string) (st : Frontier) : result Frontier :=
  match retry (listing current_page) with
  | None =>
      Ok {| queue := rest;
            discovered_pages := discovered_pages st;
            collected_publications := collected_publications st |}
  | Some (Raise e) => Raise e
  | Some (Ok soup) =>
      collected <- for_each (fun collected pub => collect_item collected pub)
                            (l_publications soup) (collected_publications st) ;;
      match l_next_link soup with
      | Some (Some href) =>
          next_url <- urljoin PORTAL_ROOT href ;;
          if str_in next_url (discovered_pages st)
          then Ok {| queue := rest;
                     discovered_pages := discovered_pages st;
                     collected_publications := collected |}
          else Ok {| queue := rest ++ [next_url];
                     discovered_pages := discovered_pages st ++ [next_url];
                     collected_publications := collected |}
      | _ =>
          Ok {| queue := rest;
                discovered_pages := discovered_pages st;
                collected_publications := collected |}
      end
  end.

(** Phase one: [while queue], for at most [fuel] tests of the queue;
    [None] when they do not suffice. *)
Fixpoint phase_one (fuel : nat)
    (listing : string -> nat -> option (result ListingPage))
    (st : Frontier) : option (result (list Listed)) :=
  match fuel with
  | 0 => None
  | S fuel' =>
      match queue st with
      | [] => Some (Ok (collected_publications st))
      | current_page :: rest =>
          match visit listing current_page rest st with
          | Ok st' => phase_one fuel' listing st'
          | Raise e => Some (Raise e)
          end
      end
  end.

Definition start : Frontier :=
  {| queue := [PORTAL_ENTRY_URL];
     discovered_pages := [PORTAL_ENTRY_URL];
     collected_publications := [] |}.

(** The body of the loop of phase two; [outcome k] is what attempt [k] at
    the url of the record comes to: [None] when it raises an exception that
    the loop catches, [Some (Ok detail_soup)] when it loads and parses the
    page, [Some (Raise e)] when the driver raises an exception that the loop
    does not catch.  The [except] of the attempts catches TimeoutException
    and WebDriverException only: what [extract_authors] raises leaves the
    loop as well. *)
Definition enrich (record : Listed) (outcome : nat -> option (result DetailPage))
  : result Enriched :=
  match retry outcome with
  | Some (Raise e) => Raise e
  | Some (Ok detail_soup) =>
      authors <- extract_authors detail_soup PORTAL_ROOT ;;
      Ok {| e_title := li_title record;
            e_url := li_url record;
            e_date := li_date record;
            e_authors := authors;
            e_abstract := extract_abstract detail_soup |}
  | None =>
      Ok {| e_title := li_title record;
            e_url := li_url record;
            e_date := li_date record;
            e_authors := [];
            e_abstract := EmptyString |}
  end.

(** Phase two; [details i] gives the attempts at record [i]. *)
Definition phase_two (details : nat -> nat -> option (result DetailPage))
    (collected : list Listed) : result (list Enriched) :=
  map_result (fun '(idx, record) => enrich record (details idx))
             (enumerate collected).

(** The JSON files, by name, with what [json.load] reads from them. *)
Definition json_files : Type := dict string (list Publication).

(** [crawl_portal], from the configured driver on: both phases, then the
    output file is written.  An exception of either phase leaves before the
    file is opened.  Setting up and quitting the driver, printing and
    writing the file are taken to succeed. *)
Definition crawl_portal (fuel : nat)
    (listing : string -> nat -> option (result ListingPage))
    (details : nat -> nat -> option (result DetailPage)) (files : json_files)
  : option (result json_files) :=
  match phase_one fuel listing start with
  | None => None
  | Some (Raise e) => Some (Raise e)
  | Some (Ok collected) =>
      match phase_two details collected with
      | Raise e => Some (Raise e)
      | Ok enriched_publications =>
          Some (Ok (PyDict.set OUTPUT_FILE
                               (map publication_of enriched_publications) files))
      end
  end.
End WithUrljoin.

(** The number of the urls of [sites] that are not among the discovered
    pages. *)
Definition undiscovered (sites discovered : list string) : nat :=
  List.length (filter (fun u => negb (str_in u discovered)) sites).
End Crawler.

(** A portal of two listing pages, the second of which links to itself; the
    first attempt at the entry page times out.  The page of the first
    publication loads at the second attempt, that of the second never. *)
Module ToyPortal.
(** A url is joined by putting it after the base; ["//["] is refused. *)
Definition urljoin (base url : string) : result string :=
  if (url =? "//[")%string then Raise ValueError else Ok (base ++ url)%string.

Definition second_page : string := Crawler.PORTAL_ROOT ++ "/page2".

Definition sites : list string := [Crawler.PORTAL_ENTRY_URL; second_page].

Definition page1 : Crawler.ListingPage :=
  {| Crawler.l_publications :=
       [ {| Crawler.i_title_tag :=
              Some {| Crawler.t_text := "Economic growth models";
                      Crawler.t_a := Some (Some "/pub/1") |};
            Crawler.i_date_tag := Some "2020" |};
         {| Crawler.i_title_tag := None; Crawler.i_date_tag := None |} ];
     Crawler.l_next_link := Some (Some "/page2") |}.

Definition page2 : Crawler.ListingPage :=
  {| Crawler.l_publications :=
       [ {| Crawler.i_title_tag :=
              Some {| Crawler.t_text := "Finance markets";
                      Crawler.t_a := Some (Some "/pub/2") |};
            Crawler.i_date_tag := None |} ];
     Crawler.l_next_link := Some (Some "/page2") |}.

Definition listing (url : string) (attempt : nat)
  : option (result Crawler.ListingPage) :=
  if (url =? Crawler.PORTAL_ENTRY_URL)%string
  then match attempt with
       | 0 => None
       | _ => Some (Ok page1)
       end
  else if (url =? second_page)%string then Some (Ok page2)
  else None.

Definition detail1 : Crawler.DetailPage :=
  {| Crawler.persons :=
       Some [ Crawler.Anchor "Alice" (Some "/persons/alice");
              Crawler.Text ", Bob Smith , ";
              Crawler.OtherTag ];
     Crawler.abstract_box := Some (Some "Growth theory and models") |}.

Definition details (idx attempt : nat) : option (result Crawler.DetailPage) :=
  match idx, attempt with
  | 0, S _ => Some (Ok detail1)
  | _, _ => None
  end.

(** A page of a publication with an author link that [urljoin] refuses. *)
Definition detail_refused : Crawler.DetailPage :=
  {| Crawler.persons := Some [ Crawler.Anchor "Carol" (Some "//[") ];
     Crawler.abstract_box := None |}.

Definition details_refused (idx attempt : nat)
  : option (result Crawler.DetailPage) :=
  match idx with
  | 0 => Some (Ok detail_refused)
  | _ => None
  end.

(** A listing page with an entry whose title link has no href. *)
Definition broken (url : string) (attempt : nat)
  : option (result Crawler.ListingPage) :=
  if (url =? Crawler.PORTAL_ENTRY_URL)%string
  then Some (Ok {| Crawler.l_publications :=
                       [ {| Crawler.i_title_tag :=
                              Some {| Crawler.t_text := "Untitled";
                                      Crawler.t_a := Some None |};
                            Crawler.i_date_tag := None |} ];
                     Crawler.l_next_link := None |})
  else None.
End ToyPortal.

(** ** The pipeline of [schedular.py] *)

Module Scheduler.
Section WithFloats.
Context {F : Type} `{FloatOps F}.
Variable nltk : Nltk.
Variable urljoin : string -> string -> result string.
Variable blob : Type.
Variable pickle_dumps : Pickled F -> blob.

(** The files that the pipeline reads and writes: the JSON files and the
    pickled indexes. *)
Record Files : Type := {
  json : Crawler.json_files;
  pickles : filesystem blob
}.

(** [build_index(json_file)]: opens and reads the file, then indexes the
    publications. *)
Definition build_index_file (json_file : string) (self : InvertedIndexer F)
    (files : Crawler.json_files) : result (InvertedIndexer F) :=
  match PyDict.get json_file files with
  | None => Raise FileNotFoundError
  | Some publications => build_index nltk publications self
  end.

(** [run_pipeline]: the files afterwards, and whether the run is logged as
    finished ([true]) or as a failure; [except Exception] lets no exception
    of the crawler or of the indexer out. *)
Definition run_pipeline (fuel : nat)
    (listing : string -> nat -> option (result Crawler.ListingPage))
    (details : nat -> nat -> option (result Crawler.DetailPage)) (files : Files)
  : option (Files * bool) :=
  match Crawler.crawl_portal urljoin fuel listing details (json files) with
  | None => None
  | Some (Raise _) => Some (files, false)
  | Some (Ok json') =>
      let files' := {| json := json'; pickles := pickles files |} in
      match build_index_file "coventry_publications.json" init json' with
      | Raise _ => Some (files', false)
      | Ok indexer =>
          Some ({| json := json';
                   pickles := save_index pickle_dumps "inverted_index.pkl" indexer
                                         (pickles files) |},
                true)
      end
  end.
End WithFloats.
End Scheduler.

(** * Properties *)

Example toy_tokens :
  preprocess_text Toy.nltk "Economic growth models Growth theory and models Alice"
  = ["economic"; "growth"; "model"; "growth"; "theory"; "model"; "alice"].
Proof. reflexivity. Qed.

(** ** Facts about dictionaries *)

Section DictFacts.
Context {K V : Type} `{KeyEq K}.
Implicit Types (k : K) (v : V) (d : dict K V).

Lemma keqb_refl k : keqb k k = true.
Proof. destruct (keqb_spec k k); congruence. Qed.

Lemma keqb_neq k k' : k <> k' -> keqb k k' = false.
Proof. destruct (keqb_spec k k'); congruence. Qed.

Lemma keqb_eq k k' : keqb k k' = true -> k = k'.
Proof. destruct (keqb_spec k k'); congruence. Qed.

Lemma get_set k' k v d :
  get k' (set k v d) = if keqb k' k then Some v else get k' d.
Proof.
  induction d as [|[k0 v0] d IH]; simpl.
  - reflexivity.
  - destruct (keqb_spec k k0) as [->|Hk]; simpl.
    + destruct (keqb_spec k' k0); reflexivity.
    + rewrite IH.
      destruct (keqb_spec k' k0) as [->|]; [|reflexivity].
      now rewrite (keqb_neq (not_eq_sym Hk)).
Qed.

Lemma get_set_eq k v d : get k (set k v d) = Some v.
Proof. now rewrite get_set, keqb_refl. Qed.

Lemma get_set_neq k' k v d : k' <> k -> get k' (set k v d) = get k' d.
Proof. intros Hk. now rewrite get_set, (keqb_neq Hk). Qed.

Lemma get_None_keys k d : get k d = None <-> ~ In k (keys d).
Proof.
  induction d as [|[k0 v0] d IH]; simpl.
  - tauto.
  - destruct (keqb_spec k k0) as [->|Hk].
    + split; [discriminate | tauto].
    + rewrite IH. split; [intros Hn [He|Hi]; [congruence|tauto] | tauto].
Qed.

Lemma get_Some_keys k v d : get k d = Some v -> In k (keys d).
Proof.
  intros Hg. destruct (in_dec (fun x y => reflect_dec _ _ (keqb_spec x y)) k (keys d)) as [Hi|Hn].
  - exact Hi.
  - apply get_None_keys in Hn. congruence.
Qed.

Lemma get_Some_In k v d : get k d = Some v -> In (k, v) d.
Proof.
  induction d as [|[k0 v0] d IH]; simpl; [discriminate|].
  destruct (keqb_spec k k0) as [->|Hk].
  - intros [= ->]. now left.
  - intros Hg. right. now apply IH.
Qed.

Lemma In_get_Some k v d : NoDup (keys d) -> In (k, v) d -> get k d = Some v.
Proof.
  induction d as [|[k0 v0] d IH]; simpl; [tauto|].
  intros Hnd [He|Hi].
  - injection He as -> ->. now rewrite keqb_refl.
  - inversion Hnd as [|? ? Hn Hnd']; subst.
    destruct (keqb_spec k k0) as [->|Hk].
    + exfalso. apply Hn. change (In k0 (map fst d)).
      now apply (in_map fst) in Hi.
    + now apply IH.
Qed.

Lemma mem_In k d : mem k d = true <-> In k (keys d).
Proof.
  unfold mem. destruct (get k d) eqn:Hg.
  - split; [intros _; eapply get_Some_keys; eauto | reflexivity].
  - apply get_None_keys in Hg. split; [discriminate | tauto].
Qed.

Lemma set_new k v d : get k d = None -> set k v d = d ++ [(k, v)].
Proof.
  induction d as [|[k0 v0] d IH]; simpl; [reflexivity|].
  destruct (keqb_spec k k0); [discriminate|].
  intros Hg. now rewrite IH.
Qed.

Lemma keys_set_old k v d : get k d <> None -> keys (set k v d) = keys d.
Proof.
  induction d as [|[k0 v0] d IH]; simpl; [congruence|].
  destruct (keqb_spec k k0); simpl; [reflexivity|].
  intros Hg. f_equal. now apply IH.
Qed.

Lemma set_same k v d : get k d = Some v -> set k v d = d.
Proof.
  induction d as [|[k0 v0] d IH]; simpl; [discriminate|].
  destruct (keqb_spec k k0).
  - now intros [= ->].
  - intros Hg. now rewrite IH.
Qed.

Lemma set_set k v v' d : set k v' (set k v d) = set k v' d.
Proof.
  induction d as [|[k0 v0] d IH]; simpl.
  - now rewrite keqb_refl.
  - destruct (keqb_spec k k0) as [->|Hk]; simpl.
    + now rewrite keqb_refl.
    + rewrite (keqb_neq Hk). now rewrite IH.
Qed.

Lemma NoDup_keys_set k v d : NoDup (keys d) -> NoDup (keys (set k v d)).
Proof.
  intros Hnd. destruct (get k d) eqn:Hg.
  - rewrite keys_set_old; [exact Hnd | congruence].
  - rewrite set_new by exact Hg. unfold keys. rewrite map_app. simpl.
    apply get_None_keys in Hg.
    apply (Permutation_NoDup (Permutation_cons_append (map fst d) k)).
    now constructor.
Qed.

Lemma get_default_set k' k v dflt d :
  get_default k' dflt (set k v d)
  = if keqb k' k then v else get_default k' dflt d.
Proof. unfold get_default. rewrite get_set. now destruct (keqb k' k). Qed.

Lemma get_app k d1 d2 :
  get k (d1 ++ d2) = match get k d1 with Some v => Some v | None => get k d2 end.
Proof.
  induction d1 as [|[k0 v0] d1 IH]; simpl; [reflexivity|].
  now destruct (keqb k k0).
Qed.
End DictFacts.

(** ** Facts about lists *)

Lemma combine_app_same {A B : Type} (l1 l2 : list A) (r1 r2 : list B) :
  List.length l1 = List.length r1 ->
  combine (l1 ++ l2) (r1 ++ r2) = combine l1 r1 ++ combine l2 r2.
Proof.
  revert r1. induction l1 as [|a l1 IH]; intros [|b r1]; simpl; try discriminate.
  - reflexivity.
  - intros [= Hlen]. now rewrite IH.
Qed.

Lemma enumerate_app {A : Type} (xs : list A) (x : A) :
  enumerate (xs ++ [x]) = enumerate xs ++ [(List.length xs, x)].
Proof.
  unfold enumerate. rewrite length_app. simpl.
  rewrite Nat.add_1_r, seq_S.
  rewrite combine_app_same by now rewrite length_seq.
  reflexivity.
Qed.

Lemma str_in_In (x : string) (xs : list string) : str_in x xs = true <-> In x xs.
Proof.
  unfold str_in. rewrite existsb_exists. split.
  - intros (y & Hy & He). apply String.eqb_eq in He. now subst.
  - intros Hi. exists x. split; [exact Hi | apply String.eqb_refl].
Qed.

Lemma str_in_false (x : string) (xs : list string) :
  str_in x xs = false <-> ~ In x xs.
Proof.
  rewrite <- str_in_In. destruct (str_in x xs); split; congruence.
Qed.

Lemma for_each_app {A S : Type} (body : S -> A -> result S) (xs ys : list A) (acc : S) :
  for_each body (xs ++ ys) acc = (acc' <- for_each body xs acc ;; for_each body ys acc').
Proof.
  revert acc. induction xs as [|x xs IH]; intros acc; simpl; [reflexivity|].
  destruct (body acc x); simpl; [apply IH | reflexivity].
Qed.

(** ** The first loop of [build_index] *)

Section CountFacts.

Lemma incr_fold_default (tokens : list string) (acc : dict string nat) (t : string) :
  get_default t 0 (fold_left (fun tc tok => dd_incr tok tc) tokens acc)
  = get_default t 0 acc + count_occ string_dec tokens t.
Proof.
  revert acc. induction tokens as [|tok tokens IH]; intros acc; simpl.
  - lia.
  - rewrite IH. unfold dd_incr. rewrite get_default_set. simpl.
    destruct (String.eqb_spec t tok) as [->|Hne].
    + destruct (string_dec tok tok); [lia | congruence].
    + destruct (string_dec tok t); [congruence | lia].
Qed.

Lemma incr_fold_None (tokens : list string) (acc : dict string nat) (t : string) :
  get t (fold_left (fun tc tok => dd_incr tok tc) tokens acc) = None
  <-> get t acc = None /\ ~ In t tokens.
Proof.
  revert acc. induction tokens as [|tok tokens IH]; intros acc; simpl.
  - tauto.
  - rewrite IH. unfold dd_incr. rewrite get_set. simpl.
    destruct (String.eqb_spec t tok) as [->|Hne].
    + split; [intros [Hd _]; discriminate | intros [_ Hn]; tauto].
    + split; [intros [Hg Hn]; split; [exact Hg | intros [He|Hi]; congruence]
             | intros [Hg Hn]; split; [exact Hg | tauto]].
Qed.

Lemma incr_fold_NoDup (tokens : list string) (acc : dict string nat) :
  NoDup (keys acc) ->
  NoDup (keys (fold_left (fun tc tok => dd_incr tok tc) tokens acc)).
Proof.
  revert acc. induction tokens as [|tok tokens IH]; intros acc Hnd; simpl.
  - exact Hnd.
  - apply IH. unfold dd_incr. now apply NoDup_keys_set.
Qed.

Lemma count_terms_NoDup (tokens : list string) : NoDup (keys (count_terms tokens)).
Proof. apply incr_fold_NoDup. constructor. Qed.

Lemma count_terms_get (tokens : list string) (t : string) :
  get t (count_terms tokens)
  = if str_in t tokens then Some (count_occ string_dec tokens t) else None.
Proof.
  destruct (str_in t tokens) eqn:Hin.
  - apply str_in_In in Hin.
    pose proof (incr_fold_default tokens [] t) as Hd.
    fold (count_terms tokens) in Hd. unfold get_default in Hd. simpl in Hd.
    destruct (get t (count_terms tokens)) eqn:Hg; [now subst|].
    apply incr_fold_None in Hg. tauto.
  - apply str_in_false in Hin. apply incr_fold_None. split; [reflexivity | exact Hin].
Qed.

Lemma count_occ_token_set (tokens : list string) (t : string) :
  count_occ string_dec (token_set tokens) t = if str_in t tokens then 1 else 0.
Proof.
  unfold token_set. destruct (str_in t tokens) eqn:Hin.
  - apply str_in_In in Hin.
    apply NoDup_count_occ'; [apply NoDup_nodup | now apply nodup_In].
  - apply str_in_false in Hin. apply count_occ_not_In.
    now rewrite nodup_In.
Qed.

End CountFacts.

Section FirstLoop.
Context {F : Type} `{FloatOps F}.
Variable nltk : Nltk.

Lemma tf_fold_split (doc_id : nat) (l : list (string * nat))
    (tfv : dict string F) (index : dict string (list (nat * F))) :
  fold_left
    (fun '(tf_vector, index) '(term, count) =>
       (set term (fadd f1 (fln (of_nat count))) tf_vector,
        dd_append term (doc_id, fadd f1 (fln (of_nat count))) index))
    l (tfv, index)
  = (fold_left (fun tfv '(t, c) => set t (tf c) tfv) l tfv,
     fold_left (fun ix '(t, c) => dd_append t (doc_id, tf c) ix) l index).
Proof.
  revert tfv index. induction l as [|[t c] l IH]; intros tfv index; simpl.
  - reflexivity.
  - apply IH.
Qed.

Lemma set_fold_fresh (l : list (string * nat)) (tfv : dict string F) :
  NoDup (keys tfv ++ keys l) ->
  fold_left (fun tfv '(t, c) => set t (tf c) tfv) l tfv
  = tfv ++ map (fun '(t, c) => (t, tf c)) l.
Proof.
  revert tfv. induction l as [|[t c] l IH]; intros tfv Hnd; simpl.
  - now rewrite app_nil_r.
  - rewrite IH.
    + rewrite set_new.
      * now rewrite <- app_assoc.
      * apply get_None_keys. simpl in Hnd.
        apply NoDup_remove_2 in Hnd. intros Hi. apply Hnd.
        apply in_or_app. now left.
    + rewrite set_new.
      * unfold keys in *. rewrite map_app. simpl in *.
        rewrite <- app_assoc. exact Hnd.
      * apply get_None_keys. simpl in Hnd.
        apply NoDup_remove_2 in Hnd. intros Hi. apply Hnd.
        apply in_or_app. now left.
Qed.

Lemma tf_vector_fold (tokens : list string) :
  fold_left (fun tfv '(t, c) => set t (tf c) tfv) (items (count_terms tokens)) []
  = tf_vector_of tokens.
Proof.
  unfold items. rewrite set_fold_fresh; [reflexivity|].
  simpl. apply count_terms_NoDup.
Qed.

Lemma append_fold_get (doc_id : nat) (l : list (string * nat))
    (index : dict string (list (nat * F))) (t : string) :
  NoDup (keys l) ->
  get t (fold_left (fun ix '(t, c) => dd_append t (doc_id, tf c) ix) l index)
  = match get t l with
    | Some c => Some (get_default t [] index ++ [(doc_id, tf c)])
    | None => get t index
    end.
Proof.
  revert index. induction l as [|[t0 c0] l IH]; intros index Hnd; simpl.
  - reflexivity.
  - inversion Hnd as [|? ? Hn Hnd']; subst.
    rewrite IH by exact Hnd'. unfold dd_append.
    destruct (String.eqb_spec t t0) as [->|Hne].
    + apply get_None_keys in Hn. rewrite Hn. now rewrite get_set_eq.
    + rewrite get_default_set, get_set. simpl.
      apply String.eqb_neq in Hne. now rewrite Hne.
Qed.

Lemma append_fold_NoDup (doc_id : nat) (l : list (string * nat))
    (index : dict string (list (nat * F))) :
  NoDup (keys index) ->
  NoDup (keys (fold_left (fun ix '(t, c) => dd_append t (doc_id, tf c) ix) l index)).
Proof.
  revert index. induction l as [|[t0 c0] l IH]; intros index Hnd; simpl.
  - exact Hnd.
  - apply IH. unfold dd_append. now apply NoDup_keys_set.
Qed.

Lemma keys_tf_vectors (corpus : list (list string)) :
  keys (tf_vectors (F:=F) corpus) = seq 0 (List.length corpus).
Proof.
  unfold keys, tf_vectors, enumerate. rewrite map_map.
  generalize 0. induction corpus as [|tk corpus IH]; intros k; simpl.
  - reflexivity.
  - now rewrite IH.
Qed.

Lemma tf_vectors_snoc (corpus : list (list string)) (tokens : list string) :
  tf_vectors (F:=F) (corpus ++ [tokens])
  = tf_vectors corpus ++ [(List.length corpus, tf_vector_of tokens)].
Proof. unfold tf_vectors. now rewrite enumerate_app, map_app. Qed.

Lemma tf_postings_snoc (corpus : list (list string)) (tokens : list string) (t : string) :
  tf_postings (F:=F) (corpus ++ [tokens]) t
  = tf_postings corpus t
    ++ (if str_in t tokens then [(List.length corpus, tf (raw_count tokens t))] else []).
Proof.
  unfold tf_postings. rewrite enumerate_app, flat_map_app. simpl.
  now rewrite app_nil_r.
Qed.

Lemma tf_postings_docs (corpus : list (list string)) (t : string) :
  map fst (tf_postings (F:=F) corpus t)
  = filter (fun i => str_in t (nth i corpus [])) (seq 0 (List.length corpus)).
Proof.
  induction corpus as [|tk corpus IH] using rev_ind.
  - reflexivity.
  - rewrite tf_postings_snoc, map_app, IH, length_app. simpl.
    rewrite Nat.add_1_r, seq_S, filter_app. simpl.
    rewrite nth_middle. f_equal.
    + apply filter_ext_in. intros i Hi. apply in_seq in Hi.
      now rewrite app_nth1 by lia.
    + now destruct (str_in t tk).
Qed.

Lemma tf_postings_nil (corpus : list (list string)) (t : string) :
  existsb (str_in t) corpus = false -> tf_postings (F:=F) corpus t = [].
Proof.
  induction corpus as [|tk corpus IH] using rev_ind.
  - reflexivity.
  - rewrite existsb_app. simpl. rewrite orb_false_r.
    intros Ho. apply orb_false_iff in Ho as [Hc Ht].
    rewrite tf_postings_snoc, IH, Ht; auto.
Qed.

Lemma doc_frequency_snoc (corpus : list (list string)) (tokens : list string) (t : string) :
  doc_frequency (corpus ++ [tokens]) t
  = doc_frequency corpus t + (if str_in t tokens then 1 else 0).
Proof.
  unfold doc_frequency. rewrite filter_app, length_app. simpl.
  now destruct (str_in t tokens).
Qed.

End FirstLoop.

Section FirstLoopInvariant.
Context {F : Type} `{FloatOps F}.
Variable nltk : Nltk.

Lemma author_names_ok (authors : list Author) :
  Forall (fun a => a_name a <> None) authors ->
  exists names, author_names authors = Ok names.
Proof.
  unfold author_names. induction 1 as [|a authors Ha _ [names IH]]; simpl.
  - now exists [].
  - destruct (a_name a) as [n|]; [|congruence]. simpl.
    rewrite IH. simpl. now exists (n :: names).
Qed.

Lemma author_names_raise (authors : list Author) :
  Exists (fun a => a_name a = None) authors ->
  author_names authors = Raise KeyError.
Proof.
  unfold author_names. induction 1 as [a authors Ha | a authors _ IH]; simpl.
  - now rewrite Ha.
  - destruct (a_name a); simpl; [now rewrite IH | reflexivity].
Qed.

Lemma init_first_loop_state : first_loop_state [] [] (init (F:=F)).
Proof.
  constructor; simpl; try reflexivity. constructor.
Qed.

Lemma index_publication_step corpus docs (st : InvertedIndexer F) pub :
  first_loop_state corpus docs st ->
  authors_named pub ->
  exists st',
    index_publication nltk st (List.length corpus, pub) = Ok st'
    /\ first_loop_state (corpus ++ [tokens_of nltk pub])
         (docs ++ [document_of (List.length corpus) pub]) st'.
Proof.
  intros [Hdocs Hlen Hvec Hcnt Hkeys Hix] Hnamed.
  destruct (author_names_ok Hnamed) as [names Hnames].
  unfold index_publication. rewrite Hnames. unfold bind.
  match goal with
  | |- context [fold_left ?f ?l (?a, ?b)] =>
      rewrite (tf_fold_split (List.length corpus) l a b : fold_left f l (a, b) = _)
  end.
  eexists. split; [reflexivity|].
  assert (Htok : tokens_of nltk pub = preprocess_text nltk (combined_text pub names)).
  { unfold tokens_of. now rewrite Hnames. }
  rewrite <- Htok.
  constructor; simpl.
  - now rewrite Hdocs.
  - rewrite !length_app. simpl. lia.
  - rewrite tf_vector_fold, Hvec, tf_vectors_snoc.
    apply set_new. apply get_None_keys. rewrite keys_tf_vectors, in_seq. lia.
  - intros t. rewrite incr_fold_default, Hcnt, count_occ_token_set.
    now rewrite doc_frequency_snoc.
  - now apply append_fold_NoDup.
  - intros t. unfold items.
    rewrite append_fold_get by apply count_terms_NoDup.
    rewrite count_terms_get, existsb_app, tf_postings_snoc. simpl.
    rewrite orb_false_r. unfold get_default. rewrite Hix.
    destruct (str_in t (tokens_of nltk pub)) eqn:Hin.
    + rewrite orb_true_r.
      destruct (existsb (str_in t) corpus) eqn:Hex; [reflexivity|].
      now rewrite tf_postings_nil.
    + rewrite orb_false_r, app_nil_r. reflexivity.
Qed.

Lemma index_publication_raise (st : InvertedIndexer F) doc_id pub :
  ~ authors_named pub ->
  index_publication nltk st (doc_id, pub) = Raise KeyError.
Proof.
  intros Hn. unfold index_publication.
  rewrite author_names_raise; [reflexivity|].
  apply neg_Forall_Exists_neg in Hn.
  - eapply Exists_impl; [|exact Hn]. simpl. intros a Ha.
    destruct (a_name a); [exfalso; apply Ha; discriminate | reflexivity].
  - intros a. destruct (a_name a); [left; discriminate | right; tauto].
Qed.

Lemma first_loop_from corpus docs (st : InvertedIndexer F) pubs :
  first_loop_state corpus docs st ->
  Forall authors_named pubs ->
  exists st',
    for_each (index_publication nltk)
             (combine (seq (List.length corpus) (List.length pubs)) pubs) st
    = Ok st'
    /\ first_loop_state (corpus ++ map (tokens_of nltk) pubs)
         (docs ++ documents_from (List.length corpus) pubs) st'.
Proof.
  intros Hst Hall. revert corpus docs st Hst.
  induction Hall as [|pub pubs Hpub _ IH]; intros corpus docs st Hst.
  - exists st. split; [reflexivity|].
    unfold documents_from. simpl. now rewrite !app_nil_r.
  - destruct (index_publication_step Hst Hpub) as (st1 & Hstep & Hst1).
    cbn [combine seq List.length for_each].
    rewrite Hstep. cbn [bind].
    destruct (IH _ _ _ Hst1) as (st' & Hloop & Hst').
    rewrite length_app in Hloop. simpl in Hloop.
    rewrite Nat.add_1_r in Hloop.
    exists st'. split; [exact Hloop|].
    unfold documents_from in *. simpl.
    rewrite length_app in Hst'. simpl in Hst'. rewrite Nat.add_1_r in Hst'.
    now rewrite <- !app_assoc in Hst'.
Qed.

Lemma first_loop_init pubs :
  Forall authors_named pubs ->
  exists st',
    for_each (index_publication nltk) (enumerate pubs) (init (F:=F)) = Ok st'
    /\ first_loop_state (map (tokens_of nltk) pubs) (documents_from 0 pubs) st'.
Proof.
  intros Hall.
  exact (first_loop_from init_first_loop_state Hall).
Qed.

End FirstLoopInvariant.

(** ** Facts about [map_values] *)

Section MapValuesFacts.
Context {K V W : Type} `{KeyEq K}.

Lemma keys_map_values (f : K -> V -> W) (d : dict K V) :
  keys (map_values f d) = keys d.
Proof.
  unfold keys, map_values. rewrite map_map. apply map_ext. now intros [k v].
Qed.

Lemma get_map_values (f : K -> V -> W) (k : K) (d : dict K V) :
  get k (map_values f d) = option_map (f k) (get k d).
Proof.
  induction d as [|[k0 v0] d IH]; simpl; [reflexivity|].
  destruct (keqb_spec k k0) as [->|Hne]; [reflexivity | exact IH].
Qed.

Lemma map_values_ext_in (f g : K -> V -> W) (d : dict K V) :
  (forall k v, In (k, v) d -> f k v = g k v) ->
  map_values f d = map_values g d.
Proof.
  intros Hfg. apply map_ext_in. intros [k v] Hi. now rewrite Hfg.
Qed.

Lemma In_map_values (f : K -> V -> W) (k : K) (w : W) (d : dict K V) :
  In (k, w) (map_values f d) <-> exists v, In (k, v) d /\ w = f k v.
Proof.
  unfold map_values. rewrite in_map_iff. split.
  - intros ([k0 v0] & [= -> <-] & Hi). now exists v0.
  - intros (v & Hi & ->). now exists (k, v).
Qed.
End MapValuesFacts.

Lemma map_values_id {K V : Type} (d : dict K V) : map_values (fun _ v => v) d = d.
Proof.
  unfold map_values. rewrite <- (map_id d) at 2. apply map_ext. now intros [k v].
Qed.

Lemma map_values_compose {K V W X : Type} (f : K -> V -> W) (g : K -> W -> X)
    (d : dict K V) :
  map_values g (map_values f d) = map_values (fun k v => g k (f k v)) d.
Proof.
  unfold map_values. rewrite map_map. apply map_ext. now intros [k v].
Qed.

Lemma set_map_values {K V : Type} `{KeyEq K} (f : V -> V) (k : K) (v : V)
    (d : dict K V) :
  NoDup (keys d) -> get k d = Some v ->
  set k (f v) d = map_values (fun k' v0 => if keqb k' k then f v0 else v0) d.
Proof.
  induction d as [|[k0 v0] d IH]; simpl; [discriminate|].
  intros Hnd Hg. inversion Hnd as [|? ? Hn Hnd']; subst.
  destruct (keqb_spec k k0) as [->|Hne].
  - injection Hg as ->. rewrite keqb_refl. f_equal.
    rewrite <- (map_values_id d) at 1. apply map_values_ext_in.
    intros k1 v1 Hi. destruct (keqb_spec k1 k0) as [->|]; [|reflexivity].
    exfalso. apply Hn. now apply (in_map fst) in Hi.
  - rewrite (keqb_neq (not_eq_sym Hne)). f_equal. now apply IH.
Qed.

Lemma set_middle {K V : Type} `{KeyEq K} (k : K) (v v0 : V) (d1 d2 : dict K V) :
  ~ In k (keys d1) ->
  set k v (d1 ++ (k, v0) :: d2) = d1 ++ (k, v) :: d2.
Proof.
  induction d1 as [|[k1 v1] d1 IH]; simpl; intros Hn.
  - now rewrite keqb_refl.
  - rewrite keqb_neq by (intros ->; apply Hn; now left).
    f_equal. apply IH. tauto.
Qed.

Lemma get_middle {K V : Type} `{KeyEq K} (k : K) (v0 : V) (d1 d2 : dict K V) :
  ~ In k (keys d1) ->
  get k (d1 ++ (k, v0) :: d2) = Some v0.
Proof.
  intros Hn. rewrite get_app. apply get_None_keys in Hn. rewrite Hn.
  simpl. now rewrite keqb_refl.
Qed.

(** ** The second loop of [build_index] *)

Section SecondLoop.
Context {F : Type} `{FloatOps F}.
Variable nltk : Nltk.

Lemma list_set_middle {A : Type} (done rest : list A) (x v : A) :
  list_set (List.length done) v (done ++ x :: rest) = done ++ v :: rest.
Proof. induction done as [|y done IH]; simpl; [reflexivity | now rewrite IH]. Qed.

Lemma scale_docs_nil (t : string) (x : F) (vectors : dict nat (dict string F)) :
  scale_docs t x [] vectors = vectors.
Proof. unfold scale_docs. simpl. apply map_values_id. Qed.

Lemma scale_one (t : string) (x w : F) (d : nat) (vector : dict string F)
    (vectors : dict nat (dict string F)) :
  NoDup (keys vectors) -> get d vectors = Some vector ->
  NoDup (keys vector) -> get t vector = Some w ->
  set d (set t (fmul w x) vector) vectors = scale_docs t x [d] vectors.
Proof.
  intros Hnd Hd Hndv Ht.
  rewrite (@set_map_values _ _ _ (fun w0 => fmul w0 x) t w vector Hndv Ht).
  change (map_values _ vector) with (scale_at t x vector).
  rewrite (@set_map_values _ _ _ (scale_at t x) d vector vectors Hnd Hd).
  unfold scale_docs. apply map_values_ext_in. intros d' v _. simpl.
  now rewrite orb_false_r.
Qed.

Lemma scale_docs_cons (t : string) (x : F) (d : nat) (ds : list nat)
    (vectors : dict nat (dict string F)) :
  ~ In d ds ->
  scale_docs t x ds (scale_docs t x [d] vectors) = scale_docs t x (d :: ds) vectors.
Proof.
  intros Hn. unfold scale_docs. rewrite map_values_compose.
  apply map_values_ext_in. intros d' v _. simpl. rewrite orb_false_r.
  destruct (Nat.eqb_spec d' d) as [->|Hne]; simpl; [|reflexivity].
  assert (Hf : existsb (Nat.eqb d) ds = false).
  { apply not_true_is_false. intros He. apply existsb_exists in He as (y & Hy & Hyd).
    apply Nat.eqb_eq in Hyd. now subst. }
  now rewrite Hf.
Qed.

Lemma scale_posting_loop (t : string) (x : F) (ps done : list (nat * F))
    (st : InvertedIndexer F) :
  get t (inverted_index st) = Some (done ++ ps) ->
  NoDup (keys (document_vectors st)) ->
  (forall d vector, get d (document_vectors st) = Some vector -> NoDup (keys vector)) ->
  NoDup (map fst ps) ->
  (forall d, In d (map fst ps) ->
     exists vector, get d (document_vectors st) = Some vector /\ get t vector <> None) ->
  for_each (scale_posting t x) (combine (seq (List.length done) (List.length ps)) ps) st
  = Ok {| inverted_index :=
            set t (done ++ map (scale_weight x) ps) (inverted_index st);
          term_document_counts := term_document_counts st;
          document_vectors := scale_docs t x (map fst ps) (document_vectors st);
          documents := documents st |}.
Proof.
  revert done st. induction ps as [|[d w0] ps IH]; intros done st Hix Hnd Hvec Hps Hex.
  - simpl. rewrite scale_docs_nil, set_same by exact Hix. now destruct st.
  - cbn [combine seq List.length for_each].
    assert (Hd : exists vector w, get d (document_vectors st) = Some vector
                                  /\ get t vector = Some w).
    { destruct (Hex d (or_introl eq_refl)) as (vector & Hg & Ht).
      destruct (get t vector) as [w|] eqn:Hw; [|congruence]. now exists vector, w. }
    destruct Hd as (vector & w & Hg & Hw).
    unfold scale_posting at 1. unfold getitem. rewrite Hg. cbn [bind]. rewrite Hw.
    cbn [bind].
    unfold get_default. rewrite Hix, list_set_middle.
    inversion Hps as [|? ? Hnin Hps']; subst.
    replace (S (List.length done)) with (List.length (done ++ [(d, fmul w0 x)]))
      by (rewrite length_app; simpl; lia).
    rewrite IH; cbn [inverted_index document_vectors term_document_counts documents].
    + f_equal. f_equal.
      * rewrite set_set. now rewrite <- app_assoc.
      * rewrite (@scale_one t x w d vector _ Hnd Hg (Hvec _ _ Hg) Hw).
        now apply scale_docs_cons.
    + rewrite get_set_eq. now rewrite <- app_assoc.
    + now apply NoDup_keys_set.
    + intros d' v'. rewrite get_set.
      destruct (keqb_spec d' d) as [->|Hne].
      * intros [= <-]. apply NoDup_keys_set. eapply Hvec; eauto.
      * apply Hvec.
    + exact Hps'.
    + intros d' Hd'. rewrite get_set_neq.
      * apply Hex. now right.
      * intros ->. contradiction.
Qed.

End SecondLoop.

Section SecondLoopOuter.
Context {F : Type} `{FloatOps F}.
Variable nltk : Nltk.

Lemma str_in_app (x : string) (xs ys : list string) :
  str_in x (xs ++ ys) = str_in x xs || str_in x ys.
Proof. apply existsb_app. Qed.

Lemma existsb_eqb_In (d : nat) (ds : list nat) :
  existsb (Nat.eqb d) ds = true <-> In d ds.
Proof.
  rewrite existsb_exists. split.
  - intros (y & Hy & He). apply Nat.eqb_eq in He. now subst.
  - intros Hi. exists d. split; [exact Hi | apply Nat.eqb_refl].
Qed.

Lemma scale_terms_step (g : string -> F) (t : string) (ts : list string)
    (ds : list nat) (vectors : dict nat (dict string F)) :
  ~ In t ts ->
  (forall d vector, In (d, vector) vectors -> (In d ds <-> In t (keys vector))) ->
  scale_docs t (g t) ds (scale_terms g ts vectors) = scale_terms g (ts ++ [t]) vectors.
Proof.
  intros Hnt Hds. unfold scale_docs, scale_terms. rewrite map_values_compose.
  apply map_values_ext_in. intros d vector Hin.
  destruct (existsb (Nat.eqb d) ds) eqn:Hd.
  - unfold scale_at. rewrite map_values_compose. apply map_values_ext_in.
    intros t' w _. rewrite str_in_app. simpl. rewrite orb_false_r.
    destruct (String.eqb_spec t' t) as [->|Hne].
    + apply str_in_false in Hnt. now rewrite Hnt.
    + now rewrite orb_false_r.
  - apply map_values_ext_in. intros t' w Ht'. rewrite str_in_app. simpl.
    rewrite orb_false_r.
    destruct (String.eqb_spec t' t) as [->|Hne]; [|now rewrite orb_false_r].
    exfalso. apply (in_map fst) in Ht'. simpl in Ht'.
    apply (Hds _ _ Hin) in Ht'. apply existsb_eqb_In in Ht'. congruence.
Qed.

Lemma scale_term_loop (st1 : InvertedIndexer F) :
  let g := compute_inverse_document_frequency st1 in
  NoDup (keys (inverted_index st1)) ->
  NoDup (keys (document_vectors st1)) ->
  (forall d vector, In (d, vector) (document_vectors st1) -> NoDup (keys vector)) ->
  index_matches (inverted_index st1) (document_vectors st1) ->
  forall todo done,
    inverted_index st1 = done ++ todo ->
    for_each scale_term todo
      {| inverted_index := scale_index g done ++ todo;
         term_document_counts := term_document_counts st1;
         document_vectors := scale_terms g (keys done) (document_vectors st1);
         documents := documents st1 |}
    = Ok {| inverted_index := scale_index g (done ++ todo);
            term_document_counts := term_document_counts st1;
            document_vectors :=
              scale_terms g (keys (done ++ todo)) (document_vectors st1);
            documents := documents st1 |}.
Proof.
  intros g Hix Hdv Hvec Hmatch todo.
  induction todo as [|[t ps] todo IH]; intros done Heq.
  - simpl. now rewrite !app_nil_r.
  - cbn [for_each].
    assert (Hin : In (t, ps) (inverted_index st1)).
    { rewrite Heq. apply in_or_app. right. now left. }
    destruct (Hmatch _ _ Hin) as [Hps Hdocs].
    assert (Hnt : ~ In t (keys done)).
    { rewrite Heq in Hix. unfold keys in Hix. rewrite map_app in Hix. simpl in Hix.
      apply NoDup_remove_2 in Hix. intros Hi. apply Hix. apply in_or_app. now left. }
    unfold scale_term at 1.
    change (compute_inverse_document_frequency _ t) with (g t).
    change (enumerate ps) with (combine (seq (List.length (@nil (nat * F))) (List.length ps)) ps).
    rewrite scale_posting_loop;
      cbn [inverted_index document_vectors term_document_counts documents].
    + cbn [bind]. specialize (IH (done ++ [(t, ps)])).
      rewrite <- app_assoc in IH. simpl in IH.
      rewrite <- (IH Heq). f_equal. f_equal.
      * rewrite set_middle.
        -- unfold scale_index, map_values. rewrite map_app, <- app_assoc. reflexivity.
        -- unfold scale_index. now rewrite keys_map_values.
      * unfold keys at 2. rewrite map_app. simpl. apply scale_terms_step.
        -- exact Hnt.
        -- intros d vector Hd. rewrite Hdocs. split.
           ++ intros (vector' & Hd' & Ht).
              apply (In_get_Some _ _ _ Hdv) in Hd, Hd'. congruence.
           ++ intros Ht. now exists vector.
    + simpl. apply get_middle. unfold scale_index. now rewrite keys_map_values.
    + unfold scale_terms. now rewrite keys_map_values.
    + intros d vector. unfold scale_terms. rewrite get_map_values.
      destruct (get d (document_vectors st1)) as [v0|] eqn:Hg; [|discriminate].
      intros [= <-]. rewrite keys_map_values.
      apply Hvec with d. now apply get_Some_In.
    + exact Hps.
    + intros d Hd. apply Hdocs in Hd as (vector & Hd & Ht).
      apply (In_get_Some _ _ _ Hdv) in Hd.
      unfold scale_terms. rewrite get_map_values, Hd. simpl.
      eexists. split; [reflexivity|].
      rewrite get_map_values.
      destruct (get t vector) eqn:Hg; [discriminate|].
      apply get_None_keys in Hg. contradiction.
Qed.

End SecondLoopOuter.

(** ** [build_index] on a new indexer *)

Section Build.
Context {F : Type} `{FloatOps F}.
Variable nltk : Nltk.

Lemma In_enumerate {A : Type} (l : list A) (i : nat) (x dflt : A) :
  In (i, x) (enumerate l) <-> i < List.length l /\ nth i l dflt = x.
Proof.
  induction l as [|y l IH] using rev_ind.
  - simpl. split; [tauto | intros [Hlt _]; inversion Hlt].
  - rewrite enumerate_app, in_app_iff, IH, length_app. simpl. split.
    + intros [[Hlt Hn] | [[= <- <-] | []]].
      * split; [lia | rewrite app_nth1 by lia; exact Hn].
      * split; [lia | apply nth_middle].
    + intros [Hlt Hn]. destruct (Nat.eq_dec i (List.length l)) as [->|Hne].
      * right. left. rewrite nth_middle in Hn. now subst.
      * left. split; [lia|]. rewrite app_nth1 in Hn by lia. exact Hn.
Qed.

Lemma In_tf_vectors (corpus : list (list string)) (d : nat) (vector : dict string F) :
  In (d, vector) (tf_vectors corpus)
  <-> d < List.length corpus /\ vector = tf_vector_of (nth d corpus []).
Proof.
  unfold tf_vectors. rewrite in_map_iff. split.
  - intros ([i tk] & [= -> <-] & Hin). apply (In_enumerate _ _ _ []) in Hin as [Hlt Hn].
    now subst.
  - intros [Hlt ->]. exists (d, nth d corpus []). split; [reflexivity|].
    now apply (In_enumerate _ _ _ []).
Qed.

Lemma keys_tf_vector_of (tokens : list string) (t : string) :
  In t (keys (tf_vector_of (F:=F) tokens)) <-> In t tokens.
Proof.
  unfold tf_vector_of.
  change (map (fun '(t0, c) => (t0, tf c)) (count_terms tokens))
    with (map_values (fun _ c => tf (F:=F) c) (count_terms tokens)).
  rewrite keys_map_values, <- mem_In. unfold mem.
  rewrite count_terms_get, <- str_in_In.
  destruct (str_in t tokens); split; congruence.
Qed.

Lemma NoDup_keys_tf_vector_of (tokens : list string) :
  NoDup (keys (tf_vector_of (F:=F) tokens)).
Proof.
  unfold tf_vector_of.
  change (map (fun '(t0, c) => (t0, tf c)) (count_terms tokens))
    with (map_values (fun _ c => tf (F:=F) c) (count_terms tokens)).
  rewrite keys_map_values. apply count_terms_NoDup.
Qed.

Lemma existsb_str_in_nth (corpus : list (list string)) (t : string) (d : nat) :
  d < List.length corpus -> In t (nth d corpus []) ->
  existsb (str_in t) corpus = true.
Proof.
  intros Hlt Hin. apply existsb_exists. exists (nth d corpus []). split.
  - now apply nth_In.
  - now apply str_in_In.
Qed.

Lemma first_loop_index_matches corpus docs (st : InvertedIndexer F) :
  first_loop_state corpus docs st ->
  index_matches (inverted_index st) (document_vectors st).
Proof.
  intros [Hdocs Hlen Hvec Hcnt Hkeys Hix] t ps Hin.
  apply (In_get_Some _ _ _ Hkeys) in Hin. rewrite Hix in Hin.
  destruct (existsb (str_in t) corpus); [|discriminate].
  injection Hin as <-. rewrite Hvec, tf_postings_docs. split.
  - apply NoDup_filter, seq_NoDup.
  - intros d. rewrite filter_In, in_seq. split.
    + intros [Hlt Ht]. exists (tf_vector_of (nth d corpus [])). split.
      * apply In_tf_vectors. split; [lia | reflexivity].
      * apply keys_tf_vector_of. now apply str_in_In.
    + intros (vector & Hd & Ht). apply In_tf_vectors in Hd as [Hlt ->].
      apply (proj1 (keys_tf_vector_of _ _)) in Ht. split; [lia | now apply str_in_In].
Qed.

Lemma build_index_built (pubs : list Publication) :
  Forall authors_named pubs ->
  exists st, build_index nltk pubs init = Ok st /\ built_state nltk pubs st.
Proof.
  intros Hall.
  destruct (first_loop_init (F:=F) nltk Hall) as (st1 & Hloop & Hst1).
  unfold build_index. rewrite Hloop. cbn [bind].
  pose proof (first_loop_index_matches Hst1) as Hmatch.
  destruct Hst1 as [Hdocs Hlen Hvec Hcnt Hkeys Hix].
  assert (Hvkeys : NoDup (keys (document_vectors st1))).
  { rewrite Hvec, keys_tf_vectors. apply seq_NoDup. }
  assert (Hinner : forall d vector,
             In (d, vector) (document_vectors st1) -> NoDup (keys vector)).
  { intros d vector Hd. rewrite Hvec in Hd. apply In_tf_vectors in Hd as [_ ->].
    apply NoDup_keys_tf_vector_of. }
  pose proof (@scale_term_loop F _ st1 Hkeys Hvkeys Hinner Hmatch
                (inverted_index st1) [] eq_refl) as Hsecond.
  assert (Hstart :
            {| inverted_index :=
                 scale_index (compute_inverse_document_frequency st1) []
                 ++ inverted_index st1;
               term_document_counts := term_document_counts st1;
               document_vectors :=
                 scale_terms (compute_inverse_document_frequency st1)
                   (keys (@nil (string * list (nat * F)))) (document_vectors st1);
               documents := documents st1 |} = st1).
  { destruct st1 as [ix cnt vecs ds]. cbn [inverted_index term_document_counts
      document_vectors documents scale_index map_values map app keys].
    f_equal. unfold scale_terms.
    rewrite <- (map_values_id vecs) at 2.
    apply map_values_ext_in. intros d v _. simpl. apply map_values_id. }
  rewrite Hstart in Hsecond. cbn [app] in Hsecond.
  unfold items. rewrite Hsecond.
  eexists. split; [reflexivity|].
  assert (Hn : List.length (documents st1) = List.length pubs).
  { rewrite Hdocs, Hlen. apply length_map. }
  assert (Hg : forall t, compute_inverse_document_frequency st1 t
                         = idf (List.length pubs)
                               (doc_frequency (map (tokens_of nltk) pubs) t)).
  { intros t. unfold compute_inverse_document_frequency, idf. now rewrite Hn, Hcnt. }
  clear Hsecond.
  constructor; cbn [inverted_index document_vectors term_document_counts documents app].
  - exact Hdocs.
  - exact Hcnt.
  - rewrite Hvec. unfold scale_terms. apply map_values_ext_in.
    intros d vector Hd. apply map_values_ext_in. intros t w Ht.
    rewrite Hg.
    assert (Hin : str_in t (keys (inverted_index st1)) = true).
    { apply str_in_In. apply In_tf_vectors in Hd as [Hlt ->].
      apply (in_map fst) in Ht. apply (proj1 (keys_tf_vector_of _ _)) in Ht.
      cbn [fst] in Ht.
      pose proof (existsb_str_in_nth _ _ Hlt Ht) as Hex.
      specialize (Hix t). rewrite Hex in Hix.
      eapply get_Some_keys; eauto. }
    now rewrite Hin.
  - unfold scale_index. now rewrite keys_map_values.
  - intros t. unfold scale_index. rewrite get_map_values, Hix, Hg.
    now destruct (existsb (str_in t) (map (tokens_of nltk) pubs)).
Qed.

End Build.

Section BuildFails.
Context {F : Type} `{FloatOps F}.
Variable nltk : Nltk.

Lemma authors_named_dec (pub : Publication) :
  {authors_named pub} + {~ authors_named pub}.
Proof.
  apply Forall_dec. intros a. destruct (a_name a); [left; discriminate | right; tauto].
Qed.

Lemma first_loop_raise corpus docs (st : InvertedIndexer F) pubs :
  first_loop_state corpus docs st ->
  ~ Forall authors_named pubs ->
  for_each (index_publication nltk)
           (combine (seq (List.length corpus) (List.length pubs)) pubs) st
  = Raise KeyError.
Proof.
  revert corpus docs st. induction pubs as [|pub pubs IH]; intros corpus docs st Hst Hn.
  - exfalso. apply Hn. constructor.
  - cbn [combine seq List.length for_each].
    destruct (authors_named_dec pub) as [Hpub|Hpub].
    + destruct (index_publication_step nltk Hst Hpub) as (st1 & Hstep & Hst1).
      rewrite Hstep. cbn [bind].
      specialize (IH _ _ _ Hst1). rewrite length_app in IH. simpl in IH.
      rewrite Nat.add_1_r in IH. apply IH.
      intros Hall. apply Hn. now constructor.
    + now rewrite index_publication_raise.
Qed.

Lemma build_index_raise (pubs : list Publication) :
  ~ Forall authors_named pubs ->
  build_index nltk pubs (init (F:=F)) = Raise KeyError.
Proof.
  intros Hn. unfold build_index, enumerate.
  pose proof (first_loop_raise init_first_loop_state Hn) as Hr.
  cbn [List.length] in Hr. now rewrite Hr.
Qed.

Lemma build_index_ok_named (pubs : list Publication) (st : InvertedIndexer F) :
  build_index nltk pubs init = Ok st -> Forall authors_named pubs.
Proof.
  intros Hb. destruct (Forall_dec _ authors_named_dec pubs) as [Hall|Hn].
  - exact Hall.
  - rewrite build_index_raise in Hb by exact Hn. discriminate.
Qed.

Lemma build_index_ok_built (pubs : list Publication) (st : InvertedIndexer F) :
  build_index nltk pubs init = Ok st -> built_state nltk pubs st.
Proof.
  intros Hb. destruct (build_index_built (F:=F) nltk (build_index_ok_named _ Hb))
    as (st' & Hb' & Hst').
  congruence.
Qed.

Lemma length_documents_from (k : nat) (pubs : list Publication) :
  List.length (documents_from k pubs) = List.length pubs.
Proof.
  unfold documents_from. rewrite length_map, length_combine, length_seq. lia.
Qed.

Lemma get_tf_vector_of (tokens : list string) (t : string) :
  get t (tf_vector_of (F:=F) tokens)
  = if str_in t tokens then Some (tf (raw_count tokens t)) else None.
Proof.
  unfold tf_vector_of.
  change (map (fun '(t0, c) => (t0, tf c)) (count_terms tokens))
    with (map_values (fun _ c => tf (F:=F) c) (count_terms tokens)).
  rewrite get_map_values, count_terms_get. now destruct (str_in t tokens).
Qed.

Lemma In_tf_postings (corpus : list (list string)) (t : string) (d : nat) (w : F) :
  In (d, w) (tf_postings corpus t)
  <-> d < List.length corpus /\ In t (nth d corpus [])
      /\ w = tf (raw_count (nth d corpus []) t).
Proof.
  unfold tf_postings. rewrite in_flat_map. split.
  - intros ([i tk] & Hin & Hd). apply (In_enumerate _ _ _ []) in Hin as [Hlt Hn].
    subst tk. destruct (str_in t (nth i corpus [])) eqn:Hs; [|destruct Hd].
    destruct Hd as [[= -> <-]|[]]. apply str_in_In in Hs. tauto.
  - intros (Hlt & Ht & ->). exists (d, nth d corpus []). split.
    + now apply (In_enumerate _ _ _ []).
    + apply str_in_In in Ht. rewrite Ht. now left.
Qed.

Lemma raw_count_pos (tokens : list string) (t : string) :
  1 <= raw_count tokens t <-> In t tokens.
Proof. unfold raw_count. symmetry. apply count_occ_In. Qed.

Lemma built_vector (pubs : list Publication) (st : InvertedIndexer F) (d : nat) :
  built_state nltk pubs st ->
  get d (document_vectors st)
  = if d <? List.length pubs
    then Some (map_values
                 (fun t w => fmul w (idf (List.length pubs)
                                         (doc_frequency (map (tokens_of nltk) pubs) t)))
                 (tf_vector_of (nth d (map (tokens_of nltk) pubs) [])))
    else None.
Proof.
  intros Hst. rewrite (bs_vectors Hst), get_map_values.
  destruct (Nat.ltb_spec d (List.length pubs)) as [Hlt|Hge].
  - erewrite In_get_Some; [reflexivity | |].
    + rewrite keys_tf_vectors. apply seq_NoDup.
    + apply In_tf_vectors. rewrite length_map. split; [exact Hlt | reflexivity].
  - replace (get d (tf_vectors (map (tokens_of nltk) pubs))) with (@None (dict string F));
      [reflexivity|].
    symmetry. apply get_None_keys. rewrite keys_tf_vectors, in_seq, length_map. lia.
Qed.

End BuildFails.

(** ** The stored weights *)

Section Weights.
Context {F : Type} `{FloatOps F}.
Variable nltk : Nltk.

Lemma stored_weights (pubs : list Publication) (st : InvertedIndexer F) :
  build_index nltk pubs init = Ok st ->
  let n := List.length (documents st) in
  let df t := get_default t 0 (term_document_counts st) in
  let count d t := raw_count (nth d (map (tokens_of nltk) pubs) []) t in
  n = List.length pubs
  /\ (forall d vector t w,
        get d (document_vectors st) = Some vector -> get t vector = Some w ->
        1 <= count d t /\ w = tf_idf (count d t) n (df t))
  /\ (forall t ps d w,
        get t (inverted_index st) = Some ps -> In (d, w) ps ->
        1 <= count d t /\ w = tf_idf (count d t) n (df t))
  /\ (forall d t,
        d < List.length pubs -> 1 <= count d t ->
        (exists vector,
            get d (document_vectors st) = Some vector
            /\ get t vector = Some (tf_idf (count d t) n (df t)))
        /\ In (d, tf_idf (count d t) n (df t))
              (get_default t [] (inverted_index st))).
Proof.
  intros Hb n df count. apply build_index_ok_built in Hb.
  assert (Hn : n = List.length pubs).
  { unfold n. rewrite (bs_documents Hb). apply length_documents_from. }
  assert (Hdf : forall t, df t = doc_frequency (map (tokens_of nltk) pubs) t).
  { intros t. apply (bs_counts Hb). }
  split; [exact Hn|]. split; [|split].
  - intros d vector t w Hd Ht. rewrite (built_vector d Hb) in Hd.
    destruct (d <? List.length pubs); [|discriminate]. injection Hd as <-.
    rewrite get_map_values, get_tf_vector_of in Ht.
    destruct (str_in t _) eqn:Hs; [|discriminate]. injection Ht as <-.
    apply str_in_In in Hs. split; [now apply raw_count_pos|].
    unfold tf_idf, count. now rewrite Hn, Hdf.
  - intros t ps d w Hps Hin. rewrite (bs_index Hb) in Hps.
    destruct (existsb _ _); [|discriminate]. injection Hps as <-.
    apply in_map_iff in Hin as ([d0 w0] & [= -> <-] & Hin).
    apply In_tf_postings in Hin as (Hlt & Ht & ->).
    split; [now apply raw_count_pos|].
    unfold tf_idf, count. now rewrite Hn, Hdf.
  - intros d t Hlt Hc. apply raw_count_pos in Hc. split.
    + eexists. rewrite (built_vector d Hb).
      apply Nat.ltb_lt in Hlt. rewrite Hlt. split; [reflexivity|].
      rewrite get_map_values, get_tf_vector_of.
      apply str_in_In in Hc. rewrite Hc. simpl.
      unfold tf_idf, count. now rewrite Hn, Hdf.
    + unfold get_default. rewrite (bs_index Hb).
      erewrite existsb_str_in_nth; [| rewrite length_map; exact Hlt | exact Hc].
      apply in_map_iff. exists (d, tf (raw_count (nth d (map (tokens_of nltk) pubs) []) t)).
      split.
      * unfold scale_weight, tf_idf, count. simpl. now rewrite Hn, Hdf.
      * apply In_tf_postings. rewrite length_map. tauto.
Qed.

(** C1.  In the index that [build_index] leaves in a new indexer, every
    weight stored for term [t] and document [d], in the document vector and
    in the posting list, belongs to a term with raw count at least 1 and is
    [(1 + ln(count)) * (ln((N + 1) / (df + 1)) + 1)], where [N] is the number
    of stored documents and [df] is [term_document_counts[t]]; conversely
    every term with raw count at least 1 has that weight stored in both
    places.  A term with raw count 0 is therefore absent. *)
Theorem build_index_weights (pubs : list Publication) (st : InvertedIndexer F) :
  build_index nltk pubs init = Ok st ->
  let n := List.length (documents st) in
  let df t := get_default t 0 (term_document_counts st) in
  let count d t := raw_count (nth d (map (tokens_of nltk) pubs) []) t in
  n = List.length pubs
  /\ (forall d vector t w,
        get d (document_vectors st) = Some vector -> get t vector = Some w ->
        1 <= count d t /\ w = tf_idf (count d t) n (df t))
  /\ (forall t ps d w,
        get t (inverted_index st) = Some ps -> In (d, w) ps ->
        1 <= count d t /\ w = tf_idf (count d t) n (df t))
  /\ (forall d t,
        d < List.length pubs -> 1 <= count d t ->
        (exists vector,
            get d (document_vectors st) = Some vector
            /\ get t vector = Some (tf_idf (count d t) n (df t)))
        /\ In (d, tf_idf (count d t) n (df t))
              (get_default t [] (inverted_index st))).
Proof. apply stored_weights. Qed.

End Weights.


Example toy_build_ok : build_index Toy.nltk Toy.corpus init = Ok Toy.index.
Proof. vm_compute. reflexivity. Qed.

(** On the two-document corpus, ["growth"] occurs twice in document 0 and in
    one document, so its stored weight is [(1 + ln 2) * (ln (3 / 2) + 1)]. *)
Lemma build_index_weights_witness :
  build_index Toy.nltk Toy.corpus init = Ok Toy.index
  /\ List.length (documents Toy.index) = 2
  /\ exists vector,
       get 0 (document_vectors Toy.index) = Some vector
       /\ get "growth" vector = Some (tf_idf 2 2 1).
Proof.
  assert (Hb : build_index Toy.nltk Toy.corpus init = Ok Toy.index)
    by (vm_compute; reflexivity).
  split; [exact Hb|].
  destruct (build_index_weights Toy.nltk Toy.corpus Hb) as (Hn & _ & _ & Hstored).
  split; [exact Hn|].
  assert (Hlt : 0 < List.length Toy.corpus) by (simpl; lia).
  assert (Hc : 1 <= raw_count (nth 0 (map (tokens_of Toy.nltk) Toy.corpus) []) "growth")
    by (vm_compute; lia).
  destruct (Hstored 0 "growth" Hlt Hc) as [(vector & Hd & Ht) _].
  exists vector. split; [exact Hd|].
  rewrite Ht. f_equal.
Defined.

(** ** Document frequencies *)

Lemma length_filter_map {A B : Type} (f : A -> B) (p : B -> bool) (l : list A) :
  List.length (filter p (map f l)) = List.length (filter (fun x => p (f x)) l).
Proof.
  induction l as [|x l IH]; simpl; [reflexivity|].
  destruct (p (f x)); simpl; now rewrite IH.
Qed.

Lemma length_filter_enumerate {A : Type} (p : A -> bool) (l : list A) :
  List.length (filter (fun e => p (snd e)) (enumerate l)) = List.length (filter p l).
Proof.
  induction l as [|x l IH] using rev_ind; [reflexivity|].
  rewrite enumerate_app, !filter_app, !length_app, IH. simpl.
  now destruct (p x).
Qed.

Section Frequencies.
Context {F : Type} `{FloatOps F}.
Variable nltk : Nltk.

Lemma mem_map_values {K V W : Type} `{KeyEq K} (f : K -> V -> W) (k : K)
    (d : dict K V) :
  mem k (map_values f d) = mem k d.
Proof. unfold mem. rewrite get_map_values. now destruct (get k d). Qed.

Lemma built_vectors_containing (pubs : list Publication) (st : InvertedIndexer F)
    (t : string) :
  built_state nltk pubs st ->
  vectors_containing t st = doc_frequency (map (tokens_of nltk) pubs) t.
Proof.
  intros Hst. unfold vectors_containing, items. rewrite (bs_vectors Hst).
  unfold map_values at 1. rewrite length_filter_map.
  unfold tf_vectors. rewrite length_filter_map.
  unfold doc_frequency.
  rewrite <- (length_filter_enumerate (str_in t)).
  f_equal. apply filter_ext. intros [i tk]. simpl.
  rewrite mem_map_values. unfold mem. rewrite get_tf_vector_of.
  now destruct (str_in t tk).
Qed.

Lemma built_vector_keys (pubs : list Publication) (st : InvertedIndexer F) :
  built_state nltk pubs st ->
  keys (document_vectors st) = seq 0 (List.length pubs).
Proof.
  intros Hst. rewrite (bs_vectors Hst), keys_map_values, keys_tf_vectors.
  now rewrite length_map.
Qed.

End Frequencies.

(** ** Persistence *)

Section Persistence.
Context {F : Type} `{FloatOps F}.
Variable nltk : Nltk.
Variable blob : Type.
Variable pickle_dumps : Pickled F -> blob.
Variable pickle_loads : blob -> result (Pickled F).

(** [pickle.loads(pickle.dumps(data))] gives back [data]. *)
Hypothesis pickle_round_trip : forall data, pickle_loads (pickle_dumps data) = Ok data.

Lemma load_of_save (filename : string) (st self : InvertedIndexer F)
    (fs : filesystem blob) :
  load_index pickle_loads filename self (save_index pickle_dumps filename st fs)
  = Ok st.
Proof.
  unfold load_index, save_index. rewrite get_set_eq, pickle_round_trip.
  cbn [bind pk_inverted_index pk_term_document_counts pk_document_vectors
       pk_documents].
  now destruct st.
Qed.

(** C8.  Loading the file that [save_index] wrote gives back the saved
    state: the inverted index, the term document counts, the document
    vectors and the document list, every list in the same order.  This
    holds for every state, so for every built state and for the state built
    from the empty corpus, and whatever the indexer that loads held before. *)
Theorem load_save_round_trip (filename : string) (st self : InvertedIndexer F)
    (fs : filesystem blob) :
  load_index pickle_loads filename self (save_index pickle_dumps filename st fs)
  = Ok st.
Proof. apply load_of_save. Qed.

(** C2.  In the index that [build_index] leaves in a new indexer, the
    document ids of the vectors are distinct and, for every term,
    [term_document_counts[t]] is the number of vectors that contain the
    term; the same holds for the state that [load_index] restores from the
    file written by [save_index]. *)
Theorem term_document_counts_exact (pubs : list Publication) (st : InvertedIndexer F) :
  build_index nltk pubs init = Ok st ->
  (NoDup (keys (document_vectors st))
   /\ forall t, get_default t 0 (term_document_counts st) = vectors_containing t st)
  /\ forall filename self fs,
       exists st',
         load_index pickle_loads filename self
                    (save_index pickle_dumps filename st fs) = Ok st'
         /\ NoDup (keys (document_vectors st'))
         /\ forall t,
              get_default t 0 (term_document_counts st') = vectors_containing t st'.
Proof.
  intros Hb. apply build_index_ok_built in Hb.
  assert (Hst : NoDup (keys (document_vectors st))
                /\ forall t, get_default t 0 (term_document_counts st)
                             = vectors_containing t st).
  { split.
    - rewrite (built_vector_keys Hb). apply seq_NoDup.
    - intros t. rewrite (bs_counts Hb). symmetry.
      now apply built_vectors_containing. }
  split; [exact Hst|].
  intros filename self fs. exists st. split; [apply load_of_save | exact Hst].
Qed.

End Persistence.

Example build_empty_corpus (nltk : Nltk) :
  build_index (F:=R) nltk [] init = Ok init.
Proof. reflexivity. Qed.

Lemma load_save_round_trip_witness :
  (forall data, Toy.pickle_loads (Toy.pickle_dumps data) = Ok data)
  /\ load_index Toy.pickle_loads "inverted_index.pkl" init
       (save_index Toy.pickle_dumps "inverted_index.pkl" Toy.index [])
     = Ok Toy.index
  /\ load_index Toy.pickle_loads "inverted_index.pkl" Toy.index
       (save_index Toy.pickle_dumps "inverted_index.pkl" (init (F:=R)) [])
     = Ok init.
Proof.
  assert (Hp : forall data, Toy.pickle_loads (Toy.pickle_dumps data) = Ok data)
    by reflexivity.
  split; [exact Hp|]. split.
  - exact (load_save_round_trip Toy.pickle_dumps Toy.pickle_loads Hp
             "inverted_index.pkl" Toy.index init []).
  - exact (load_save_round_trip Toy.pickle_dumps Toy.pickle_loads Hp
             "inverted_index.pkl" init Toy.index []).
Defined.

Lemma term_document_counts_exact_witness :
  (forall data, Toy.pickle_loads (Toy.pickle_dumps data) = Ok data)
  /\ build_index Toy.nltk Toy.corpus init = Ok Toy.index
  /\ get_default "model" 0 (term_document_counts Toy.index) = 1
  /\ vectors_containing "model" Toy.index = 1.
Proof.
  assert (Hp : forall data, Toy.pickle_loads (Toy.pickle_dumps data) = Ok data)
    by reflexivity.
  assert (Hb : build_index Toy.nltk Toy.corpus init = Ok Toy.index)
    by (vm_compute; reflexivity).
  split; [exact Hp|]. split; [exact Hb|].
  destruct (term_document_counts_exact Toy.nltk Toy.pickle_dumps Toy.pickle_loads
              Hp Toy.corpus Hb) as [[_ Hcount] _].
  assert (H1 : get_default "model" 0 (term_document_counts Toy.index) = 1)
    by (vm_compute; reflexivity).
  split; [exact H1|]. rewrite <- (Hcount "model"). exact H1.
Defined.

(** ** Partial records *)

Section PartialRecords.
Context {F : Type} `{FloatOps F}.
Variable nltk : Nltk.

(** C7, as the code has it.  [build_index] on a new indexer succeeds exactly
    when every author object of every publication has a ['name']; a missing
    ['title'], ['url'], ['date'], ['abstract'] or ['authors'] never makes it
    fail.  When it succeeds, the stored document at position [i] is made
    from the publication at position [i]: its id is [i], a missing string
    field is the empty string and missing authors are the empty list.  An
    author object without a ['name'] makes it raise [KeyError]. *)
Theorem build_index_partial_records (pubs : list Publication) :
  (Forall authors_named pubs ->
   exists st,
     build_index nltk pubs (init (F:=F)) = Ok st
     /\ documents st = map (fun '(i, pub) => document_of i pub) (enumerate pubs)
     /\ forall i pub, nth_error pubs i = Some pub ->
          nth_error (documents st) i
          = Some {| d_id := i;
                    d_title := pub_get (p_title pub) EmptyString;
                    d_url := pub_get (p_url pub) EmptyString;
                    d_date := pub_get (p_date pub) EmptyString;
                    d_authors := pub_get (p_authors pub) [];
                    d_abstract := pub_get (p_abstract pub) EmptyString |})
  /\ (~ Forall authors_named pubs ->
      build_index nltk pubs (init (F:=F)) = Raise KeyError).
Proof.
  split.
  - intros Hall. destruct (build_index_built (F:=F) nltk Hall) as (st & Hb & Hst).
    exists st. split; [exact Hb|]. split; [exact (bs_documents Hst)|].
    intros i pub Hi. rewrite (bs_documents Hst). unfold documents_from.
    change (combine (seq 0 (List.length pubs)) pubs) with (enumerate pubs).
    assert (Hin : nth_error (enumerate pubs) i = Some (i, pub)).
    { clear -Hi. revert i Hi. induction pubs as [|p pubs IH] using rev_ind; intros i Hi.
      - destruct i; discriminate.
      - rewrite enumerate_app.
        destruct (Nat.lt_ge_cases i (List.length pubs)) as [Hlt|Hge].
        + rewrite nth_error_app1 in Hi by exact Hlt.
          rewrite nth_error_app1; [now apply IH|].
          unfold enumerate. rewrite length_combine, length_seq. lia.
        + assert (Hlen : List.length (enumerate pubs) = List.length pubs).
          { unfold enumerate. rewrite length_combine, length_seq. lia. }
          rewrite nth_error_app2 in Hi by exact Hge.
          rewrite nth_error_app2 by lia. rewrite Hlen.
          destruct (i - List.length pubs) as [|k] eqn:Hk; simpl in *.
          * injection Hi as ->. f_equal. f_equal. lia.
          * destruct k; discriminate. }
    now rewrite (map_nth_error _ _ _ Hin).
  - apply build_index_raise.
Qed.

End PartialRecords.

Lemma build_index_partial_records_witness :
  Forall authors_named (Toy.bare :: Toy.corpus)
  /\ exists st,
       build_index (F:=R) Toy.nltk (Toy.bare :: Toy.corpus) init = Ok st
       /\ nth_error (documents st) 0
          = Some {| d_id := 0; d_title := EmptyString; d_url := EmptyString;
                    d_date := EmptyString; d_authors := [];
                    d_abstract := EmptyString |}.
Proof.
  assert (Hall : Forall authors_named (Toy.bare :: Toy.corpus)).
  { repeat constructor; simpl; discriminate. }
  split; [exact Hall|].
  destruct (proj1 (build_index_partial_records (F:=R) Toy.nltk (Toy.bare :: Toy.corpus)) Hall)
    as (st & Hb & _ & Hdoc).
  exists st. split; [exact Hb|].
  exact (Hdoc 0 Toy.bare eq_refl).
Defined.

(** C7, as stated, fails: a record whose author object has no ['name'] makes
    [build_index] raise, although the input is a list of records. *)
Lemma build_index_nameless_author :
  build_index (F:=R) Toy.nltk [Toy.nameless] init = Raise KeyError.
Proof. vm_compute. reflexivity. Qed.

(** ** Queries without terms, and queries on a new indexer *)

Section EmptyQueries.
Context {F : Type} `{FloatOps F}.
Variable nltk : Nltk.

Lemma preprocess_text_nil (text : string) :
  preprocess_text nltk text = []
  <-> forall token, In token (word_tokenize nltk (lower nltk text)) ->
        isalnum nltk token = false \/ In token (stop_words nltk).
Proof.
  unfold preprocess_text. split.
  - intros Hnil token Hin.
    destruct (isalnum nltk token) eqn:Ha; [|now left].
    destruct (str_in token (stop_words nltk)) eqn:Hs.
    + right. now apply str_in_In.
    + exfalso. apply map_eq_nil in Hnil.
      assert (Hf : In token
                 (filter (fun t => negb (str_in t (stop_words nltk)))
                    (filter (isalnum nltk) (word_tokenize nltk (lower nltk text))))).
      { apply filter_In. split; [apply filter_In; tauto | now rewrite Hs]. }
      rewrite Hnil in Hf. destruct Hf.
  - intros Hall.
    destruct (filter _ (filter _ _)) as [|token rest] eqn:Hf; [reflexivity|].
    exfalso.
    assert (Hin : In token (token :: rest)) by now left.
    rewrite <- Hf in Hin. apply filter_In in Hin as [Hin Hs].
    apply filter_In in Hin as [Hin Ha].
    destruct (Hall _ Hin) as [Hna|Hstop]; [congruence|].
    apply str_in_In in Hstop. rewrite Hstop in Hs. discriminate.
Qed.

Lemma rank_documents_nil_terms (self : InvertedIndexer F) (query : string)
    (top_n : option Z) :
  preprocess_text nltk query = [] ->
  rank_documents nltk self query top_n = Ok [].
Proof.
  intros Hnil. unfold rank_documents. now rewrite Hnil.
Qed.

(** C4.  When the normalization of the query yields no terms,
    [rank_documents] returns the empty list, for every state of the indexer
    and every [top_n]: it returns before it looks at the index, so also on
    a state on which scoring would raise. *)
Theorem rank_documents_no_terms (self : InvertedIndexer F) (query : string)
    (top_n : option Z) :
  preprocess_text nltk query = [] ->
  rank_documents nltk self query top_n = Ok [].
Proof. apply rank_documents_nil_terms. Qed.

(** C6, as the code has it.  On the state that [__init__] creates, before any
    build or load, [rank_documents] raises nothing: it returns the empty
    list for every query and every [top_n]. *)
Theorem rank_documents_uninitialized (query : string) (top_n : option Z) :
  rank_documents nltk (init (F:=F)) query top_n = Ok [].
Proof.
  unfold rank_documents.
  destruct (preprocess_text nltk query) as [|term terms]; [reflexivity|].
  cbn [similarities init document_vectors items map sorted_by_score fold_right
       map_result bind].
  destruct top_n as [n|]; [|reflexivity].
  destruct (n =? 0)%Z; [reflexivity|].
  unfold slice_to. destruct (0 <=? n)%Z; now rewrite firstn_nil.
Qed.

End EmptyQueries.

Lemma rank_documents_no_terms_witness :
  preprocess_text Toy.nltk EmptyString = []
  /\ rank_documents Toy.nltk Toy.index EmptyString None = Ok []
  /\ rank_documents Toy.nltk Toy.index "    " (Some 5%Z) = Ok []
  /\ rank_documents Toy.nltk Toy.index "The and of THE" None = Ok [].
Proof.
  assert (H0 : preprocess_text Toy.nltk EmptyString = []) by reflexivity.
  split; [exact H0|]. split; [|split].
  - exact (rank_documents_no_terms Toy.nltk Toy.index EmptyString None H0).
  - apply (rank_documents_no_terms Toy.nltk Toy.index "    " (Some 5%Z)). reflexivity.
  - apply (rank_documents_no_terms Toy.nltk Toy.index "The and of THE" None).
    reflexivity.
Defined.

(** C6, as stated, fails: a query on an indexer that was never built or
    loaded is answered with the empty list, and no exception is raised. *)
Lemma rank_documents_uninitialized_no_error :
  rank_documents Toy.nltk (init (F:=R)) "growth" None = Ok []
  /\ preprocess_text Toy.nltk "growth" = ["growth"].
Proof. split; reflexivity. Qed.

(** ** The ranking *)

Section Ranking.
Context {F : Type} `{FloatOps F}.
Variable nltk : Nltk.

Lemma map_result_Forall2 {A B : Type} (f : A -> result B) (R : B -> A -> Prop)
    (l : list A) :
  (forall x, In x l -> exists y, f x = Ok y /\ R y x) ->
  exists ys, map_result f l = Ok ys /\ Forall2 R ys l.
Proof.
  induction l as [|x l IH]; intros Hf; simpl.
  - exists []. split; [reflexivity | constructor].
  - destruct (Hf x (or_introl eq_refl)) as (y & Hy & HR). rewrite Hy. simpl.
    destruct IH as (ys & Hys & HF); [intros z Hz; apply Hf; now right|].
    rewrite Hys. simpl. exists (y :: ys). split; [reflexivity | now constructor].
Qed.

Lemma insert_by_score_perm (x : nat * F) (l : list (nat * F)) :
  Permutation (insert_by_score x l) (x :: l).
Proof.
  induction l as [|y l IH]; simpl; [reflexivity|].
  destruct (flt (snd x) (snd y)); [|reflexivity].
  rewrite IH. apply perm_swap.
Qed.

Lemma sorted_by_score_perm (l : list (nat * F)) :
  Permutation (sorted_by_score l) l.
Proof.
  induction l as [|x l IH]; simpl; [reflexivity|].
  rewrite insert_by_score_perm. now constructor.
Qed.

Lemma keys_similarities (self : InvertedIndexer F) (terms : list string) :
  map fst (similarities self terms) = keys (document_vectors self).
Proof.
  unfold similarities, items, keys. rewrite map_map. apply map_ext. now intros [d v].
Qed.

Lemma In_similarities (self : InvertedIndexer F) (terms : list string) d s :
  In (d, s) (similarities self terms) ->
  exists vector,
    In (d, vector) (document_vectors self)
    /\ s = calculate_cosine_similarity (calculate_query_vector self terms) vector.
Proof.
  unfold similarities, items. rewrite in_map_iff.
  intros ([d0 v] & [= -> <-] & Hin). now exists v.
Qed.

Lemma built_documents_nth (pubs : list Publication) (st : InvertedIndexer F) (d : nat) :
  built_state nltk pubs st -> d < List.length pubs ->
  exists doc, nth_error (documents st) d = Some doc /\ d_id doc = d.
Proof.
  intros Hst Hlt. rewrite (bs_documents Hst). unfold documents_from.
  destruct (nth_error pubs d) as [pub|] eqn:Hp.
  - exists (document_of d pub). split; [|reflexivity].
    assert (Hin : nth_error (combine (seq 0 (List.length pubs)) pubs) d = Some (d, pub)).
    { clear -Hp. change (Some (d, pub)) with (Some (0 + d, pub)).
      revert d Hp. generalize 0.
      induction pubs as [|p pubs IH]; intros k d Hp; [destruct d; discriminate|].
      destruct d as [|d]; simpl in *.
      - injection Hp as ->. f_equal. f_equal. lia.
      - rewrite (IH (S k) d Hp). f_equal. f_equal. lia. }
    now rewrite (map_nth_error _ _ _ Hin).
  - apply nth_error_None in Hp. lia.
Qed.

Lemma truncate_map {A B : Type} (f : A -> B) (top_n : option Z) (l : list A) :
  truncate top_n (map f l) = map f (truncate top_n l).
Proof.
  unfold truncate, slice_to. destruct top_n as [n|]; [|reflexivity].
  destruct (n =? 0)%Z; [reflexivity|].
  rewrite length_map. destruct (0 <=? n)%Z; now rewrite firstn_map.
Qed.

Lemma truncate_firstn {A : Type} (top_n : option Z) (l : list A) :
  exists k, truncate top_n l = firstn k l.
Proof.
  unfold truncate, slice_to. destruct top_n as [n|].
  - destruct (n =? 0)%Z; [exists (List.length l); now rewrite firstn_all|].
    destruct (0 <=? n)%Z; eexists; reflexivity.
  - exists (List.length l). now rewrite firstn_all.
Qed.


Lemma rank_documents_built (pubs : list Publication) (st : InvertedIndexer F)
    (query : string) (top_n : option Z) :
  built_state nltk pubs st ->
  preprocess_text nltk query <> [] ->
  exists results,
    map_result (result_entry st) (ranked_docs st (preprocess_text nltk query))
    = Ok results
    /\ Forall2 (result_of st) results (ranked_docs st (preprocess_text nltk query))
    /\ rank_documents nltk st query top_n = Ok (truncate top_n results).
Proof.
  intros Hst Hterms.
  destruct (@map_result_Forall2 _ _ (result_entry st) (result_of st)
              (ranked_docs st (preprocess_text nltk query))) as (results & Hres & HF).
  { intros [d s] Hin. unfold ranked_docs in Hin.
    apply (Permutation_in _ (sorted_by_score_perm _)) in Hin.
    apply (in_map fst) in Hin. rewrite keys_similarities in Hin.
    rewrite (built_vector_keys Hst), in_seq in Hin. simpl in Hin.
    destruct (built_documents_nth Hst (proj2 Hin)) as (doc & Hdoc & Hid).
    unfold result_entry. rewrite Hdoc. eexists. split; [reflexivity|].
    repeat split; simpl; auto. }
  exists results. split; [exact Hres|]. split; [exact HF|].
  unfold rank_documents.
  destruct (preprocess_text nltk query) as [|term terms] eqn:Hq; [congruence|].
  fold (ranked_docs st (term :: terms)). rewrite Hres. cbn [bind].
  unfold truncate. destruct top_n as [n|]; [|reflexivity].
  now destruct (n =? 0)%Z.
Qed.

End Ranking.

Lemma truncate_kept {A : Type} (top_n : option Z) (l : list A) :
  truncate top_n l = firstn (kept top_n (List.length l)) l.
Proof.
  unfold truncate, kept, slice_to. destruct top_n as [n|].
  - destruct (n =? 0)%Z; [now rewrite firstn_all|].
    destruct (0 <=? n)%Z; [|reflexivity].
    destruct (Nat.le_ge_cases (Z.to_nat n) (List.length l)) as [Hle|Hge].
    + now rewrite Nat.min_l.
    + rewrite Nat.min_r by exact Hge. now rewrite firstn_all, firstn_all2.
  - now rewrite firstn_all.
Qed.

Lemma length_truncate {A : Type} (top_n : option Z) (l : list A) :
  List.length (truncate top_n l) = kept top_n (List.length l).
Proof.
  rewrite truncate_kept, length_firstn. apply Nat.min_l.
  unfold kept. destruct top_n as [n|]; [|lia].
  destruct (n =? 0)%Z; [lia|]. destruct (0 <=? n)%Z; lia.
Qed.

Lemma In_firstn {A : Type} (k : nat) (l : list A) (x : A) :
  In x (firstn k l) -> In x l.
Proof.
  revert k. induction l as [|y l IH]; intros [|k]; simpl; try tauto.
  intros [He|Hi]; [now left | right; eauto].
Qed.

Lemma StronglySorted_firstn {A : Type} (R : A -> A -> Prop) (k : nat) (l : list A) :
  StronglySorted R l -> StronglySorted R (firstn k l).
Proof.
  intros HS. revert k. induction HS as [|x l HS IH HF]; intros [|k]; simpl;
    try constructor.
  - apply IH.
  - rewrite Forall_forall in *. intros y Hy. apply HF.
    eapply In_firstn; eauto.
Qed.

Lemma StronglySorted_seq (start len : nat) : StronglySorted lt (seq start len).
Proof.
  revert start. induction len as [|len IH]; intros start; simpl; constructor.
  - apply IH.
  - apply Forall_forall. intros y Hy. apply in_seq in Hy. lia.
Qed.

(** ** The order of the ranking, with real scores *)

Section RealRanking.
Variable nltk : Nltk.

Lemma flt_true (x y : R) : flt x y = true <-> (x < y)%R.
Proof. simpl. destruct (Rlt_dec x y); split; intros; try assumption; try reflexivity; try discriminate; contradiction. Qed.

Lemma flt_false (x y : R) : flt x y = false <-> (y <= x)%R.
Proof.
  simpl. destruct (Rlt_dec x y); split; intros; try reflexivity; try discriminate; lra.
Qed.

Lemma insert_by_score_sorted (x : nat * R) (l : list (nat * R)) :
  StronglySorted ranks_before l ->
  Forall (fun z => fst x < fst z) l ->
  StronglySorted ranks_before (insert_by_score x l).
Proof.
  intros HS. induction HS as [|y l HS IH HF]; intros Hid; cbn [insert_by_score].
  - repeat constructor.
  - inversion Hid as [|? ? Hy Hid']; subst.
    destruct (flt (snd x) (snd y)) eqn:Hlt.
    + apply flt_true in Hlt. constructor; [now apply IH|].
      apply (Permutation_Forall (Permutation_sym (insert_by_score_perm x l))).
      constructor; [now left | exact HF].
    + apply flt_false in Hlt. constructor; [now constructor|].
      assert (Hxy : ranks_before x y).
      { destruct (Rle_lt_or_eq_dec _ _ Hlt) as [Hl|He]; [now left | right; split; auto]. }
      constructor; [exact Hxy|].
      rewrite Forall_forall in *. intros z Hz.
      specialize (HF z Hz). specialize (Hid' z Hz).
      unfold ranks_before in *.
      destruct HF as [Hzy|[Hzy _]]; [left; lra|].
      destruct Hxy as [Hxy|[Hxy _]]; [left; lra | right; split; [congruence | exact Hid']].
Qed.

Lemma sorted_by_score_sorted (l : list (nat * R)) :
  StronglySorted lt (map fst l) ->
  StronglySorted ranks_before (sorted_by_score l).
Proof.
  induction l as [|x l IH]; simpl; intros HS; [constructor|].
  inversion HS as [|? ? HS' HF]; subst.
  apply insert_by_score_sorted; [now apply IH|].
  apply (Permutation_Forall (Permutation_sym (sorted_by_score_perm l))).
  rewrite Forall_forall in *. intros z Hz. apply HF. now apply in_map.
Qed.

Lemma sorted_by_score_ties (l : list (nat * R)) (s : R) :
  Forall (fun e => snd e = s) l -> sorted_by_score l = l.
Proof.
  induction 1 as [|x l Hx HF IH]; simpl; [reflexivity|].
  rewrite IH. destruct l as [|y l]; [reflexivity|]. cbn [insert_by_score].
  inversion HF as [|? ? Hy _]; subst.
  replace (flt (snd x) (snd y)) with false; [reflexivity|].
  symmetry. apply flt_false. lra.
Qed.

End RealRanking.

(** ** Rounding to four decimals *)

Lemma round_half_even_cases (y : R) :
  (round_half_even y = Int_part y
   \/ (round_half_even y = (Int_part y + 1)%Z /\ (1 / 2 <= frac_part y)%R)).
Proof.
  unfold round_half_even.
  destruct (Rlt_dec (frac_part y) (1 / 2)) as [Hlt|Hge]; [now left|].
  assert (Hhalf : (1 / 2 <= frac_part y)%R) by lra.
  destruct (Rlt_dec (1 / 2) (frac_part y)); [now right|].
  destruct (Z.even (Int_part y)); [now left | now right].
Qed.

Lemma round4_unit_interval (x : R) :
  (0 <= x <= 1)%R -> (0 <= round4 x <= 1)%R.
Proof.
  intros [H0 H1]. unfold round4.
  set (y := (x * 10000)%R).
  assert (Hy : (0 <= y <= 10000)%R) by (unfold y; lra).
  pose proof (base_Int_part y) as [Hlo Hhi].
  pose proof (Rplus_Int_part_frac_part y) as Hsplit.
  assert (Hn0 : (0 <= Int_part y)%Z).
  { apply Z.lt_succ_r. apply lt_IZR. rewrite succ_IZR. lra. }
  assert (Hn1 : (Int_part y <= 10000)%Z).
  { apply le_IZR. lra. }
  assert (Hz : (0 <= round_half_even y <= 10000)%Z).
  { destruct (round_half_even_cases y) as [->|[-> Hhalf]]; [lia|].
    split; [lia|].
    assert (Hlt : (Int_part y < 10000)%Z) by (apply lt_IZR; lra).
    lia. }
  destruct Hz as [Hz0 Hz1]. apply IZR_le in Hz0, Hz1.
  split.
  - apply Rmult_le_reg_r with 10000%R; [lra|].
    unfold Rdiv. rewrite Rmult_assoc, Rinv_l by lra. lra.
  - apply Rmult_le_reg_r with 10000%R; [lra|].
    unfold Rdiv. rewrite Rmult_assoc, Rinv_l by lra. lra.
Qed.


(** ** The query vector *)

Section QueryVector.
Context {F : Type} `{FloatOps F}.

Lemma keys_set_In {K V : Type} `{KeyEq K} (t k : K) (v : V) (d : dict K V) :
  In t (keys (set k v d)) -> t = k \/ In t (keys d).
Proof.
  induction d as [|[k0 v0] d IH]; simpl.
  - intros [He|[]]. now left.
  - destruct (keqb_spec k k0) as [->|Hne]; simpl.
    + tauto.
    + intros [He|Hi]; [tauto|]. destruct (IH Hi); tauto.
Qed.

Lemma keys_fold_set {V : Type} (val : dict string V -> string -> V)
    (terms : list string) (acc : dict string V) (t : string) :
  In t (keys (fold_left (fun qv term => set term (val qv term) qv) terms acc)) ->
  In t (keys acc) \/ In t terms.
Proof.
  revert acc. induction terms as [|term terms IH]; intros acc; simpl; [tauto|].
  intros Hin. destruct (IH _ Hin) as [Hk|Ht]; [|tauto].
  apply keys_set_In in Hk. destruct Hk; [subst|]; tauto.
Qed.

Lemma NoDup_keys_fold_set {V : Type} (val : dict string V -> string -> V)
    (terms : list string) (acc : dict string V) :
  NoDup (keys acc) ->
  NoDup (keys (fold_left (fun qv term => set term (val qv term) qv) terms acc)).
Proof.
  revert acc. induction terms as [|term terms IH]; intros acc Hnd; simpl; [exact Hnd|].
  apply IH. now apply NoDup_keys_set.
Qed.

Lemma keys_query_vector (self : InvertedIndexer F) (terms : list string) (t : string) :
  In t (keys (calculate_query_vector self terms)) -> In t terms.
Proof.
  unfold calculate_query_vector. intros Hin.
  apply (keys_fold_set
           (fun qv term =>
              fmul (get_default term f0 qv)
                   (compute_inverse_document_frequency self term))) in Hin.
  assert (Hc : In t (keys (fold_left
                 (fun qv term => set term (fadd (get_default term f0 qv) f1) qv)
                 terms [])) -> In t terms).
  { intros Hk.
    apply (keys_fold_set (fun qv term => fadd (get_default term f0 qv) f1)) in Hk.
    destruct Hk as [[]|Hk]; exact Hk. }
  destruct Hin; auto.
Qed.

Lemma NoDup_keys_query_vector (self : InvertedIndexer F) (terms : list string) :
  NoDup (keys (calculate_query_vector self terms)).
Proof.
  unfold calculate_query_vector.
  apply (NoDup_keys_fold_set
           (fun qv term =>
              fmul (get_default term f0 qv)
                   (compute_inverse_document_frequency self term))).
  apply (NoDup_keys_fold_set (fun qv term => fadd (get_default term f0 qv) f1)).
  constructor.
Qed.

Lemma filter_none {A : Type} (p : A -> bool) (l : list A) :
  (forall x, In x l -> p x = false) -> filter p l = [].
Proof.
  induction l as [|x l IH]; simpl; intros Hp; [reflexivity|].
  rewrite (Hp x (or_introl eq_refl)). apply IH. intros y Hy. apply Hp. now right.
Qed.

Lemma no_common_terms (self : InvertedIndexer F) (terms : list string)
    (vector : dict string F) :
  (forall t, In t terms -> get t vector = None) ->
  calculate_cosine_similarity (calculate_query_vector self terms) vector = f0.
Proof.
  intros Hnone. unfold calculate_cosine_similarity, common_terms.
  rewrite filter_none; [reflexivity|].
  intros t Ht. apply keys_query_vector in Ht. unfold mem. now rewrite (Hnone t Ht).
Qed.

End QueryVector.

(** ** The order of the results *)

Section SortedRanking.
Variable nltk : Nltk.

Lemma result_of_id_and_score (st : InvertedIndexer R) (results : list (Ranked R))
    (scores : list (nat * R)) :
  Forall2 (result_of st) results scores ->
  map id_and_score results = map (fun e => (fst e, round4 (snd e))) scores.
Proof.
  induction 1 as [|r e results scores (_ & Hid & Hs) _ IH]; simpl; [reflexivity|].
  rewrite IH. unfold id_and_score. now rewrite Hid, Hs.
Qed.

Lemma ranked_docs_sorted (pubs : list Publication) (st : InvertedIndexer R)
    (terms : list string) :
  built_state nltk pubs st ->
  StronglySorted ranks_before (ranked_docs st terms)
  /\ Permutation (map fst (ranked_docs st terms)) (seq 0 (List.length pubs)).
Proof.
  intros Hst. unfold ranked_docs. split.
  - apply sorted_by_score_sorted.
    rewrite keys_similarities, (built_vector_keys Hst). apply StronglySorted_seq.
  - rewrite (Permutation_map fst (sorted_by_score_perm _)).
    now rewrite keys_similarities, (built_vector_keys Hst).
Qed.

Lemma ranked_docs_scores (pubs : list Publication) (st : InvertedIndexer R)
    (terms : list string) (d : nat) (s : R) :
  built_state nltk pubs st ->
  In (d, s) (ranked_docs st terms) ->
  exists vector,
    get d (document_vectors st) = Some vector
    /\ s = calculate_cosine_similarity (calculate_query_vector st terms) vector.
Proof.
  intros Hst Hin. unfold ranked_docs in Hin.
  apply (Permutation_in _ (sorted_by_score_perm _)) in Hin.
  apply In_similarities in Hin as (vector & Hv & Hs).
  exists vector. split; [|exact Hs].
  apply In_get_Some; [|exact Hv].
  rewrite (built_vector_keys Hst). apply seq_NoDup.
Qed.

Lemma ranked_docs_no_match (pubs : list Publication) (st : InvertedIndexer R)
    (terms : list string) :
  built_state nltk pubs st ->
  (forall t, In t terms ->
     forall d vector, get d (document_vectors st) = Some vector -> get t vector = None) ->
  ranked_docs st terms = map (fun d => (d, 0%R)) (seq 0 (List.length pubs)).
Proof.
  intros Hst Hnone.
  assert (Hsim : similarities st terms = map (fun d => (d, 0%R)) (keys (document_vectors st))).
  { unfold similarities, items, keys. rewrite map_map. apply map_ext_in.
    intros [d vector] Hin. simpl. f_equal.
    apply (@no_common_terms R R_ops). intros t Ht. apply (Hnone t Ht d).
    apply In_get_Some; [|exact Hin].
    rewrite (built_vector_keys Hst). apply seq_NoDup. }
  unfold ranked_docs. rewrite Hsim, (built_vector_keys Hst).
  apply sorted_by_score_ties with 0%R.
  apply Forall_forall. intros e He. apply in_map_iff in He as (d & <- & _). reflexivity.
Qed.

End SortedRanking.

(** ** The order of the results, for every kind of float *)

Section OrderedRanking.
Context {F : Type} `{FloatOps F}.
Variable nltk : Nltk.









End OrderedRanking.



(** ** Truncation to [top_n] *)

Section TopN.
Context {F : Type} `{FloatOps F}.
Variable nltk : Nltk.

(** The full ranking of a built index has one result per document, and
    [top_n] keeps [kept top_n] of them from the front. *)
Lemma rank_documents_top_n (pubs : list Publication) (st : InvertedIndexer F)
    (query : string) (top_n : option Z) :
  build_index nltk pubs init = Ok st ->
  preprocess_text nltk query <> [] ->
  exists full,
    rank_documents nltk st query None = Ok full
    /\ List.length full = List.length pubs
    /\ rank_documents nltk st query top_n
       = Ok (firstn (kept top_n (List.length pubs)) full).
Proof.
  intros Hb Hne. apply build_index_ok_built in Hb.
  destruct (rank_documents_built query None Hb Hne) as (full & Hres & HF & Hfull).
  destruct (rank_documents_built query top_n Hb Hne) as (full' & Hres' & _ & Hcut).
  assert (full' = full) by congruence. subst full'.
  assert (Hlen : List.length full = List.length pubs).
  { rewrite (Forall2_length HF). unfold ranked_docs.
    rewrite (Permutation_length (sorted_by_score_perm _)).
    rewrite <- (length_map fst), keys_similarities, (built_vector_keys Hb).
    apply length_seq. }
  exists full. split; [exact Hfull|]. split; [exact Hlen|].
  now rewrite Hcut, truncate_kept, Hlen.
Qed.

(** For an absent [top_n], for 0 and for a positive [top_n], the number of
    results kept is the one C5 states. *)
Lemma kept_non_negative (top_n : option Z) (len : nat) :
  match top_n with
  | None => kept top_n len = len
  | Some n => (0 <= n)%Z ->
      kept top_n len = if (n =? 0)%Z then len else Nat.min (Z.to_nat n) len
  end.
Proof.
  destruct top_n as [n|]; [|reflexivity]. intros Hn. unfold kept.
  destruct (n =? 0)%Z; [reflexivity|].
  destruct (Z.leb_spec 0 n); [reflexivity | lia].
Qed.

End TopN.

(** C5 at a negative [top_n].  On the index of the two-document corpus the
    query ["growth"] with [top_n = -1] gives one result, the first of the
    two results of the full ranking: [results[:-1]] drops the last one. *)
Theorem rank_documents_negative_top_n :
  exists full cut,
    rank_documents Toy.nltk Toy.index "growth" None = Ok full
    /\ List.length full = 2
    /\ rank_documents Toy.nltk Toy.index "growth" (Some (-1)%Z) = Ok cut
    /\ cut = firstn 1 full
    /\ List.length cut = 1.
Proof.
  assert (Hb : build_index Toy.nltk Toy.corpus init = Ok Toy.index)
    by (vm_compute; reflexivity).
  assert (Hne : preprocess_text Toy.nltk "growth" <> []) by (vm_compute; discriminate).
  destruct (rank_documents_top_n Toy.nltk Toy.corpus "growth" (Some (-1)%Z) Hb Hne)
    as (full & Hfull & Hlen & Hcut).
  exists full, (firstn 1 full). split; [exact Hfull|]. split; [exact Hlen|].
  split; [exact Hcut|]. split; [reflexivity|].
  rewrite length_firstn, Hlen. reflexivity.
Qed.

(** ** Sums of reals and the Cauchy-Schwarz inequality *)

Section RealSums.
Local Open Scope R_scope.

Lemma fold_left_Rplus (xs : list R) (a : R) :
  fold_left Rplus xs a = a + Rsum xs.
Proof.
  revert a. induction xs as [|x xs IH]; intros a; simpl; [lra|].
  rewrite IH. lra.
Qed.

Lemma py_sum_Rsum (xs : list R) : py_sum xs = Rsum xs.
Proof. unfold py_sum. simpl. rewrite fold_left_Rplus. lra. Qed.

Lemma Rsum_nonneg (xs : list R) : Forall (fun x => 0 <= x) xs -> 0 <= Rsum xs.
Proof. induction 1; simpl; lra. Qed.

Lemma Rsum_app (xs ys : list R) : Rsum (xs ++ ys) = Rsum xs + Rsum ys.
Proof. induction xs as [|x xs IH]; simpl; [lra | rewrite IH; lra]. Qed.

(** A sum over distinct elements of a list is at most the sum over the list,
    when the summands are not negative. *)
Lemma Rsum_sublist {A : Type} (g : A -> R) (l m : list A) :
  (forall x, 0 <= g x) -> NoDup l -> incl l m ->
  Rsum (map g l) <= Rsum (map g m).
Proof.
  intros Hg Hnd. revert m. induction Hnd as [|x l Hx Hnd IH]; intros m Hincl; simpl.
  - apply Rsum_nonneg. apply Forall_forall. intros y Hy.
    apply in_map_iff in Hy as (z & <- & _). apply Hg.
  - assert (Hin : In x m) by (apply Hincl; now left).
    apply in_split in Hin as (m1 & m2 & ->).
    rewrite map_app, Rsum_app. simpl.
    assert (Hle : Rsum (map g l) <= Rsum (map g (m1 ++ m2))).
    { apply IH. intros y Hy.
      assert (Hy' : In y (m1 ++ x :: m2)) by (apply Hincl; now right).
      apply in_app_or in Hy'. apply in_or_app.
      destruct Hy' as [H1|[He|H2]]; [now left | subst; contradiction | now right]. }
    rewrite map_app, Rsum_app in Hle. lra.
Qed.

(** The sum of [(a*k - b)^2] is a polynomial in [k]. *)
Lemma Rsum_square_poly (l : list (R * R)) (k : R) :
  Rsum (map (fun p => (fst p * k - snd p) * (fst p * k - snd p)) l)
  = Rsum (map (fun p => fst p * fst p) l) * (k * k)
    - 2 * Rsum (map (fun p => fst p * snd p) l) * k
    + Rsum (map (fun p => snd p * snd p) l).
Proof. induction l as [|[a b] l IH]; simpl; [lra | rewrite IH; lra]. Qed.

Lemma Rsum_squares_nonneg {A : Type} (g : A -> R) (l : list A) :
  0 <= Rsum (map (fun x => g x * g x) l).
Proof.
  apply Rsum_nonneg. apply Forall_forall. intros y Hy.
  apply in_map_iff in Hy as (z & <- & _). nra.
Qed.

Lemma cauchy_schwarz (l : list (R * R)) :
  let S := Rsum (map (fun p => fst p * snd p) l) in
  let A := Rsum (map (fun p => fst p * fst p) l) in
  let B := Rsum (map (fun p => snd p * snd p) l) in
  S * S <= A * B.
Proof.
  intros S A B.
  assert (HA : 0 <= A) by apply (Rsum_squares_nonneg fst).
  assert (HB : 0 <= B) by apply (Rsum_squares_nonneg snd).
  assert (Hpoly : forall k, 0 <= A * (k * k) - 2 * S * k + B).
  { intros k. unfold A, S, B. rewrite <- Rsum_square_poly.
    apply (Rsum_squares_nonneg (fun p => fst p * k - snd p)). }
  destruct (Req_dec_T A 0) as [HA0|HA0].
  - rewrite HA0 in *. rewrite Rmult_0_l.
    destruct (Req_dec_T S 0) as [HS0|HS0]; [rewrite HS0; lra|].
    exfalso. specialize (Hpoly ((B + 1) / (2 * S))).
    rewrite Rmult_0_l in Hpoly.
    replace (2 * S * ((B + 1) / (2 * S))) with (B + 1) in Hpoly by (field; exact HS0).
    lra.
  - assert (HApos : 0 < A) by lra.
    specialize (Hpoly (S / A)).
    replace (A * (S / A * (S / A)) - 2 * S * (S / A) + B)
      with ((A * B - S * S) / A) in Hpoly by (field; exact HA0).
    assert (H0 : 0 <= (A * B - S * S) / A * A) by (apply Rmult_le_pos; lra).
    replace ((A * B - S * S) / A * A) with (A * B - S * S) in H0 by (field; exact HA0).
    lra.
Qed.

Lemma ln_nonneg (x : R) : 1 <= x -> 0 <= ln x.
Proof.
  intros Hx. destruct (Rle_lt_or_eq_dec _ _ Hx) as [Hlt|<-].
  - rewrite <- ln_1. left. apply ln_increasing; lra.
  - rewrite ln_1. lra.
Qed.

Lemma tf_ge_1 (count : nat) : (1 <= count)%nat -> 1 <= tf (F:=R) count.
Proof.
  intros Hc. unfold tf. simpl.
  assert (H1 : 1 <= INR count).
  { change 1 with (INR 1). now apply le_INR. }
  pose proof (ln_nonneg H1). lra.
Qed.

Lemma idf_ge_1 (n df : nat) : (df <= n)%nat -> 1 <= idf (F:=R) n df.
Proof.
  intros Hdf. unfold idf. simpl.
  assert (Hd : 0 < INR (df + 1)) by (apply lt_0_INR; lia).
  assert (Hn : INR (df + 1) <= INR (n + 1)) by (apply le_INR; lia).
  assert (H1 : 1 <= INR (n + 1) / INR (df + 1)).
  { apply Rmult_le_reg_r with (INR (df + 1)); [exact Hd|].
    unfold Rdiv. rewrite Rmult_assoc, Rinv_l by lra. lra. }
  pose proof (ln_nonneg H1). lra.
Qed.

Lemma tf_idf_ge_1 (count n df : nat) :
  (1 <= count)%nat -> (df <= n)%nat -> 1 <= tf_idf (F:=R) count n df.
Proof.
  intros Hc Hdf. unfold tf_idf.
  pose proof (tf_ge_1 Hc). pose proof (idf_ge_1 Hdf).
  change (fmul (tf count) (idf n df)) with (tf (F:=R) count * idf (F:=R) n df).
  nra.
Qed.

End RealSums.

(** ** The cosine of vectors with weights that are not negative *)

Section Cosine.
Local Open Scope R_scope.

Lemma get_default_keys_values {K V : Type} `{KeyEq K} (dflt : V) (d : dict K V) :
  NoDup (keys d) -> map (fun k => get_default k dflt d) (keys d) = values d.
Proof.
  induction d as [|[k v] d IH]; simpl; intros Hnd; [reflexivity|].
  inversion Hnd as [|? ? Hn Hnd']; subst.
  unfold get_default at 1. simpl. rewrite keqb_refl. f_equal.
  rewrite <- IH by exact Hnd'. apply map_ext_in. intros k' Hk'.
  unfold get_default. simpl. rewrite keqb_neq; [reflexivity|].
  intros ->. contradiction.
Qed.

Lemma get_default_nonneg (t : string) (d : dict string R) :
  Forall (fun w => 0 <= w) (values d) -> 0 <= get_default t 0 d.
Proof.
  intros Hd. unfold get_default. destruct (get t d) as [w|] eqn:Hg; [|lra].
  apply get_Some_In in Hg. rewrite Forall_forall in Hd. apply Hd.
  unfold values. now apply (in_map snd) in Hg.
Qed.

Lemma Rsum_squares_common (q d : dict string R) :
  NoDup (keys q) -> NoDup (keys d) ->
  Rsum (map (fun t => get_default t 0 q * get_default t 0 q) (common_terms q d))
  <= Rsum (map (fun w => w * w) (values q))
  /\ Rsum (map (fun t => get_default t 0 d * get_default t 0 d) (common_terms q d))
     <= Rsum (map (fun w => w * w) (values d)).
Proof.
  intros Hq Hd.
  assert (Hc : NoDup (common_terms q d)) by (apply NoDup_filter; exact Hq).
  split.
  - rewrite <- (@get_default_keys_values _ _ _ 0 q Hq), map_map.
    apply Rsum_sublist; [intros; nra | exact Hc | apply incl_filter].
  - rewrite <- (@get_default_keys_values _ _ _ 0 d Hd), map_map.
    apply Rsum_sublist; [intros; nra | exact Hc |].
    intros t Ht. apply filter_In in Ht as [_ Hm]. now apply mem_In.
Qed.

Lemma div_unit_interval (a p : R) : 0 <= a <= p -> 0 < p -> 0 <= a / p <= 1.
Proof.
  intros [Ha Hap] Hp. split.
  - apply Rmult_le_reg_r with p; [exact Hp|].
    unfold Rdiv. rewrite Rmult_assoc, Rinv_l by lra. lra.
  - apply Rmult_le_reg_r with p; [exact Hp|].
    unfold Rdiv. rewrite Rmult_assoc, Rinv_l by lra. lra.
Qed.

Lemma cosine_unit_interval (q d : dict string R) :
  NoDup (keys q) -> NoDup (keys d) ->
  Forall (fun w => 0 <= w) (values q) ->
  Forall (fun w => 0 <= w) (values d) ->
  0 <= calculate_cosine_similarity q d <= 1.
Proof.
  intros Hq Hd Hqv Hdv. unfold calculate_cosine_similarity.
  destruct (common_terms q d) as [|t0 rest] eqn:Hcommon; [simpl; lra|].
  rewrite <- Hcommon. rewrite !py_sum_Rsum.
  set (Q := Rsum (map fsqr (values q))).
  set (D := Rsum (map fsqr (values d))).
  set (num := Rsum (map (fun t => fmul (get_default t f0 q) (get_default t f0 d))
                        (common_terms q d))).
  assert (HQ : 0 <= Q) by apply (Rsum_squares_nonneg (fun w => w)).
  assert (HD : 0 <= D) by apply (Rsum_squares_nonneg (fun w => w)).
  destruct (feq0 (fsqrt Q) || feq0 (fsqrt D)) eqn:Hzero; [simpl; lra|].
  apply orb_false_iff in Hzero as [Hq0 Hd0]. simpl in Hq0, Hd0.
  destruct (Req_dec_T (sqrt Q) 0) as [|Hqm]; [discriminate|].
  destruct (Req_dec_T (sqrt D) 0) as [|Hdm]; [discriminate|].
  pose proof (sqrt_pos Q) as Hqp. pose proof (sqrt_pos D) as Hdp.
  assert (Hnum0 : 0 <= num).
  { apply Rsum_nonneg. apply Forall_forall. intros y Hy.
    apply in_map_iff in Hy as (t & <- & _). simpl.
    pose proof (@get_default_nonneg t q Hqv). pose proof (@get_default_nonneg t d Hdv).
    change (@f0 R R_ops) with 0. nra. }
  destruct (@Rsum_squares_common q d Hq Hd) as [HA HB]. fold (common_terms q d) in HA, HB.
  pose proof (cauchy_schwarz
                (map (fun t => (get_default t 0 q, get_default t 0 d))
                     (common_terms q d))) as Hcs.
  cbv zeta in Hcs. rewrite !map_map in Hcs. cbn [fst snd] in Hcs.
  fold num in Hcs.
  set (A := Rsum (map (fun t => get_default t 0 q * get_default t 0 q)
                      (common_terms q d))) in *.
  set (B := Rsum (map (fun t => get_default t 0 d * get_default t 0 d)
                      (common_terms q d))) in *.
  assert (HA0 : 0 <= A) by apply (Rsum_squares_nonneg (fun t => get_default t 0 q)).
  assert (HB0 : 0 <= B) by apply (Rsum_squares_nonneg (fun t => get_default t 0 d)).
  assert (HAQ : A <= Q) by exact HA.
  assert (HBD : B <= D) by exact HB.
  assert (Hprod : num * num <= Q * D).
  { apply Rle_trans with (A * B); [exact Hcs|]. apply Rmult_le_compat; lra. }
  pose proof (sqrt_sqrt Q HQ) as HsQ. pose proof (sqrt_sqrt D HD) as HsD.
  assert (Hle : num <= sqrt Q * sqrt D).
  { destruct (Rle_lt_dec num (sqrt Q * sqrt D)) as [Hok|Hbad]; [exact Hok|].
    exfalso.
    assert (Hp : 0 <= sqrt Q * sqrt D) by (apply Rmult_le_pos; lra).
    assert (Hsq : (sqrt Q * sqrt D) * (sqrt Q * sqrt D) < num * num) by nra.
    replace ((sqrt Q * sqrt D) * (sqrt Q * sqrt D))
      with ((sqrt Q * sqrt Q) * (sqrt D * sqrt D)) in Hsq by ring.
    rewrite HsQ, HsD in Hsq. lra. }
  cbn [fdiv fmul fsqrt R_ops].
  apply div_unit_interval; [lra|]. apply Rmult_lt_0_compat; lra.
Qed.

End Cosine.

(** ** Positive weights and scores between 0 and 1 *)

Section Bounds.
Variable nltk : Nltk.
Local Open Scope R_scope.

Lemma Forall_values_set {K V : Type} `{KeyEq K} (P : V -> Prop) (k : K) (v : V)
    (d : dict K V) :
  P v -> Forall P (values d) -> Forall P (values (set k v d)).
Proof.
  intros Hv. induction d as [|[k0 v0] d IH]; simpl; intros Hd.
  - now constructor.
  - inversion Hd as [|? ? H0 Hd']; subst.
    destruct (keqb k k0); simpl; constructor; auto.
Qed.

Lemma Forall_values_fold_set {V : Type} (P : V -> Prop)
    (val : dict string V -> string -> V) (terms : list string) (acc : dict string V) :
  (forall qv term, Forall P (values qv) -> P (val qv term)) ->
  Forall P (values acc) ->
  Forall P (values (fold_left (fun qv term => set term (val qv term) qv) terms acc)).
Proof.
  intros Hval. revert acc. induction terms as [|term terms IH]; intros acc Hacc; simpl.
  - exact Hacc.
  - apply IH. apply Forall_values_set; auto.
Qed.

Lemma query_vector_nonneg (st : InvertedIndexer R) (terms : list string) :
  (forall t, 0 <= compute_inverse_document_frequency st t) ->
  Forall (fun w => 0 <= w) (values (calculate_query_vector st terms)).
Proof.
  intros Hidf. unfold calculate_query_vector.
  apply (@Forall_values_fold_set R (fun w => 0 <= w)
           (fun qv term =>
              fmul (get_default term f0 qv)
                   (compute_inverse_document_frequency st term))).
  - intros qv term Hqv. cbn [fmul R_ops].
    apply Rmult_le_pos; [exact (@get_default_nonneg term qv Hqv) | apply Hidf].
  - apply (@Forall_values_fold_set R (fun w => 0 <= w)
             (fun qv term => fadd (get_default term f0 qv) f1)).
    + intros qv term Hqv. cbn [fadd f1 R_ops].
      pose proof (@get_default_nonneg term qv Hqv) as H0.
      change (@f0 R R_ops) with 0 in *. lra.
    + constructor.
Qed.

Lemma doc_frequency_le (corpus : list (list string)) (t : string) :
  (doc_frequency corpus t <= List.length corpus)%nat.
Proof. unfold doc_frequency. apply filter_length_le. Qed.

Lemma built_idf_ge_1 (pubs : list Publication) (st : InvertedIndexer R) (t : string) :
  built_state nltk pubs st ->
  (get_default t 0%nat (term_document_counts st) <= List.length (documents st))%nat
  /\ 1 <= compute_inverse_document_frequency st t.
Proof.
  intros Hst.
  assert (Hdf : (get_default t 0%nat (term_document_counts st)
                 <= List.length (documents st))%nat).
  { rewrite (bs_counts Hst), (bs_documents Hst), length_documents_from.
    rewrite <- (length_map (tokens_of nltk) pubs). apply doc_frequency_le. }
  split; [exact Hdf|].
  exact (idf_ge_1 Hdf).
Qed.

Lemma Forall2_In_l {A B : Type} (P : A -> B -> Prop) (l : list A) (m : list B) (x : A) :
  Forall2 P l m -> In x l -> exists y, In y m /\ P x y.
Proof.
  induction 1 as [|a b l m Hab _ IH]; simpl; [tauto|].
  intros [<-|Hin].
  - exists b. tauto.
  - destruct (IH Hin) as (y & Hy & Hxy). exists y. tauto.
Qed.

Lemma built_vector_positive (pubs : list Publication) (st : InvertedIndexer R)
    (d : nat) (vector : dict string R) :
  build_index nltk pubs init = Ok st ->
  get d (document_vectors st) = Some vector ->
  NoDup (keys vector) /\ Forall (fun w => 1 <= w) (values vector).
Proof.
  intros Hb Hd. pose proof Hb as Hst. apply build_index_ok_built in Hst. split.
  - rewrite (built_vector d Hst) in Hd.
    destruct (d <? List.length pubs)%nat; [|discriminate]. injection Hd as <-.
    rewrite keys_map_values. apply NoDup_keys_tf_vector_of.
  - assert (Hnd : NoDup (keys vector)).
    { rewrite (built_vector d Hst) in Hd.
      destruct (d <? List.length pubs)%nat; [|discriminate]. injection Hd as <-.
      rewrite keys_map_values. apply NoDup_keys_tf_vector_of. }
    apply Forall_forall. intros w Hw. unfold values in Hw.
    apply in_map_iff in Hw as ([t w'] & Hsnd & Hin). simpl in Hsnd. subst w'.
    apply (In_get_Some _ _ _ Hnd) in Hin.
    destruct (stored_weights nltk pubs Hb) as (_ & Hvec & _).
    destruct (Hvec d vector t w Hd Hin) as [Hc ->].
    apply tf_idf_ge_1; [exact Hc|]. apply (built_idf_ge_1 t Hst).
Qed.

(** C10, with real weights.  In a built index every stored weight, in the
    document vectors and in the postings, is strictly positive: the term
    frequency factor [1 + ln(count)] is at least 1 and, as
    [term_document_counts[t]] is at most the number of documents, so is the
    inverse document frequency.  Every score that [rank_documents] returns
    is between 0 and 1. *)
Theorem weights_positive_scores_bounded (pubs : list Publication)
    (st : InvertedIndexer R) :
  build_index nltk pubs init = Ok st ->
  (forall d vector t w,
      get d (document_vectors st) = Some vector -> get t vector = Some w -> 0 < w)
  /\ (forall t ps d w,
        get t (inverted_index st) = Some ps -> In (d, w) ps -> 0 < w)
  /\ (forall count, (1 <= count)%nat -> 1 <= tf (F:=R) count)
  /\ (forall t,
        (get_default t 0%nat (term_document_counts st)
         <= List.length (documents st))%nat
        /\ 1 <= idf (F:=R) (List.length (documents st))
                    (get_default t 0%nat (term_document_counts st)))
  /\ (forall query top_n results r,
        rank_documents nltk st query top_n = Ok results ->
        In r results -> 0 <= r_score r <= 1).
Proof.
  intros Hb. pose proof Hb as Hst. apply build_index_ok_built in Hst.
  destruct (stored_weights nltk pubs Hb) as (_ & Hvec & Hpost & _).
  split; [|split; [|split; [|split]]].
  - intros d vector t w Hd Ht. destruct (Hvec d vector t w Hd Ht) as [Hc ->].
    assert (1 <= tf_idf (F:=R)
                   (raw_count (nth d (map (tokens_of nltk) pubs) []) t)
                   (List.length (documents st))
                   (get_default t 0%nat (term_document_counts st))).
    { apply tf_idf_ge_1; [exact Hc|]. apply (built_idf_ge_1 t Hst). }
    lra.
  - intros t ps d w Hps Hin. destruct (Hpost t ps d w Hps Hin) as [Hc ->].
    assert (1 <= tf_idf (F:=R)
                   (raw_count (nth d (map (tokens_of nltk) pubs) []) t)
                   (List.length (documents st))
                   (get_default t 0%nat (term_document_counts st))).
    { apply tf_idf_ge_1; [exact Hc|]. apply (built_idf_ge_1 t Hst). }
    lra.
  - intros count. apply tf_ge_1.
  - intros t. exact (built_idf_ge_1 t Hst).
  - intros query top_n results r Hrank Hin.
    destruct (preprocess_text nltk query) as [|term terms] eqn:Hterms.
    + rewrite (rank_documents_nil_terms nltk st query top_n Hterms) in Hrank.
      injection Hrank as <-. destruct Hin.
    + assert (Hne : preprocess_text nltk query <> []) by (rewrite Hterms; discriminate).
      destruct (rank_documents_built (F:=R) query top_n Hst Hne)
        as (full & _ & HF & Hrank').
      rewrite Hrank in Hrank'. injection Hrank' as ->.
      rewrite truncate_kept in Hin. apply In_firstn in Hin.
      destruct (@Forall2_In_l _ _ _ _ _ r HF Hin) as ([d s] & He & _ & _ & Hscore).
      rewrite Hscore. simpl. apply round4_unit_interval.
      rewrite Hterms in He.
      destruct (@ranked_docs_scores nltk pubs st (term :: terms) d s Hst He)
        as (vector & Hd & ->).
      destruct (@built_vector_positive pubs st d vector Hb Hd) as [Hnd Hpos].
      apply cosine_unit_interval.
      * apply NoDup_keys_query_vector.
      * exact Hnd.
      * apply query_vector_nonneg. intros t.
        pose proof (proj2 (built_idf_ge_1 t Hst)). lra.
      * eapply Forall_impl; [|exact Hpos]. simpl. intros; lra.
Qed.

End Bounds.

Lemma weights_positive_scores_bounded_witness :
  build_index Toy.nltk Toy.corpus init = Ok Toy.index
  /\ (1 <= idf (F:=R) 2 1)%R
  /\ forall results r,
       rank_documents Toy.nltk Toy.index "growth models" None = Ok results ->
       In r results -> (0 <= r_score r <= 1)%R.
Proof.
  assert (Hb : build_index Toy.nltk Toy.corpus init = Ok Toy.index)
    by (vm_compute; reflexivity).
  split; [exact Hb|].
  destruct (weights_positive_scores_bounded Toy.nltk Toy.corpus Hb)
    as (_ & _ & _ & Hidf & Hscore).
  split.
  - exact (proj2 (Hidf "growth")).
  - intros results r. apply Hscore.
Defined.

(** ** What [rank_documents] leaves untouched *)

Module ObjectFacts.
(* The value-level functions, named before the object-level ones of the same
   names come into scope. *)
Local Abbreviation value_idf := compute_inverse_document_frequency.
Local Abbreviation value_query_vector := calculate_query_vector.
Local Abbreviation value_result_entry := result_entry.
Local Abbreviation value_rank_documents := rank_documents.
Import Objects.
Section Frame.
Context {F : Type} `{FloatOps F}.
Variable nltk : Nltk.

Lemma unchanged_refl (w : World F) : unchanged w w.
Proof. repeat split. apply firstn_all. Qed.

Lemma unchanged_length (w0 w : World F) :
  unchanged w0 w -> List.length (w_heap w0) <= List.length (w_heap w).
Proof.
  intros (_ & _ & _ & _ & Hheap).
  apply (f_equal (@List.length _)) in Hheap. rewrite length_firstn in Hheap. lia.
Qed.

Lemma firstn_list_set {A : Type} (n i : nat) (x : A) (l : list A) :
  n <= i -> firstn n (list_set i x l) = firstn n l.
Proof.
  revert n i. induction l as [|y l IH]; intros n i Hle; simpl.
  - now destruct i.
  - destruct i as [|i]; [replace n with 0 by lia; reflexivity|].
    destruct n as [|n]; [reflexivity|]. simpl. f_equal. apply IH. lia.
Qed.

Lemma compute_idf_reads (term : string) (w : World F) :
  Objects.compute_inverse_document_frequency term w
  = (Ok (fadd (fln (fdiv (of_nat (List.length (w_documents w) + 1))
                         (of_nat (get_default term 0 (w_term_document_counts w) + 1))))
              f1), w).
Proof. reflexivity. Qed.

Lemma apply_idf_reads (terms : list string) (qv : dict string F) (w : World F) :
  exists qv', apply_idf terms qv w = (Ok qv', w).
Proof.
  revert qv. induction terms as [|term terms IH]; intros qv; simpl.
  - now exists qv.
  - unfold mbind. rewrite compute_idf_reads. apply IH.
Qed.

Lemma query_vector_reads (terms : list string) (w : World F) :
  exists qv, Objects.calculate_query_vector terms w = (Ok qv, w).
Proof. unfold Objects.calculate_query_vector. apply apply_idf_reads. Qed.

Lemma dict_copy_unchanged (w0 w w' : World F) (a : address) (r : result address) :
  dict_copy a w = (r, w') ->
  unchanged w0 w ->
  unchanged w0 w'
  /\ forall c, r = Ok c -> List.length (w_heap w0) <= c < List.length (w_heap w').
Proof.
  intros Hrun Hun. pose proof (unchanged_length Hun) as Hlen.
  destruct Hun as (H1 & H2 & H3 & H4 & H5).
  unfold dict_copy in Hrun. destruct (nth_error (w_heap w) a) as [o|].
  - injection Hrun as <- <-. split.
    + repeat split; try assumption. simpl.
      rewrite firstn_app, H5.
      replace (List.length (w_heap w0) - List.length (w_heap w)) with 0 by lia.
      simpl. apply app_nil_r.
    + intros c [= <-]. simpl. rewrite length_app. simpl. lia.
  - injection Hrun as <- <-. split; [repeat split; assumption | discriminate].
Qed.

Lemma dict_set_score_unchanged (w0 w w' : World F) (c : address) (v : F)
    (r : result unit) :
  dict_set_score c v w = (r, w') ->
  unchanged w0 w -> List.length (w_heap w0) <= c ->
  unchanged w0 w'.
Proof.
  intros Hrun (H1 & H2 & H3 & H4 & H5) Hc.
  unfold dict_set_score in Hrun. destruct (nth_error (w_heap w) c) as [o|].
  - injection Hrun as <- <-. repeat split; try assumption. simpl.
    now rewrite firstn_list_set.
  - injection Hrun as <- <-. repeat split; assumption.
Qed.

Lemma result_entry_unchanged (w0 w w' : World F) (entry : nat * F)
    (r : result address) :
  Objects.result_entry entry w = (r, w') ->
  unchanged w0 w ->
  unchanged w0 w' /\ forall c, r = Ok c -> List.length (w_heap w0) <= c.
Proof.
  intros Hrun Hun. destruct entry as [doc_id score].
  unfold Objects.result_entry, mbind, documents_getitem in Hrun.
  destruct (nth_error (w_documents w) doc_id) as [a|].
  2:{ injection Hrun as <- <-. split; [exact Hun | discriminate]. }
  destruct (dict_copy a w) as [[c|e] w1] eqn:Hcopy.
  2:{ injection Hrun as <- <-.
      split; [exact (proj1 (@dict_copy_unchanged _ _ _ _ _ Hcopy Hun)) | discriminate]. }
  destruct (@dict_copy_unchanged _ _ _ _ _ Hcopy Hun) as [Hun1 Hfresh].
  specialize (Hfresh c eq_refl).
  destruct (dict_set_score c (fround4 score) w1) as [[[]|e] w2] eqn:Hset.
  - injection Hrun as <- <-.
    split; [exact (@dict_set_score_unchanged _ _ _ _ _ _ Hset Hun1 (proj1 Hfresh))|].
    intros c' [= <-]. lia.
  - injection Hrun as <- <-.
    split; [exact (@dict_set_score_unchanged _ _ _ _ _ _ Hset Hun1 (proj1 Hfresh)) | discriminate].
Qed.

Lemma for_list_unchanged (w0 : World F) (entries : list (nat * F)) (w w' : World F)
    (r : result (list address)) :
  for_list Objects.result_entry entries w = (r, w') ->
  unchanged w0 w ->
  unchanged w0 w'
  /\ forall cs, r = Ok cs -> Forall (fun c => List.length (w_heap w0) <= c) cs.
Proof.
  revert w r. induction entries as [|entry entries IH]; intros w r Hrun Hun.
  - injection Hrun as <- <-. split; [exact Hun|]. intros cs [= <-]. constructor.
  - cbn [for_list] in Hrun. unfold mbind at 1 in Hrun.
    destruct (Objects.result_entry entry w) as [[c|e] w1] eqn:Hstep.
    2:{ injection Hrun as <- <-.
        split; [exact (proj1 (@result_entry_unchanged _ _ _ _ _ Hstep Hun)) | discriminate]. }
    destruct (@result_entry_unchanged _ _ _ _ _ Hstep Hun) as [Hun1 Hfresh].
    unfold mbind in Hrun.
    destruct (for_list Objects.result_entry entries w1) as [[cs|e] w2] eqn:Hrest.
    + injection Hrun as <- <-. destruct (IH _ _ Hrest Hun1) as [Hun2 Hall].
      split; [exact Hun2|]. intros cs' [= <-]. constructor; auto.
    + injection Hrun as <- <-. destruct (IH _ _ Hrest Hun1) as [Hun2 _].
      split; [exact Hun2 | discriminate].
Qed.

Lemma Forall_truncate {A : Type} (P : A -> Prop) (top_n : option Z) (l : list A) :
  Forall P l -> Forall P (truncate top_n l).
Proof.
  intros Hl. rewrite truncate_kept. rewrite Forall_forall in *.
  intros x Hx. apply Hl. eapply In_firstn; eauto.
Qed.

Lemma rank_documents_frame (query : string) (top_n : option Z) (w w' : World F)
    (r : result (list address)) :
  Objects.rank_documents nltk query top_n w = (r, w') ->
  unchanged w w'
  /\ forall results, r = Ok results ->
       Forall (fun a => List.length (w_heap w) <= a) results.
Proof.
  unfold Objects.rank_documents.
  destruct (preprocess_text nltk query) as [|term terms].
  - intros [= <- <-]. split; [apply unchanged_refl|]. intros results [= <-]. constructor.
  - unfold mbind at 1.
    destruct (query_vector_reads (term :: terms) w) as [qv ->].
    unfold mbind at 1. unfold vectors_items at 1. unfold mbind.
    match goal with
    | |- context [for_list Objects.result_entry ?l w] =>
        destruct (for_list Objects.result_entry l w) as [[cs|e] w1] eqn:Hloop
    end; intros [= <- <-];
      destruct (@for_list_unchanged _ _ _ _ _ Hloop (unchanged_refl w)) as [Hun Hfresh].
    + split; [exact Hun|]. intros results [= <-].
      apply Forall_truncate. now apply Hfresh.
    + split; [exact Hun | discriminate].
Qed.

Lemma counts_getitem_adds_key (term : string) (w : World F) :
  get term (w_term_document_counts w) = None ->
  w_term_document_counts (snd (counts_getitem term w))
  = w_term_document_counts w ++ [(term, 0)].
Proof.
  intros Hnone. unfold counts_getitem. rewrite Hnone. simpl. now apply set_new.
Qed.

(** *** The results are those of the value-level [rank_documents] *)

Lemma apply_idf_run (st : InvertedIndexer F) (terms : list string)
    (qv : dict string F) (extra : list (DocObject F)) :
  let w := {| w_inverted_index := inverted_index st;
              w_term_document_counts := term_document_counts st;
              w_document_vectors := document_vectors st;
              w_documents := seq 0 (List.length (documents st));
              w_heap := w_heap (world_of st) ++ extra |} in
  apply_idf terms qv w
  = (Ok (fold_left
           (fun qv term =>
              set term (fmul (get_default term f0 qv)
                             (value_idf st term)) qv)
           terms qv), w).
Proof.
  intros w. revert qv. induction terms as [|term terms IH]; intros qv; simpl.
  - reflexivity.
  - unfold mbind. rewrite compute_idf_reads. rewrite IH. f_equal. f_equal.
    unfold w. cbn [w_documents w_term_document_counts].
    now rewrite length_seq.
Qed.

Lemma query_vector_run (st : InvertedIndexer F) (terms : list string) :
  Objects.calculate_query_vector terms (world_of st)
  = (Ok (value_query_vector st terms), world_of st).
Proof.
  unfold Objects.calculate_query_vector.
  pose proof (apply_idf_run st
                (keys (fold_left
                         (fun qv term => set term (fadd (get_default term f0 qv) f1) qv)
                         terms []))
                (fold_left
                   (fun qv term => set term (fadd (get_default term f0 qv) f1) qv)
                   terms [])
                []) as Hrun.
  cbv zeta in Hrun. rewrite app_nil_r in Hrun. exact Hrun.
Qed.

Lemma nth_error_seq0 (n d : nat) :
  nth_error (seq 0 n) d = if d <? n then Some d else None.
Proof.
  destruct (Nat.ltb_spec d n) as [Hlt|Hge].
  - rewrite (nth_error_nth' _ 0) by (rewrite length_seq; exact Hlt).
    now rewrite seq_nth.
  - apply nth_error_None. now rewrite length_seq.
Qed.

Lemma result_entry_run (st : InvertedIndexer F) (extra : list (DocObject F))
    (entry : nat * F) :
  let heap := w_heap (world_of st) ++ extra in
  let w := {| w_inverted_index := inverted_index st;
              w_term_document_counts := term_document_counts st;
              w_document_vectors := document_vectors st;
              w_documents := seq 0 (List.length (documents st));
              w_heap := heap |} in
  Objects.result_entry entry w
  = match value_result_entry st entry with
    | Ok r =>
        (Ok (List.length heap),
         {| w_inverted_index := inverted_index st;
            w_term_document_counts := term_document_counts st;
            w_document_vectors := document_vectors st;
            w_documents := seq 0 (List.length (documents st));
            w_heap := w_heap (world_of st) ++ extra ++ [object_of r] |})
    | Raise e => (Raise e, w)
    end.
Proof.
  intros heap w. destruct entry as [d s].
  unfold Objects.result_entry, value_result_entry, mbind, documents_getitem.
  cbn [w_documents w]. rewrite nth_error_seq0.
  destruct (nth_error (documents st) d) as [doc|] eqn:Hdoc.
  - assert (Hlt : d < List.length (documents st)).
    { apply nth_error_Some. congruence. }
    apply Nat.ltb_lt in Hlt. rewrite Hlt. apply Nat.ltb_lt in Hlt.
    assert (Hobj : nth_error heap d = Some {| o_doc := doc; o_score := None |}).
    { unfold heap. rewrite nth_error_app1.
      - cbn [world_of w_heap].
        exact (map_nth_error (fun d0 => {| o_doc := d0; o_score := None |}) d _ Hdoc).
      - cbn [world_of w_heap]. now rewrite length_map. }
    unfold dict_copy. cbn [w_heap w]. rewrite Hobj.
    unfold dict_set_score. cbn [w_heap].
    rewrite nth_error_app2 by lia. rewrite Nat.sub_diag. cbn [nth_error].
    rewrite (list_set_middle heap [] _ _).
    cbn [w_inverted_index w_term_document_counts w_document_vectors w_documents o_doc].
    unfold heap, object_of. cbn [r_doc r_score]. now rewrite <- app_assoc.
  - assert (Hge : List.length (documents st) <= d) by now apply nth_error_None.
    apply Nat.ltb_ge in Hge. now rewrite Hge.
Qed.

Lemma for_list_run (st : InvertedIndexer F) (entries : list (nat * F))
    (extra : list (DocObject F)) :
  let w h := {| w_inverted_index := inverted_index st;
                w_term_document_counts := term_document_counts st;
                w_document_vectors := document_vectors st;
                w_documents := seq 0 (List.length (documents st));
                w_heap := h |} in
  match map_result (value_result_entry st) entries with
  | Ok results =>
      for_list Objects.result_entry entries (w (w_heap (world_of st) ++ extra))
      = (Ok (seq (List.length (w_heap (world_of st) ++ extra)) (List.length results)),
         w (w_heap (world_of st) ++ extra ++ map object_of results))
  | Raise e =>
      exists w',
        for_list Objects.result_entry entries (w (w_heap (world_of st) ++ extra))
        = (Raise e, w')
  end.
Proof.
  intros w. subst w. cbv beta. revert extra.
  induction entries as [|entry entries IH]; intros extra.
  - simpl. now rewrite app_nil_r.
  - cbn [map_result for_list]. unfold mbind.
    pose proof (result_entry_run st extra entry) as Hstep. cbv zeta in Hstep.
    destruct (value_result_entry st entry) as [r|e]; cbn [bind].
    + specialize (IH (extra ++ [object_of r])).
      replace ((extra ++ [object_of r]) ++ map object_of (@nil (Ranked F)))
        with (extra ++ [object_of r]) in IH by (simpl; now rewrite app_nil_r).
      destruct (map_result (value_result_entry st) entries) as [results|e]; cbn [bind].
      * rewrite Hstep, IH. unfold ret. cbn [List.length seq map].
        replace (List.length (w_heap (world_of st) ++ extra ++ [object_of r]))
          with (S (List.length (w_heap (world_of st) ++ extra)))
          by (rewrite !length_app; simpl; lia).
        replace ((extra ++ [object_of r]) ++ map object_of results)
          with (extra ++ object_of r :: map object_of results)
          by (now rewrite <- app_assoc).
        reflexivity.
      * destruct IH as [w' IH]. exists w'. now rewrite Hstep, IH.
    + eexists. rewrite Hstep. reflexivity.
Qed.

Lemma view_results (pre : list (DocObject F)) (results : list (Ranked F))
    (w : World F) :
  w_heap w = pre ++ map object_of results ->
  map (view w) (seq (List.length pre) (List.length results)) = map Some results.
Proof.
  revert pre. induction results as [|r results IH]; intros pre Hheap; simpl.
  - reflexivity.
  - f_equal.
    + unfold view. rewrite Hheap. rewrite nth_error_app2 by lia.
      rewrite Nat.sub_diag. simpl. now destruct r.
    + replace (S (List.length pre)) with (List.length (pre ++ [object_of r]))
        by (rewrite length_app; simpl; lia).
      apply IH. rewrite Hheap. simpl. now rewrite <- app_assoc.
Qed.

Lemma for_list_run_all (st : InvertedIndexer F) (entries : list (nat * F)) :
  match map_result (value_result_entry st) entries with
  | Ok results =>
      for_list Objects.result_entry entries (world_of st)
      = (Ok (seq (List.length (documents st)) (List.length results)),
         {| w_inverted_index := inverted_index st;
            w_term_document_counts := term_document_counts st;
            w_document_vectors := document_vectors st;
            w_documents := seq 0 (List.length (documents st));
            w_heap := w_heap (world_of st) ++ map object_of results |})
  | Raise e =>
      exists w', for_list Objects.result_entry entries (world_of st) = (Raise e, w')
  end.
Proof.
  pose proof (for_list_run st entries []) as Hrun. cbv zeta in Hrun.
  assert (Hnil : w_heap (world_of st) ++ [] = w_heap (world_of st)) by apply app_nil_r.
  assert (Hlen : List.length (w_heap (world_of st)) = List.length (documents st)).
  { cbn [world_of w_heap]. apply length_map. }
  destruct (map_result (value_result_entry st) entries) as [results|e].
  - rewrite Hnil, Hlen in Hrun. exact Hrun.
  - rewrite Hnil in Hrun. exact Hrun.
Qed.

Lemma rank_documents_run (st : InvertedIndexer F) (query : string) (top_n : option Z) :
  Objects.rank_documents nltk query top_n (world_of st)
  = match preprocess_text nltk query with
    | [] => (Ok [], world_of st)
    | terms =>
        match for_list Objects.result_entry
                (sorted_by_score (similarities st terms)) (world_of st) with
        | (Ok results, w') => (Ok (truncate top_n results), w')
        | (Raise e, w') => (Raise e, w')
        end
    end.
Proof.
  unfold Objects.rank_documents.
  destruct (preprocess_text nltk query) as [|term terms]; [reflexivity|].
  unfold mbind at 1. rewrite query_vector_run. reflexivity.
Qed.

Lemma value_rank_documents_truncate (st : InvertedIndexer F) (query : string)
    (top_n : option Z) :
  value_rank_documents nltk st query top_n
  = match preprocess_text nltk query with
    | [] => Ok []
    | terms =>
        results <- map_result (value_result_entry st)
                     (sorted_by_score (similarities st terms)) ;;
        Ok (truncate top_n results)
    end.
Proof.
  unfold value_rank_documents.
  destruct (preprocess_text nltk query) as [|term terms]; [reflexivity|].
  destruct (map_result _ _) as [results|e]; cbn [bind]; [|reflexivity].
  unfold truncate. destruct top_n as [n|]; [|reflexivity].
  now destruct (n =? 0)%Z.
Qed.

(** The object-level [rank_documents], run on an indexer whose documents are
    objects, returns references to the results of the value-level
    [rank_documents], and raises when it raises. *)
Lemma rank_documents_refines (st : InvertedIndexer F) (query : string)
    (top_n : option Z) :
  match value_rank_documents nltk st query top_n with
  | Ok results =>
      exists addresses w',
        Objects.rank_documents nltk query top_n (world_of st) = (Ok addresses, w')
        /\ map (view w') addresses = map Some results
  | Raise e =>
      exists w', Objects.rank_documents nltk query top_n (world_of st) = (Raise e, w')
  end.
Proof.
  rewrite value_rank_documents_truncate, rank_documents_run.
  destruct (preprocess_text nltk query) as [|term terms].
  - exists [], (world_of st). split; reflexivity.
  - pose proof (for_list_run_all st
                  (sorted_by_score (similarities st (term :: terms)))) as Hloop.
    destruct (map_result (value_result_entry st) _) as [results|e]; cbn [bind].
    + rewrite Hloop. eexists _, _. split; [reflexivity|].
      rewrite <- !truncate_map. f_equal.
      rewrite <- (length_map (fun d => {| o_doc := d; o_score := @None F |})
                             (documents st)).
      apply view_results. reflexivity.
    + destruct Hloop as [w' ->]. now exists w'.
Qed.

End Frame.
End ObjectFacts.

(** C9.  [rank_documents] leaves the indexer as it was: after the call the
    inverted index, the term document counts (read with [.get], so no key
    is added), the document vectors and the list of stored documents are
    the same, and every object that existed before the call, so every
    stored document dict, has the same content.  The returned dicts are new
    objects: ['score'] is written into copies. *)
Theorem rank_documents_leaves_index {F : Type} `{FloatOps F} (nltk : Nltk)
    (query : string) (top_n : option Z) (w w' : Objects.World F)
    (r : result (list Objects.address)) :
  Objects.rank_documents nltk query top_n w = (r, w') ->
  Objects.w_inverted_index w' = Objects.w_inverted_index w
  /\ Objects.w_term_document_counts w' = Objects.w_term_document_counts w
  /\ Objects.w_document_vectors w' = Objects.w_document_vectors w
  /\ Objects.w_documents w' = Objects.w_documents w
  /\ (forall a o,
        nth_error (Objects.w_heap w) a = Some o ->
        nth_error (Objects.w_heap w') a = Some o)
  /\ (forall results,
        r = Ok results ->
        Forall (fun a => List.length (Objects.w_heap w) <= a) results).
Proof.
  intros Hrun.
  destruct (@ObjectFacts.rank_documents_frame F _ nltk query top_n w w' r Hrun)
    as [(H1 & H2 & H3 & H4 & H5) Hfresh].
  repeat split; try assumption.
  intros a o Ha.
  rewrite <- (firstn_skipn (List.length (Objects.w_heap w)) (Objects.w_heap w')), H5.
  rewrite nth_error_app1; [exact Ha|].
  apply nth_error_Some. congruence.
Qed.

Lemma rank_documents_leaves_index_witness :
  exists r w',
    Objects.rank_documents Toy.nltk "growth" None (Objects.world_of Toy.index)
    = (r, w')
    /\ Objects.w_term_document_counts w' = term_document_counts Toy.index
    /\ Objects.w_documents w' = [0; 1].
Proof.
  destruct (Objects.rank_documents Toy.nltk "growth" None (Objects.world_of Toy.index))
    as [r w'] eqn:Hrun.
  exists r, w'. split; [reflexivity|].
  destruct (rank_documents_leaves_index Toy.nltk "growth" None
              (Objects.world_of Toy.index) Hrun)
    as (_ & Hcounts & _ & Hdocs & _).
  split; [exact Hcounts|]. rewrite Hdocs. vm_compute. reflexivity.
Defined.

(** * Further properties of the code *)

(** ** The shape of a built index *)

Lemma StronglySorted_filter {A : Type} (R : A -> A -> Prop) (p : A -> bool)
    (l : list A) :
  StronglySorted R l -> StronglySorted R (filter p l).
Proof.
  induction 1 as [|x l HS IH HF]; simpl; [constructor|].
  destruct (p x); [|exact IH]. constructor; [exact IH|].
  rewrite Forall_forall in *. intros y Hy. apply HF.
  now apply filter_In in Hy.
Qed.

Lemma length_filter_nth_seq (corpus : list (list string)) (t : string) :
  List.length (filter (fun i => str_in t (nth i corpus [])) (seq 0 (List.length corpus)))
  = doc_frequency corpus t.
Proof.
  induction corpus as [|tk corpus IH] using rev_ind; [reflexivity|].
  rewrite doc_frequency_snoc, length_app. simpl.
  rewrite Nat.add_1_r, seq_S, filter_app, length_app. simpl.
  rewrite nth_middle. f_equal.
  - rewrite <- IH. f_equal. apply filter_ext_in. intros i Hi. apply in_seq in Hi.
    now rewrite app_nth1 by lia.
  - now destruct (str_in t tk).
Qed.

Section BuiltShape.
Context {F : Type} `{FloatOps F}.
Variable nltk : Nltk.

Lemma built_postings (pubs : list Publication) (st : InvertedIndexer F) (t : string) :
  built_state nltk pubs st ->
  get_default t [] (inverted_index st)
  = map (scale_weight (idf (List.length pubs)
                           (doc_frequency (map (tokens_of nltk) pubs) t)))
        (tf_postings (map (tokens_of nltk) pubs) t).
Proof.
  intros Hst. unfold get_default. rewrite (bs_index Hst).
  destruct (existsb (str_in t) (map (tokens_of nltk) pubs)) eqn:Hex; [reflexivity|].
  now rewrite tf_postings_nil.
Qed.

Lemma built_postings_ids (pubs : list Publication) (st : InvertedIndexer F) (t : string) :
  built_state nltk pubs st ->
  map fst (get_default t [] (inverted_index st))
  = filter (fun i => str_in t (nth i (map (tokens_of nltk) pubs) []))
           (seq 0 (List.length pubs)).
Proof.
  intros Hst. rewrite (built_postings t Hst), map_map.
  change (fun x : nat * F => fst (scale_weight _ x)) with (@fst nat F).
  now rewrite tf_postings_docs, length_map.
Qed.

(** X1.  In a built index the posting lists and the document vectors hold
    the same weights: [(d, w)] is a posting of term [t] exactly when the
    vector of document [d] maps [t] to [w]. *)
Theorem postings_match_vectors (pubs : list Publication) (st : InvertedIndexer F)
    (t : string) (d : nat) (w : F) :
  build_index nltk pubs init = Ok st ->
  In (d, w) (get_default t [] (inverted_index st))
  <-> exists vector,
        get d (document_vectors st) = Some vector /\ get t vector = Some w.
Proof.
  intros Hb. pose proof Hb as Hst. apply build_index_ok_built in Hst.
  rewrite (built_postings t Hst). split.
  - intros Hin. apply in_map_iff in Hin as ([d0 w0] & Hsc & Hin).
    unfold scale_weight in Hsc. simpl in Hsc. injection Hsc as -> <-.
    apply In_tf_postings in Hin as (Hlt & Ht & ->).
    rewrite length_map in Hlt.
    eexists. rewrite (built_vector d Hst).
    apply Nat.ltb_lt in Hlt. rewrite Hlt. split; [reflexivity|].
    rewrite get_map_values, get_tf_vector_of.
    apply str_in_In in Ht. now rewrite Ht.
  - intros (vector & Hd & Ht). rewrite (built_vector d Hst) in Hd.
    destruct (Nat.ltb_spec d (List.length pubs)) as [Hlt|]; [|discriminate].
    injection Hd as <-. rewrite get_map_values, get_tf_vector_of in Ht.
    destruct (str_in t _) eqn:Hs; [|discriminate]. injection Ht as <-.
    apply in_map_iff.
    exists (d, tf (raw_count (nth d (map (tokens_of nltk) pubs) []) t)).
    split; [reflexivity|].
    apply In_tf_postings. rewrite length_map. apply str_in_In in Hs. tauto.
Qed.

(** X2.  In a built index the postings of a term are in strictly ascending
    order of document id, so no document occurs twice, and there are
    [term_document_counts[t]] of them; a term is a key of the inverted index
    exactly when that count is not 0. *)
Theorem postings_sorted_and_counted (pubs : list Publication)
    (st : InvertedIndexer F) (t : string) :
  build_index nltk pubs init = Ok st ->
  StronglySorted lt (map fst (get_default t [] (inverted_index st)))
  /\ List.length (get_default t [] (inverted_index st))
     = get_default t 0 (term_document_counts st)
  /\ (get t (inverted_index st) = None
      <-> get_default t 0 (term_document_counts st) = 0).
Proof.
  intros Hb. pose proof Hb as Hst. apply build_index_ok_built in Hst.
  split; [|split].
  - rewrite (built_postings_ids t Hst).
    apply StronglySorted_filter, StronglySorted_seq.
  - rewrite <- (length_map fst), (built_postings_ids t Hst), (bs_counts Hst).
    rewrite <- (length_map (tokens_of nltk) pubs). apply length_filter_nth_seq.
  - rewrite (bs_index Hst), (bs_counts Hst). unfold doc_frequency.
    destruct (existsb (str_in t) (map (tokens_of nltk) pubs)) eqn:Hex.
    + split; [discriminate|]. intros Hlen. exfalso.
      apply existsb_exists in Hex as (tk & Hin & Hs).
      assert (Hf : In tk (filter (str_in t) (map (tokens_of nltk) pubs)))
        by (apply filter_In; tauto).
      destruct (filter (str_in t) (map (tokens_of nltk) pubs)); [destruct Hf | discriminate].
    + split; [intros _ | reflexivity].
      rewrite filter_none; [reflexivity|].
      intros tk Hin. destruct (str_in t tk) eqn:Hs; [|reflexivity].
      assert (existsb (str_in t) (map (tokens_of nltk) pubs) = true)
        by (apply existsb_exists; eauto).
      congruence.
Qed.

(** X3.  In a built index the document vectors are keyed by the ids
    [0 .. N-1] in ascending order, there is one per stored document, and the
    document stored at position [i] has id [i]. *)
Theorem vectors_follow_documents (pubs : list Publication) (st : InvertedIndexer F) :
  build_index nltk pubs init = Ok st ->
  keys (document_vectors st) = seq 0 (List.length (documents st))
  /\ List.length (documents st) = List.length pubs
  /\ forall i doc, nth_error (documents st) i = Some doc -> d_id doc = i.
Proof.
  intros Hb. pose proof Hb as Hst. apply build_index_ok_built in Hst.
  assert (Hn : List.length (documents st) = List.length pubs).
  { rewrite (bs_documents Hst). apply length_documents_from. }
  split; [|split].
  - rewrite Hn. apply (built_vector_keys Hst).
  - exact Hn.
  - intros i doc Hi.
    assert (Hlt : i < List.length pubs).
    { rewrite <- Hn. apply nth_error_Some. congruence. }
    destruct (built_documents_nth Hst Hlt) as (doc' & Hdoc' & Hid). congruence.
Qed.

End BuiltShape.

Lemma postings_match_vectors_witness :
  build_index Toy.nltk Toy.corpus init = Ok Toy.index
  /\ forall w,
       In (0, w) (get_default "growth" [] (inverted_index Toy.index))
       <-> exists vector,
             get 0 (document_vectors Toy.index) = Some vector
             /\ get "growth" vector = Some w.
Proof.
  assert (Hb : build_index Toy.nltk Toy.corpus init = Ok Toy.index)
    by (vm_compute; reflexivity).
  split; [exact Hb|]. intros w.
  exact (postings_match_vectors Toy.nltk Toy.corpus "growth" 0 w Hb).
Defined.

Lemma postings_sorted_and_counted_witness :
  build_index Toy.nltk Toy.corpus init = Ok Toy.index
  /\ List.length (get_default "model" [] (inverted_index Toy.index)) = 1.
Proof.
  assert (Hb : build_index Toy.nltk Toy.corpus init = Ok Toy.index)
    by (vm_compute; reflexivity).
  split; [exact Hb|].
  destruct (postings_sorted_and_counted Toy.nltk Toy.corpus "model" Hb) as (_ & Hlen & _).
  rewrite Hlen. vm_compute. reflexivity.
Defined.

Lemma vectors_follow_documents_witness :
  build_index Toy.nltk Toy.corpus init = Ok Toy.index
  /\ keys (document_vectors Toy.index) = [0; 1].
Proof.
  assert (Hb : build_index Toy.nltk Toy.corpus init = Ok Toy.index)
    by (vm_compute; reflexivity).
  split; [exact Hb|].
  destruct (vectors_follow_documents Toy.nltk Toy.corpus Hb) as (Hkeys & Hn & _).
  rewrite Hkeys, Hn. reflexivity.
Defined.

(** ** When [rank_documents] raises *)

Section RankingErrors.
Context {F : Type} `{FloatOps F}.
Variable nltk : Nltk.

Lemma map_result_ok_iff {A B : Type} (f : A -> result B) (l : list A) (ys : list B) :
  map_result f l = Ok ys <-> Forall2 (fun x y => f x = Ok y) l ys.
Proof.
  revert ys. induction l as [|x l IH]; intros ys; simpl.
  - split; [intros [= <-]; constructor | intros HF; inversion HF; reflexivity].
  - destruct (f x) as [y|e] eqn:Hx; simpl.
    + destruct (map_result f l) as [ys'|e] eqn:Hl; simpl.
      * split.
        -- intros [= <-]. constructor; [exact Hx | now apply IH].
        -- intros HF. inversion HF as [|? y0 ? ys0 Hy HF']; subst.
           apply IH in HF'. congruence.
      * split; [discriminate|]. intros HF.
        inversion HF as [|? y0 ? ys0 Hy HF']; subst.
        apply IH in HF'. discriminate.
    + split; [discriminate|]. intros HF. inversion HF; congruence.
Qed.

Lemma map_result_raise {A B : Type} (f : A -> result B) (l : list A) (e : exn) :
  map_result f l = Raise e -> exists x, In x l /\ f x = Raise e.
Proof.
  induction l as [|x l IH]; simpl; [discriminate|].
  destruct (f x) as [y|e'] eqn:Hx; simpl.
  - destruct (map_result f l) as [ys|e'']; simpl; [discriminate|].
    intros [= ->]. destruct (IH eq_refl) as (z & Hz & Hfz). exists z. tauto.
  - intros [= ->]. exists x. tauto.
Qed.

Lemma map_result_all_ok {A B : Type} (f : A -> result B) (l : list A) :
  (forall x, In x l -> exists y, f x = Ok y) ->
  exists ys, map_result f l = Ok ys /\ List.length ys = List.length l.
Proof.
  intros Hall.
  destruct (@map_result_Forall2 A B f (fun y x => f x = Ok y) l) as (ys & Hys & HF).
  { intros x Hx. destruct (Hall x Hx) as [y Hy]. now exists y. }
  exists ys. split; [exact Hys | exact (Forall2_length HF)].
Qed.



Lemma rank_documents_bind (self : InvertedIndexer F) (query : string)
    (top_n : option Z) :
  rank_documents nltk self query top_n
  = match preprocess_text nltk query with
    | [] => Ok []
    | terms =>
        results <- map_result (result_entry self) (ranked_docs self terms) ;;
        Ok (truncate top_n results)
    end.
Proof.
  unfold rank_documents, ranked_docs.
  destruct (preprocess_text nltk query) as [|term terms]; [reflexivity|].
  destruct (map_result _ _) as [results|e]; cbn [bind]; [|reflexivity].
  unfold truncate. destruct top_n as [n|]; [|reflexivity].
  now destruct (n =? 0)%Z.
Qed.



End RankingErrors.

(** ** The overflow of a square *)

Section RankingOverflow.
Context {F : Type} `{FloatOps F}.
Variable nltk : Nltk.
Variable pow_overflows : F -> bool.






End RankingOverflow.


(** ** [rank_documents] on a built index, for any floats *)

Section RankingOnBuilt.
Context {F : Type} `{FloatOps F}.
Variable nltk : Nltk.

Lemma Forall2_result_of_ids (st : InvertedIndexer F) (results : list (Ranked F))
    (scores : list (nat * F)) :
  Forall2 (result_of st) results scores ->
  map (fun r => d_id (r_doc r)) results = map fst scores.
Proof.
  induction 1 as [|r e results scores (_ & Hid & _) _ IH]; simpl; [reflexivity|].
  now rewrite IH, Hid.
Qed.

(** X5.  On a built index [rank_documents] never raises.  Every result is a
    stored document, found in [documents] at its own id, and without
    [top_n] a query that has terms gets every stored document exactly
    once. *)
Theorem rank_documents_on_built (pubs : list Publication) (st : InvertedIndexer F)
    (query : string) (top_n : option Z) :
  build_index nltk pubs init = Ok st ->
  exists results,
    rank_documents nltk st query top_n = Ok results
    /\ (forall r, In r results ->
          nth_error (documents st) (d_id (r_doc r)) = Some (r_doc r))
    /\ (top_n = None -> preprocess_text nltk query <> [] ->
          Permutation (map (fun r => d_id (r_doc r)) results)
                      (seq 0 (List.length pubs))).
Proof.
  intros Hb. apply build_index_ok_built in Hb.
  destruct (preprocess_text nltk query) as [|term terms] eqn:Hterms.
  - exists []. rewrite (rank_documents_nil_terms nltk st query top_n Hterms).
    split; [reflexivity|]. split; [intros r []|]. intros _ Hne. congruence.
  - assert (Hne : preprocess_text nltk query <> []) by (rewrite Hterms; discriminate).
    destruct (rank_documents_built query top_n Hb Hne) as (full & _ & HF & Hrank).
    exists (truncate top_n full). split; [exact Hrank|]. split.
    + intros r Hin. rewrite truncate_kept in Hin. apply In_firstn in Hin.
      destruct (@Forall2_In_l _ _ _ _ _ r HF Hin) as (e & _ & Hdoc & Hid & _).
      now rewrite Hid.
    + intros -> _. cbn [truncate]. rewrite (Forall2_result_of_ids HF).
      unfold ranked_docs. rewrite (Permutation_map fst (sorted_by_score_perm _)).
      rewrite keys_similarities, (built_vector_keys Hb). reflexivity.
Qed.

(** X6.  [top_n] only cuts the full ranking.  For every state of the
    indexer, [top_n = 0] gives what an absent [top_n] gives, and a positive
    [top_n] gives the first [top_n] results of the full ranking (all of
    them when there are fewer) or raises what the full ranking raises. *)
Theorem rank_documents_top_n_prefix (self : InvertedIndexer F) (query : string) :
  rank_documents nltk self query (Some 0%Z) = rank_documents nltk self query None
  /\ forall n, (0 < n)%Z ->
       rank_documents nltk self query (Some n)
       = match rank_documents nltk self query None with
         | Ok full => Ok (firstn (Z.to_nat n) full)
         | Raise e => Raise e
         end.
Proof.
  rewrite !rank_documents_bind. split.
  - destruct (preprocess_text nltk query); reflexivity.
  - intros n Hn. rewrite rank_documents_bind.
    destruct (preprocess_text nltk query) as [|term terms].
    + now rewrite firstn_nil.
    + destruct (map_result _ _) as [results|e]; cbn [bind]; [|reflexivity].
      unfold truncate, slice_to.
      destruct (Z.eqb_spec n 0) as [->|_]; [lia|].
      destruct (Z.leb_spec 0 n); [reflexivity | lia].
Qed.

End RankingOnBuilt.

Lemma rank_documents_on_built_witness :
  build_index Toy.nltk Toy.corpus init = Ok Toy.index
  /\ exists results,
       rank_documents Toy.nltk Toy.index "growth models" None = Ok results
       /\ Permutation (map (fun r => d_id (r_doc r)) results) [0; 1].
Proof.
  assert (Hb : build_index Toy.nltk Toy.corpus init = Ok Toy.index)
    by (vm_compute; reflexivity).
  split; [exact Hb|].
  destruct (rank_documents_on_built Toy.nltk Toy.corpus "growth models" None Hb)
    as (results & Hr & _ & Hperm).
  exists results. split; [exact Hr|].
  apply Hperm; [reflexivity | vm_compute; discriminate].
Defined.

(** ** The weights of the query vector *)

Section QueryWeights.
Context {F : Type} `{FloatOps F}.

Lemma count_fold_get (terms : list string) (acc : dict string F) (t : string) :
  get_default t f0
    (fold_left (fun qv term => set term (fadd (get_default term f0 qv) f1) qv)
               terms acc)
  = Nat.iter (count_occ string_dec terms t) (fun x => fadd x f1) (get_default t f0 acc).
Proof.
  revert acc. induction terms as [|term terms IH]; intros acc; simpl; [reflexivity|].
  rewrite IH, get_default_set. simpl.
  destruct (String.eqb_spec t term) as [->|Hne].
  - destruct (string_dec term term) as [_|Hn]; [|congruence].
    now rewrite Nat.iter_succ_r.
  - destruct (string_dec term t); [congruence | reflexivity].
Qed.

Lemma count_fold_None (terms : list string) (acc : dict string F) (t : string) :
  get t (fold_left (fun qv term => set term (fadd (get_default term f0 qv) f1) qv)
                   terms acc) = None
  <-> get t acc = None /\ ~ In t terms.
Proof.
  revert acc. induction terms as [|term terms IH]; intros acc; simpl; [tauto|].
  rewrite IH, get_set. simpl.
  destruct (String.eqb_spec t term) as [->|Hne].
  - split; [intros [Hd _]; discriminate | tauto].
  - split; [intros [Hg Hn]; split; [exact Hg | intros [He|Hi]; congruence] | tauto].
Qed.

Lemma idf_fold_get (g : string -> F) (ks : list string) (qv : dict string F)
    (t : string) :
  NoDup ks ->
  get t (fold_left (fun qv term => set term (fmul (get_default term f0 qv) (g term)) qv)
                   ks qv)
  = if str_in t ks then Some (fmul (get_default t f0 qv) (g t)) else get t qv.
Proof.
  revert qv. induction ks as [|k ks IH]; intros qv Hnd; simpl; [reflexivity|].
  inversion Hnd as [|? ? Hn Hnd']; subst.
  rewrite IH by exact Hnd'. rewrite get_default_set, get_set. simpl.
  destruct (String.eqb_spec t k) as [->|Hne]; simpl.
  - apply str_in_false in Hn. now rewrite Hn.
  - reflexivity.
Qed.

Lemma query_vector_get (self : InvertedIndexer F) (terms : list string)
    (t : string) :
  NoDup (keys (calculate_query_vector self terms))
  /\ get t (calculate_query_vector self terms)
     = if str_in t terms
       then Some (fmul (float_count (count_occ string_dec terms t))
                       (compute_inverse_document_frequency self t))
       else None.
Proof.
  split; [apply NoDup_keys_query_vector|].
  unfold calculate_query_vector.
  set (counts := fold_left
                   (fun qv term => set term (fadd (get_default term f0 qv) f1) qv)
                   terms []).
  assert (Hnd : NoDup (keys counts)).
  { apply (NoDup_keys_fold_set (fun qv term => fadd (get_default term f0 qv) f1)).
    constructor. }
  rewrite (idf_fold_get (compute_inverse_document_frequency self) counts t Hnd).
  assert (Hmem : str_in t (keys counts) = str_in t terms).
  { destruct (str_in t terms) eqn:Hs.
    - apply str_in_In. apply str_in_In in Hs.
      destruct (get t counts) eqn:Hg; [eapply get_Some_keys; eauto|].
      apply count_fold_None in Hg. tauto.
    - apply str_in_false. apply str_in_false in Hs. intros Hk.
      apply get_None_keys in Hk; [exact Hk|].
      apply count_fold_None. split; [reflexivity | exact Hs]. }
  rewrite Hmem. destruct (str_in t terms) eqn:Hs.
  - unfold counts. rewrite count_fold_get. reflexivity.
  - apply count_fold_None. apply str_in_false in Hs. split; [reflexivity | exact Hs].
Qed.

(** X7.  The query vector has one entry per distinct query term: the number
    of occurrences of the term in the query, accumulated as a float, times
    the inverse document frequency of the term in the index; a term that is
    not in the query has no entry. *)
Theorem query_vector_weights (self : InvertedIndexer F) (terms : list string)
    (t : string) :
  NoDup (keys (calculate_query_vector self terms))
  /\ get t (calculate_query_vector self terms)
     = if str_in t terms
       then Some (fmul (float_count (count_occ string_dec terms t))
                       (compute_inverse_document_frequency self t))
       else None.
Proof. apply query_vector_get. Qed.

End QueryWeights.

Lemma float_count_real (n : nat) : float_count (F:=R) n = INR n.
Proof.
  unfold float_count. induction n as [|n IH]; [reflexivity|].
  rewrite Nat.iter_succ, IH, S_INR. reflexivity.
Qed.

Lemma query_vector_weights_witness :
  get "growth" (calculate_query_vector Toy.index ["growth"; "model"; "growth"])
  = Some (fmul (float_count 2) (compute_inverse_document_frequency Toy.index "growth")).
Proof.
  exact (proj2 (query_vector_weights Toy.index ["growth"; "model"; "growth"] "growth")).
Defined.

(** ** The cosine, with real weights *)

Section CosineFacts.
Local Open Scope R_scope.

Lemma filter_all {A : Type} (p : A -> bool) (l : list A) :
  (forall x, In x l -> p x = true) -> filter p l = l.
Proof.
  induction l as [|x l IH]; simpl; intros Hp; [reflexivity|].
  rewrite (Hp x (or_introl eq_refl)). f_equal. apply IH. intros y Hy. apply Hp. now right.
Qed.

Lemma Rsum_squares_pos (l : list R) :
  Exists (fun w => w <> 0) l -> 0 < Rsum (map (fun w => w * w) l).
Proof.
  induction 1 as [w l Hw | w l _ IH]; simpl.
  - pose proof (Rsum_squares_nonneg (fun x => x) l) as Hl.
    assert (0 < w * w) by nra. lra.
  - assert (0 <= w * w) by nra. lra.
Qed.

Lemma Rsum_pos (l : list R) :
  l <> [] -> Forall (fun x => 0 < x) l -> 0 < Rsum l.
Proof.
  intros Hne HF. destruct HF as [|x l Hx HF]; [congruence|]. simpl.
  assert (0 <= Rsum l).
  { apply Rsum_nonneg. eapply Forall_impl; [|exact HF]. simpl. intros; lra. }
  lra.
Qed.

Lemma cosine_self (v : dict string R) :
  NoDup (keys v) -> Exists (fun w => w <> 0) (values v) ->
  calculate_cosine_similarity v v = 1.
Proof.
  intros Hnd Hex. unfold calculate_cosine_similarity.
  assert (Hcommon : common_terms v v = keys v).
  { unfold common_terms. apply filter_all. intros t Ht. now apply mem_In. }
  assert (Hne : keys v <> []).
  { intros Hk. unfold keys, values in *. apply map_eq_nil in Hk. subst v.
    inversion Hex. }
  assert (Hnum : map (fun t => fmul (get_default t f0 v) (get_default t f0 v)) (keys v)
                 = map (fun w => w * w) (values v)).
  { rewrite <- (@get_default_keys_values _ _ _ 0 v Hnd). now rewrite map_map. }
  rewrite Hcommon. destruct (keys v) as [|t0 ks] eqn:Hk; [congruence|].
  rewrite !py_sum_Rsum, Hnum.
  change (map fsqr (values v)) with (map (fun w => w * w) (values v)).
  set (Q := Rsum (map (fun w => w * w) (values v))).
  assert (HQ : 0 < Q) by now apply Rsum_squares_pos.
  pose proof (sqrt_lt_R0 Q HQ) as Hs.
  cbn [feq0 fsqrt fdiv fmul R_ops].
  destruct (Req_dec_T (sqrt Q) 0) as [H0|_]; [lra|]. cbn [orb].
  rewrite sqrt_sqrt by lra. field. lra.
Qed.

Lemma cosine_positive (q d : dict string R) :
  NoDup (keys q) -> NoDup (keys d) ->
  Forall (fun w => 0 < w) (values q) ->
  Forall (fun w => 0 < w) (values d) ->
  (0 < calculate_cosine_similarity q d <-> common_terms q d <> []).
Proof.
  intros Hq Hd Hqv Hdv. unfold calculate_cosine_similarity.
  destruct (common_terms q d) as [|t0 rest] eqn:Hcommon.
  - cbn [f0 R_ops]. split; [lra | congruence].
  - split; [discriminate | intros _].
    rewrite <- Hcommon. rewrite !py_sum_Rsum.
    assert (Hget : forall (v : dict string R) t,
               Forall (fun w => 0 < w) (values v) -> In t (keys v) ->
               0 < get_default t 0 v).
    { intros v t Hv Ht. unfold get_default.
      destruct (get t v) as [w|] eqn:Hg.
      - apply get_Some_In in Hg. rewrite Forall_forall in Hv. apply Hv.
        unfold values. now apply (in_map snd) in Hg.
      - apply get_None_keys in Hg. contradiction. }
    assert (Hin0 : In t0 (common_terms q d)) by (rewrite Hcommon; now left).
    unfold common_terms in Hin0. apply filter_In in Hin0 as [Hq0 Hd0].
    apply mem_In in Hd0.
    assert (Hnz : forall (v : dict string R),
               Forall (fun w => 0 < w) (values v) -> In t0 (keys v) ->
               0 < Rsum (map fsqr (values v))).
    { intros v Hv Ht.
      change (map fsqr (values v)) with (map (fun w => w * w) (values v)).
      apply Rsum_squares_pos. apply Exists_exists.
      exists (get_default t0 0 v). split.
      - unfold get_default. destruct (get t0 v) as [w|] eqn:Hg.
        + apply get_Some_In in Hg. unfold values. now apply (in_map snd) in Hg.
        + apply get_None_keys in Hg. contradiction.
      - pose proof (Hget v t0 Hv Ht). lra. }
    pose proof (sqrt_lt_R0 _ (Hnz q Hqv Hq0)) as HsQ.
    pose proof (sqrt_lt_R0 _ (Hnz d Hdv Hd0)) as HsD.
    cbn [feq0 fsqrt fdiv fmul R_ops].
    destruct (Req_dec_T (sqrt (Rsum (map fsqr (values q)))) 0) as [H0|_]; [lra|].
    destruct (Req_dec_T (sqrt (Rsum (map fsqr (values d)))) 0) as [H0|_]; [lra|].
    cbn [orb]. apply Rdiv_lt_0_compat; [|apply Rmult_lt_0_compat; lra].
    apply Rsum_pos.
    + rewrite Hcommon. discriminate.
    + apply Forall_forall. intros x Hx. apply in_map_iff in Hx as (t & <- & Ht).
      unfold common_terms in Ht. apply filter_In in Ht as [Htq Htd].
      apply mem_In in Htd. cbn [f0 R_ops].
      apply Rmult_lt_0_compat; [now apply Hget | now apply Hget].
Qed.

(** X8.  A vector compared with itself has cosine 1, when its keys are
    distinct and some weight is not 0; so a query whose vector equals a
    document vector gives that document the highest possible score. *)
Theorem cosine_of_equal_vectors (v : dict string R) :
  NoDup (keys v) -> Exists (fun w => w <> 0) (values v) ->
  calculate_cosine_similarity v v = 1.
Proof. apply cosine_self. Qed.

End CosineFacts.

Lemma cosine_of_equal_vectors_witness :
  NoDup (keys [("growth", 2%R); ("model", 1%R)])
  /\ calculate_cosine_similarity [("growth", 2%R); ("model", 1%R)]
                                 [("growth", 2%R); ("model", 1%R)] = 1%R.
Proof.
  assert (Hnd : NoDup (keys [("growth", 2%R); ("model", 1%R)])).
  { repeat constructor; simpl; intuition discriminate. }
  split; [exact Hnd|].
  apply cosine_of_equal_vectors; [exact Hnd|].
  apply Exists_cons_hd. simpl. lra.
Defined.

Section PositiveScores.
Variable nltk : Nltk.
Local Open Scope R_scope.

Lemma built_query_vector_positive (pubs : list Publication) (st : InvertedIndexer R)
    (terms : list string) :
  built_state nltk pubs st ->
  Forall (fun w => 0 < w) (values (calculate_query_vector st terms)).
Proof.
  intros Hst. apply Forall_forall. intros w Hw. unfold values in Hw.
  apply in_map_iff in Hw as ([t w'] & Hsnd & Hin). simpl in Hsnd. subst w'.
  destruct (query_vector_get st terms t) as [Hnd Hget].
  apply (In_get_Some _ _ _ Hnd) in Hin. rewrite Hget in Hin.
  destruct (str_in t terms) eqn:Hs; [|discriminate]. injection Hin as <-.
  rewrite float_count_real.
  change (0 < INR (count_occ string_dec terms t)
              * compute_inverse_document_frequency st t).
  apply str_in_In in Hs. apply (proj1 (count_occ_In string_dec terms t)) in Hs.
  assert (1 <= INR (count_occ string_dec terms t)).
  { change 1 with (INR 1). apply le_INR. exact Hs. }
  pose proof (proj2 (built_idf_ge_1 t Hst)).
  apply Rmult_lt_0_compat; lra.
Qed.

Lemma built_score_shared_term (pubs : list Publication)
    (st : InvertedIndexer R) (terms : list string) (d : nat)
    (vector : dict string R) :
  build_index nltk pubs init = Ok st ->
  get d (document_vectors st) = Some vector ->
  let score :=
    calculate_cosine_similarity (calculate_query_vector st terms) vector in
  (0 < score
   <-> exists t, In t terms /\ In t (nth d (map (tokens_of nltk) pubs) []))
  /\ (score = 0
      <-> forall t, In t terms -> ~ In t (nth d (map (tokens_of nltk) pubs) [])).
Proof.
  intros Hb Hd score. pose proof Hb as Hst. apply build_index_ok_built in Hst.
  destruct (@built_vector_positive nltk pubs st d vector Hb Hd) as [Hnd Hpos].
  assert (Hpos' : Forall (fun w => 0 < w) (values vector)).
  { eapply Forall_impl; [|exact Hpos]. simpl. intros; lra. }
  pose proof (@cosine_positive (calculate_query_vector st terms) vector
                (NoDup_keys_query_vector st terms) Hnd
                (@built_query_vector_positive pubs st terms Hst) Hpos') as Hcos.
  fold score in Hcos.
  assert (Hmem : forall t, In t (keys vector)
                           <-> In t (nth d (map (tokens_of nltk) pubs) [])).
  { intros t. rewrite (built_vector d Hst) in Hd.
    destruct (d <? List.length pubs)%nat; [|discriminate]. injection Hd as <-.
    rewrite keys_map_values. apply keys_tf_vector_of. }
  assert (Hkeys : forall t, In t (keys (calculate_query_vector st terms)) <-> In t terms).
  { intros t. split; [apply keys_query_vector|]. intros Ht.
    destruct (query_vector_get st terms t) as [_ Hget].
    apply str_in_In in Ht. rewrite Ht in Hget. eapply get_Some_keys; eauto. }
  assert (Hshared : common_terms (calculate_query_vector st terms) vector <> []
                    <-> exists t, In t terms
                                  /\ In t (nth d (map (tokens_of nltk) pubs) [])).
  { split.
    - intros Hne.
      destruct (common_terms (calculate_query_vector st terms) vector)
        as [|t rest] eqn:Hc; [congruence|].
      assert (Hin : In t (common_terms (calculate_query_vector st terms) vector))
        by (rewrite Hc; now left).
      unfold common_terms in Hin. apply filter_In in Hin as [Hq Hm].
      apply mem_In in Hm. exists t. split; [now apply Hkeys | now apply Hmem].
    - intros (t & Ht & Htok) Hnil.
      assert (Hin : In t (common_terms (calculate_query_vector st terms) vector)).
      { unfold common_terms. apply filter_In. split; [now apply Hkeys|].
        apply mem_In. now apply Hmem. }
      rewrite Hnil in Hin. destruct Hin. }
  split.
  - now rewrite Hcos.
  - split.
    + intros H0 t Ht Htok.
      assert (0 < score) by (apply Hcos, Hshared; eauto). lra.
    + intros Hnone. unfold score. apply (@no_common_terms R R_ops).
      intros t Ht. apply get_None_keys. rewrite Hmem. now apply Hnone.
Qed.

(** X9.  On a built index the unrounded cosine of a document is strictly
    positive exactly when some term of the query occurs in the tokens of
    the document; otherwise it is 0. *)
Theorem score_positive_iff_shared_term (pubs : list Publication)
    (st : InvertedIndexer R) (terms : list string) (d : nat)
    (vector : dict string R) :
  build_index nltk pubs init = Ok st ->
  get d (document_vectors st) = Some vector ->
  let score :=
    calculate_cosine_similarity (calculate_query_vector st terms) vector in
  (0 < score
   <-> exists t, In t terms /\ In t (nth d (map (tokens_of nltk) pubs) []))
  /\ (score = 0
      <-> forall t, In t terms -> ~ In t (nth d (map (tokens_of nltk) pubs) [])).
Proof. apply built_score_shared_term. Qed.

End PositiveScores.

(** ** The order of the results on the example corpus *)



Lemma score_positive_iff_shared_term_witness :
  build_index Toy.nltk Toy.corpus init = Ok Toy.index
  /\ exists vector,
       get 0 (document_vectors Toy.index) = Some vector
       /\ (0 < calculate_cosine_similarity
                 (calculate_query_vector Toy.index ["growth"]) vector)%R.
Proof.
  assert (Hb : build_index Toy.nltk Toy.corpus init = Ok Toy.index)
    by (vm_compute; reflexivity).
  split; [exact Hb|].
  destruct (get 0 (document_vectors Toy.index)) as [vector|] eqn:Hd;
    [|vm_compute in Hd; discriminate].
  exists vector. split; [reflexivity|].
  apply (proj1 (score_positive_iff_shared_term Toy.nltk Toy.corpus ["growth"] 0 Hb Hd)).
  exists "growth". split; [now left|]. vm_compute. tauto.
Defined.

(** ** Rounding and the displayed scores *)

Section Rounding.
Local Open Scope R_scope.

Lemma Int_part_IZR (z : Z) : Int_part (IZR z) = z.
Proof. symmetry. apply Int_part_spec. lra. Qed.

Lemma round_half_even_IZR (z : Z) : round_half_even (IZR z) = z.
Proof.
  unfold round_half_even, frac_part. rewrite Int_part_IZR.
  destruct (Rlt_dec (IZR z - IZR z) (1 / 2)) as [_|Hn]; [reflexivity|].
  exfalso. apply Hn. lra.
Qed.

Lemma round4_idempotent (x : R) : round4 (round4 x) = round4 x.
Proof.
  unfold round4 at 1.
  replace (round4 x * 10000) with (IZR (round_half_even (x * 10000)))
    by (unfold round4; field).
  now rewrite round_half_even_IZR.
Qed.

Lemma Int_part_le (x y : R) : x <= y -> (Int_part x <= Int_part y)%Z.
Proof.
  intros Hxy. pose proof (base_Int_part x) as [Hx _].
  pose proof (base_Int_part y) as [_ Hy].
  apply Z.lt_succ_r. apply lt_IZR. rewrite succ_IZR. lra.
Qed.

Lemma round_half_even_le (x y : R) :
  x <= y -> (round_half_even x <= round_half_even y)%Z.
Proof.
  intros Hxy. pose proof (Int_part_le Hxy) as Hint.
  destruct (Z.eq_dec (Int_part x) (Int_part y)) as [Heq|Hne].
  - unfold round_half_even, frac_part. rewrite Heq.
    assert (Hf : x - IZR (Int_part y) <= y - IZR (Int_part y)) by lra.
    destruct (Rlt_dec (x - IZR (Int_part y)) (1 / 2)) as [Hx1|Hx1];
      destruct (Rlt_dec (y - IZR (Int_part y)) (1 / 2)) as [Hy1|Hy1]; try lia; try lra.
    + destruct (Rlt_dec (1 / 2) (y - IZR (Int_part y))); [lia|].
      destruct (Z.even (Int_part y)); lia.
    + destruct (Rlt_dec (1 / 2) (x - IZR (Int_part y))) as [Hx2|Hx2];
        destruct (Rlt_dec (1 / 2) (y - IZR (Int_part y))) as [Hy2|Hy2];
        try lia; try lra.
      destruct (Z.even (Int_part y)); lia.
  - assert (Hlt : (Int_part x + 1 <= Int_part y)%Z) by lia.
    destruct (round_half_even_cases x) as [Hx|[Hx _]];
      destruct (round_half_even_cases y) as [Hy|[Hy _]]; lia.
Qed.

Lemma round4_le (x y : R) : x <= y -> round4 x <= round4 y.
Proof.
  intros Hxy. unfold round4.
  assert (Hz : (round_half_even (x * 10000) <= round_half_even (y * 10000))%Z)
    by (apply round_half_even_le; lra).
  apply IZR_le in Hz. unfold Rdiv. apply Rmult_le_compat_r; lra.
Qed.

End Rounding.

Section DisplayedScores.
Variable nltk : Nltk.
Local Open Scope R_scope.

Lemma StronglySorted_Forall2 {A B : Type} (P : A -> B -> Prop)
    (RA : A -> A -> Prop) (RB : B -> B -> Prop) (l : list A) (m : list B) :
  (forall a b x y, P a x -> P b y -> RB x y -> RA a b) ->
  Forall2 P l m -> StronglySorted RB m -> StronglySorted RA l.
Proof.
  intros Himp HF. induction HF as [|a x l m Hax HF IH]; intros HS; [constructor|].
  inversion HS as [|? ? HS' Hall]; subst. constructor; [now apply IH|].
  clear IH HS HS'. induction HF as [|b y l m Hby HF IH]; [constructor|].
  inversion Hall as [|? ? Hxy Hall']; subst. constructor; eauto.
Qed.

(** X10.  On a built index the rounded scores of the returned list never
    increase from one result to the next: rounding to four decimals keeps
    the descending order of the unrounded cosines. *)
Theorem rounded_scores_descend (pubs : list Publication) (st : InvertedIndexer R)
    (query : string) (top_n : option Z) (results : list (Ranked R)) :
  build_index nltk pubs init = Ok st ->
  rank_documents nltk st query top_n = Ok results ->
  StronglySorted (fun r1 r2 => r_score r2 <= r_score r1) results.
Proof.
  intros Hb Hrank. apply build_index_ok_built in Hb.
  destruct (preprocess_text nltk query) as [|term terms] eqn:Hterms.
  - rewrite (rank_documents_nil_terms nltk st query top_n Hterms) in Hrank.
    injection Hrank as <-. constructor.
  - assert (Hne : preprocess_text nltk query <> []) by (rewrite Hterms; discriminate).
    destruct (rank_documents_built (F:=R) query top_n Hb Hne)
      as (full & _ & HF & Hrank').
    rewrite Hrank in Hrank'. injection Hrank' as ->.
    rewrite truncate_kept. apply StronglySorted_firstn.
    destruct (@ranked_docs_sorted nltk pubs st (preprocess_text nltk query) Hb)
      as [Hsorted _].
    refine (@StronglySorted_Forall2 _ _ _ _ _ _ _ _ HF Hsorted).
    intros a b x y (_ & _ & Ha) (_ & _ & Hb') Hxy. rewrite Ha, Hb'.
    apply round4_le. destruct Hxy as [Hlt|[Heq _]]; lra.
Qed.

End DisplayedScores.

Lemma rounded_scores_descend_witness :
  build_index Toy.nltk Toy.corpus init = Ok Toy.index
  /\ exists results,
       rank_documents Toy.nltk Toy.index "growth banking" None = Ok results
       /\ StronglySorted (fun r1 r2 => (r_score r2 <= r_score r1)%R) results.
Proof.
  assert (Hb : build_index Toy.nltk Toy.corpus init = Ok Toy.index)
    by (vm_compute; reflexivity).
  split; [exact Hb|].
  assert (Hne : preprocess_text Toy.nltk "growth banking" <> [])
    by (vm_compute; discriminate).
  destruct (rank_documents_top_n Toy.nltk Toy.corpus "growth banking" None Hb Hne)
    as (results & Hrank & _).
  exists results. split; [exact Hrank|].
  exact (rounded_scores_descend Toy.nltk Toy.corpus "growth banking" None Hb Hrank).
Defined.

(** * The results page *)

Section SliceFacts.
Local Open Scope Z_scope.

Lemma firstn_add_skipn {A : Type} (n m : nat) (l : list A) :
  firstn (n + m) l = firstn n l ++ firstn m (skipn n l).
Proof.
  revert l. induction n as [|n IH]; intros l; [reflexivity|].
  destruct l as [|x l]; [cbn; now rewrite firstn_nil|].
  cbn [Nat.add firstn skipn app]. now rewrite IH.
Qed.

Lemma firstn_min_length {A : Type} (b : Z) (l : list A) :
  0 <= b ->
  firstn (Z.to_nat (Z.min b (Z.of_nat (List.length l)))) l = firstn (Z.to_nat b) l.
Proof.
  intros Hb. destruct (Z.le_gt_cases b (Z.of_nat (List.length l))) as [Hle|Hgt].
  - now rewrite Z.min_l.
  - rewrite Z.min_r by lia. rewrite Nat2Z.id, firstn_all.
    symmetry. apply firstn_all2. lia.
Qed.

Lemma skipn_min_length {A : Type} (a : Z) (n : nat) (l : list A) :
  0 <= a ->
  skipn (Z.to_nat (Z.min a (Z.of_nat (List.length l)))) (firstn n l)
  = skipn (Z.to_nat a) (firstn n l).
Proof.
  intros Ha. destruct (Z.le_gt_cases a (Z.of_nat (List.length l))) as [Hle|Hgt].
  - now rewrite Z.min_l.
  - rewrite Z.min_r by lia. rewrite Nat2Z.id.
    assert (Hlen : (List.length (firstn n l) <= List.length l)%nat)
      by (rewrite length_firstn; lia).
    rewrite !skipn_all2 by lia. reflexivity.
Qed.

Lemma slice_nonneg {A : Type} (a b : Z) (l : list A) :
  0 <= a -> 0 <= b ->
  App.slice a b l = skipn (Z.to_nat a) (firstn (Z.to_nat b) l).
Proof.
  intros Ha Hb. unfold App.slice, App.slice_bound.
  destruct (Z.ltb_spec a 0) as [?|_]; [lia|].
  destruct (Z.ltb_spec b 0) as [?|_]; [lia|].
  now rewrite firstn_min_length, skipn_min_length.
Qed.

Lemma slice_page {A : Type} (i r : nat) (l : list A) :
  App.slice (Z.of_nat i * Z.of_nat r) (Z.of_nat i * Z.of_nat r + Z.of_nat r) l
  = firstn r (skipn (i * r) l).
Proof.
  rewrite slice_nonneg by nia. rewrite firstn_skipn_comm. f_equal; [nia|].
  f_equal. nia.
Qed.

Lemma slice_drop_last {A : Type} (b : Z) (l : list A) :
  b < 0 ->
  App.slice 0 b l = firstn (List.length l - Z.to_nat (- b)) l.
Proof.
  intros Hb. unfold App.slice, App.slice_bound.
  destruct (Z.ltb_spec b 0) as [_|?]; [|lia].
  change (0 <? 0) with false. cbv iota.
  rewrite Z.min_l by lia. change (Z.to_nat 0) with 0%nat. cbn [skipn].
  f_equal. lia.
Qed.

Lemma chunks_concat {A : Type} (r k : nat) (l : list A) :
  List.concat (map (fun i => firstn r (skipn (i * r) l)) (seq 0 k))
  = firstn (k * r) l.
Proof.
  induction k as [|k IH]; [reflexivity|].
  rewrite seq_S, map_app, concat_app, IH. cbn [Nat.add map List.concat].
  rewrite app_nil_r. change (S k * r)%nat with (r + k * r)%nat.
  rewrite (Nat.add_comm r). symmetry. apply firstn_add_skipn.
Qed.

Lemma ceil_div_bounds (a b : Z) :
  0 < b -> (App.ceil_div a b - 1) * b < a <= App.ceil_div a b * b.
Proof.
  intros Hb. unfold App.ceil_div.
  assert (H1 := Z.mul_div_le (- a) b Hb).
  assert (H2 := Z.mul_succ_div_gt (- a) b Hb).
  nia.
Qed.

Lemma ceil_div_nonpos (a b : Z) : 0 <= a -> b < 0 -> App.ceil_div a b <= 0.
Proof.
  intros Ha Hb. unfold App.ceil_div.
  assert (0 <= - a / b); [|lia].
  replace b with (- (- b)) by lia. rewrite Z.div_opp_opp by lia.
  apply Z.div_pos; lia.
Qed.

Lemma In_range (a b p : Z) : In p (App.range a b) <-> a <= p < b.
Proof.
  unfold App.range. rewrite in_map_iff. split.
  - intros (i & <- & Hi). apply in_seq in Hi. lia.
  - intros Hp. exists (Z.to_nat (p - a)). split; [lia|]. apply in_seq. lia.
Qed.

End SliceFacts.

Section ResultsPage.
Context {F : Type} `{FloatOps F}.
Variable nltk : Nltk.
Variable strip : string -> string.
Local Open Scope Z_scope.

Lemma results_nonblank (self : InvertedIndexer F) (qa : option string)
    (pa ra : option Z) (rows : list (App.Row F)) :
  strip (App.args_get qa EmptyString) <> EmptyString ->
  App.all_rows nltk self (strip (App.args_get qa EmptyString)) = Ok rows ->
  App.results nltk strip self qa pa ra
  = if App.args_get ra App.DEFAULT_RESULTS_PER_PAGE =? 0
    then App.Failed App.ZeroDivisionError
    else App.Rendered
           (App.paginate (strip (App.args_get qa EmptyString)) (App.args_get pa 1)
                         (App.args_get ra App.DEFAULT_RESULTS_PER_PAGE) rows).
Proof.
  intros Hq Hrows. unfold App.results.
  destruct (strip (App.args_get qa EmptyString)) as [|c s] eqn:Hs; [congruence|].
  now rewrite Hrows.
Qed.

Lemma results_raise (self : InvertedIndexer F) (qa : option string)
    (pa ra : option Z) (e : exn) :
  strip (App.args_get qa EmptyString) <> EmptyString ->
  App.all_rows nltk self (strip (App.args_get qa EmptyString)) = Raise e ->
  App.results nltk strip self qa pa ra = App.Failed (App.Core e).
Proof.
  intros Hq Hrows. unfold App.results.
  destruct (strip (App.args_get qa EmptyString)) as [|c s] eqn:Hs; [congruence|].
  now rewrite Hrows.
Qed.

Lemma total_pages_bounds (query : string) (page rpp : Z) (rows : list (App.Row F)) :
  0 < rpp ->
  1 <= App.c_total_pages (App.paginate query page rpp rows)
  /\ Z.of_nat (List.length rows)
     <= App.c_total_pages (App.paginate query page rpp rows) * rpp
  /\ (rows <> [] ->
      (App.c_total_pages (App.paginate query page rpp rows) - 1) * rpp
      < Z.of_nat (List.length rows)).
Proof.
  intros Hrpp. cbn [App.paginate App.c_total_pages].
  assert (Hc := ceil_div_bounds (Z.of_nat (List.length rows)) Hrpp).
  split; [lia|]. split; [nia|]. intros Hne.
  assert (0 < Z.of_nat (List.length rows)) by (destruct rows; [congruence|cbn; lia]).
  assert (1 <= App.ceil_div (Z.of_nat (List.length rows)) rpp) by nia.
  rewrite Z.max_r by lia. lia.
Qed.

Lemma current_page_bounds (query : string) (page rpp : Z) (rows : list (App.Row F)) :
  1 <= App.c_current_page (App.paginate query page rpp rows)
    <= App.c_total_pages (App.paginate query page rpp rows).
Proof. cbn [App.paginate App.c_total_pages App.c_current_page]. lia. Qed.

Lemma page_of_paginate (query : string) (i : nat) (rpp : Z) (rows : list (App.Row F)) :
  0 < rpp ->
  Z.of_nat i < App.c_total_pages (App.paginate query 1 rpp rows) ->
  App.c_paginated_results (App.paginate query (1 + Z.of_nat i) rpp rows)
  = firstn (Z.to_nat rpp) (skipn (i * Z.to_nat rpp) rows).
Proof.
  intros Hrpp Hi. cbn [App.paginate App.c_total_pages App.c_paginated_results] in *.
  set (T := Z.max 1 (App.ceil_div (Z.of_nat (List.length rows)) rpp)) in *.
  replace (Z.max 1 (Z.min (1 + Z.of_nat i) T)) with (1 + Z.of_nat i) by lia.
  replace (1 + Z.of_nat i - 1) with (Z.of_nat i) by lia.
  rewrite <- (Z2Nat.id rpp) at 1 2 3 by lia. apply slice_page.
Qed.

Lemma length_page (query : string) (page rpp : Z) (rows : list (App.Row F)) :
  0 < rpp ->
  Z.of_nat (List.length (App.c_paginated_results (App.paginate query page rpp rows)))
  = Z.min rpp
          (Z.of_nat (List.length rows)
           - (App.c_current_page (App.paginate query page rpp rows) - 1) * rpp).
Proof.
  intros Hrpp.
  assert (Hcur := current_page_bounds query page rpp rows).
  assert (HT := total_pages_bounds query page rows Hrpp).
  destruct HT as (_ & _ & HT).
  assert (Hc := ceil_div_bounds (Z.of_nat (List.length rows)) Hrpp).
  cbn [App.paginate App.c_total_pages App.c_paginated_results App.c_current_page] in *.
  set (T := Z.max 1 (App.ceil_div (Z.of_nat (List.length rows)) rpp)) in *.
  set (cur := Z.max 1 (Z.min page T)) in *.
  assert (Hs : 0 <= (cur - 1) * rpp
               /\ (rows = [] -> (cur - 1) * rpp = 0)
               /\ (rows <> [] -> (cur - 1) * rpp < Z.of_nat (List.length rows))).
  { split; [nia|]. split.
    - intros ->. cbn [List.length] in *.
      assert (App.ceil_div (Z.of_nat 0) rpp = 0) by nia.
      assert (cur = 1) by lia. nia.
    - intros Hne. specialize (HT Hne). nia. }
  destruct Hs as (Hs0 & Hnil & Hcons).
  rewrite slice_nonneg by lia.
  rewrite length_skipn, length_firstn.
  clear Hc HT Hcur. destruct rows as [|row rows].
  - specialize (Hnil eq_refl). clear Hcons. cbn [List.length].
    generalize dependent ((cur - 1) * rpp). intros; lia.
  - specialize (Hcons ltac:(discriminate)). clear Hnil.
    generalize dependent ((cur - 1) * rpp). intros; lia.
Qed.

End ResultsPage.

Section ResultsView.
Context {F : Type} `{FloatOps F}.
Variable nltk : Nltk.
Variable strip : string -> string.
Local Open Scope Z_scope.

Lemma In_documents_from (k : nat) (pubs : list Publication) (doc : Document) :
  In doc (documents_from k pubs) ->
  exists pub, In pub pubs /\ d_authors doc = pub_get (p_authors pub) [].
Proof.
  unfold documents_from. intros Hin. apply in_map_iff in Hin.
  destruct Hin as ([i pub] & <- & Hin). apply in_combine_r in Hin.
  exists pub. split; [exact Hin|reflexivity].
Qed.

Lemma all_rows_built (pubs : list Publication) (st : InvertedIndexer F)
    (query : string) :
  build_index nltk pubs init = Ok st ->
  exists rows,
    App.all_rows nltk st query = Ok rows
    /\ List.length rows
       = match preprocess_text nltk query with
         | [] => 0%nat
         | _ => List.length pubs
         end.
Proof.
  intros Hb. unfold App.all_rows.
  destruct (preprocess_text nltk query) as [|term terms] eqn:Hterms.
  - rewrite (rank_documents_nil_terms nltk st query None Hterms).
    exists []. split; reflexivity.
  - assert (Hne : preprocess_text nltk query <> []) by (rewrite Hterms; discriminate).
    destruct (rank_documents_top_n nltk pubs query None Hb Hne)
      as (full & Hfull & Hlen & _).
    assert (Hnamed := build_index_ok_named nltk pubs Hb).
    assert (Hbuilt := build_index_ok_built nltk pubs Hb).
    destruct (rank_documents_built query None Hbuilt Hne) as (results & _ & HF & Hrank).
    rewrite Hfull in Hrank. cbn [truncate] in Hrank. injection Hrank as ->.
    rewrite Hfull. cbn [bind].
    destruct (map_result_all_ok App.add_display results) as (rows & Hrows & Hlen').
    { intros r Hr. destruct (@Forall2_In_l _ _ _ _ _ r HF Hr) as (e & _ & Hnth & _).
      apply nth_error_In in Hnth. rewrite (bs_documents Hbuilt) in Hnth.
      apply In_documents_from in Hnth. destruct Hnth as (pub & Hpub & Hauthors).
      rewrite Forall_forall in Hnamed. specialize (Hnamed pub Hpub).
      unfold authors_named in Hnamed. rewrite <- Hauthors in Hnamed.
      destruct (author_names_ok Hnamed) as [names Hnames].
      unfold App.add_display. rewrite Hnames. cbn [bind]. eexists. reflexivity. }
    exists rows. split; [exact Hrows|]. now rewrite Hlen'.
Qed.

(** X11.  For a positive page size the pages of a query partition its
    results: the number of pages does not depend on the page asked for, and
    the pages 1 to [total_pages], one after the other, are the ranked list,
    nothing left out and nothing shown twice. *)
Theorem result_pages_partition (self : InvertedIndexer F) (query_arg : option string)
    (per_page_arg : option Z) (rows : list (App.Row F)) :
  strip (App.args_get query_arg EmptyString) <> EmptyString ->
  App.all_rows nltk self (strip (App.args_get query_arg EmptyString)) = Ok rows ->
  0 < App.args_get per_page_arg App.DEFAULT_RESULTS_PER_PAGE ->
  exists total_pages,
    (forall page_arg, exists ctx,
        App.results nltk strip self query_arg page_arg per_page_arg = App.Rendered ctx
        /\ App.c_total_pages ctx = total_pages)
    /\ List.concat
         (map (fun page =>
                 App.shown (App.results nltk strip self query_arg (Some page)
                                        per_page_arg))
              (App.range 1 (total_pages + 1)))
       = rows.
Proof.
  intros Hq Hrows Hrpp.
  set (q := strip (App.args_get query_arg EmptyString)) in *.
  set (rpp := App.args_get per_page_arg App.DEFAULT_RESULTS_PER_PAGE) in *.
  assert (Hres : forall page_arg,
             App.results nltk strip self query_arg page_arg per_page_arg
             = App.Rendered (App.paginate q (App.args_get page_arg 1) rpp rows)).
  { intros page_arg. rewrite (results_nonblank nltk strip self query_arg page_arg
                                per_page_arg Hq Hrows).
    fold rpp. destruct (Z.eqb_spec rpp 0); [lia|reflexivity]. }
  exists (App.c_total_pages (App.paginate q 1 rpp rows)). split.
  - intros page_arg. eexists. split; [apply Hres|reflexivity].
  - destruct (total_pages_bounds q 1 rows Hrpp) as (HT1 & HT2 & _).
    set (T := App.c_total_pages (App.paginate q 1 rpp rows)) in *.
    unfold App.range. rewrite map_map.
    replace (Z.to_nat (T + 1 - 1)) with (Z.to_nat T) by lia.
    rewrite (map_ext_in _ (fun i => firstn (Z.to_nat rpp)
                                      (skipn (i * Z.to_nat rpp) rows))).
    + rewrite chunks_concat. apply firstn_all2. nia.
    + intros i Hi. apply in_seq in Hi. rewrite Hres. cbn [App.shown App.args_get].
      apply page_of_paginate; [exact Hrpp|]. fold T. lia.
Qed.

(** X12.  For a positive page size the page shown is the requested one
    brought into 1 .. [total_pages] (a page below 1 gives the first, a page
    beyond the last gives the last); it holds [per_page] results, or what is
    left of them on the last page, and it is not empty when there are
    results; [total_pages] is the least number of pages that hold them. *)
Theorem result_page_size (self : InvertedIndexer F) (query_arg : option string)
    (page_arg per_page_arg : option Z) (rows : list (App.Row F)) :
  strip (App.args_get query_arg EmptyString) <> EmptyString ->
  App.all_rows nltk self (strip (App.args_get query_arg EmptyString)) = Ok rows ->
  0 < App.args_get per_page_arg App.DEFAULT_RESULTS_PER_PAGE ->
  exists ctx,
    App.results nltk strip self query_arg page_arg per_page_arg = App.Rendered ctx
    /\ App.c_total_results ctx = Z.of_nat (List.length rows)
    /\ 1 <= App.c_current_page ctx <= App.c_total_pages ctx
    /\ App.c_current_page ctx
       = Z.max 1 (Z.min (App.args_get page_arg 1) (App.c_total_pages ctx))
    /\ Z.of_nat (List.length (App.c_paginated_results ctx))
       = Z.min (App.args_get per_page_arg App.DEFAULT_RESULTS_PER_PAGE)
               (App.c_total_results ctx
                - (App.c_current_page ctx - 1)
                  * App.args_get per_page_arg App.DEFAULT_RESULTS_PER_PAGE)
    /\ (rows <> [] ->
        App.c_paginated_results ctx <> []
        /\ (App.c_total_pages ctx - 1)
           * App.args_get per_page_arg App.DEFAULT_RESULTS_PER_PAGE
           < App.c_total_results ctx
           <= App.c_total_pages ctx
              * App.args_get per_page_arg App.DEFAULT_RESULTS_PER_PAGE).
Proof.
  intros Hq Hrows Hrpp.
  set (q := strip (App.args_get query_arg EmptyString)) in *.
  set (rpp := App.args_get per_page_arg App.DEFAULT_RESULTS_PER_PAGE) in *.
  set (page := App.args_get page_arg 1).
  exists (App.paginate q page rpp rows).
  assert (Hcur := current_page_bounds q page rpp rows).
  assert (Hlen := length_page q page rows Hrpp).
  destruct (total_pages_bounds q page rows Hrpp) as (HT1 & HT2 & HT3).
  split.
  { rewrite (results_nonblank nltk strip self query_arg page_arg per_page_arg Hq Hrows).
    fold rpp. destruct (Z.eqb_spec rpp 0); [lia|reflexivity]. }
  split; [reflexivity|]. split; [exact Hcur|]. split; [reflexivity|].
  split; [exact Hlen|].
  intros Hne. specialize (HT3 Hne).
  change (App.c_total_results (App.paginate q page rpp rows))
    with (Z.of_nat (List.length rows)) in *.
  split; [|lia].
  intros Hnil. rewrite Hnil in Hlen. cbn [List.length] in Hlen.
  set (T := App.c_total_pages (App.paginate q page rpp rows)) in *.
  set (cur := App.c_current_page (App.paginate q page rpp rows)) in *.
  nia.
Qed.

(** X13.  The page links of a rendered result page are the pages within two
    of the current one that exist: at most five, the current page among
    them.  This holds for every page size but 0. *)
Theorem page_range_window (self : InvertedIndexer F) (query_arg : option string)
    (page_arg per_page_arg : option Z) (rows : list (App.Row F)) :
  strip (App.args_get query_arg EmptyString) <> EmptyString ->
  App.all_rows nltk self (strip (App.args_get query_arg EmptyString)) = Ok rows ->
  App.args_get per_page_arg App.DEFAULT_RESULTS_PER_PAGE <> 0 ->
  exists ctx,
    App.results nltk strip self query_arg page_arg per_page_arg = App.Rendered ctx
    /\ (forall p, In p (App.c_page_range ctx)
                  <-> 1 <= p <= App.c_total_pages ctx
                      /\ App.c_current_page ctx - 2 <= p <= App.c_current_page ctx + 2)
    /\ In (App.c_current_page ctx) (App.c_page_range ctx)
    /\ (List.length (App.c_page_range ctx) <= 5)%nat.
Proof.
  intros Hq Hrows Hrpp. eexists. split.
  { rewrite (results_nonblank nltk strip self query_arg page_arg per_page_arg Hq Hrows).
    destruct (Z.eqb_spec (App.args_get per_page_arg App.DEFAULT_RESULTS_PER_PAGE) 0);
      [contradiction|reflexivity]. }
  cbn [App.paginate App.c_total_pages App.c_current_page App.c_page_range].
  split; [|split].
  - intros p. rewrite In_range. lia.
  - apply In_range. lia.
  - unfold App.range. rewrite length_map, length_seq. lia.
Qed.

(** X14.  A negative page size is not refused: the view renders one page,
    which holds the ranked list without its last [- per_page] results. *)
Theorem negative_page_size (self : InvertedIndexer F) (query_arg : option string)
    (page_arg per_page_arg : option Z) (rows : list (App.Row F)) :
  strip (App.args_get query_arg EmptyString) <> EmptyString ->
  App.all_rows nltk self (strip (App.args_get query_arg EmptyString)) = Ok rows ->
  App.args_get per_page_arg App.DEFAULT_RESULTS_PER_PAGE < 0 ->
  exists ctx,
    App.results nltk strip self query_arg page_arg per_page_arg = App.Rendered ctx
    /\ App.c_total_pages ctx = 1
    /\ App.c_current_page ctx = 1
    /\ App.c_page_range ctx = [1]
    /\ App.c_total_results ctx = Z.of_nat (List.length rows)
    /\ App.c_paginated_results ctx
       = firstn (List.length rows
                 - Z.to_nat (- App.args_get per_page_arg App.DEFAULT_RESULTS_PER_PAGE))
                rows.
Proof.
  intros Hq Hrows Hrpp. eexists. split.
  { rewrite (results_nonblank nltk strip self query_arg page_arg per_page_arg Hq Hrows).
    destruct (Z.eqb_spec (App.args_get per_page_arg App.DEFAULT_RESULTS_PER_PAGE) 0);
      [lia|reflexivity]. }
  set (rpp := App.args_get per_page_arg App.DEFAULT_RESULTS_PER_PAGE) in *.
  cbn [App.paginate App.c_total_pages App.c_current_page App.c_page_range
       App.c_total_results App.c_paginated_results].
  assert (Hc := @ceil_div_nonpos (Z.of_nat (List.length rows)) rpp ltac:(lia) Hrpp).
  assert (HT : Z.max 1 (App.ceil_div (Z.of_nat (List.length rows)) rpp) = 1) by lia.
  rewrite HT.
  replace (Z.max 1 (Z.min (App.args_get page_arg 1) 1)) with 1 by lia.
  repeat split; try reflexivity.
  change ((1 - 1) * rpp) with 0. cbn [Z.add]. now apply slice_drop_last.
Qed.

(** X15.  On an index that [build_index] has built the results view fails
    in one case only: a query that is not blank with page size 0, where the
    division raises ZeroDivisionError.  No result lacks an author name, so
    the loop over the results does not raise; and a query with a term lists
    every document of the corpus, whatever it matches. *)
Theorem results_on_built (pubs : list Publication) (st : InvertedIndexer F)
    (query_arg : option string) (page_arg per_page_arg : option Z) :
  build_index nltk pubs init = Ok st ->
  (forall e,
      App.results nltk strip st query_arg page_arg per_page_arg = App.Failed e
      <-> e = App.ZeroDivisionError
          /\ strip (App.args_get query_arg EmptyString) <> EmptyString
          /\ App.args_get per_page_arg App.DEFAULT_RESULTS_PER_PAGE = 0)
  /\ (forall ctx,
        App.results nltk strip st query_arg page_arg per_page_arg = App.Rendered ctx ->
        App.c_total_results ctx
        = match strip (App.args_get query_arg EmptyString) with
          | EmptyString => 0
          | query =>
              match preprocess_text nltk query with
              | [] => 0
              | _ => Z.of_nat (List.length pubs)
              end
          end).
Proof.
  intros Hb.
  destruct (strip (App.args_get query_arg EmptyString)) as [|c s] eqn:Hs.
  - unfold App.results. rewrite Hs. split.
    + intros e. split; [discriminate|]. intros (_ & Hne & _). congruence.
    + intros ctx [= <-]. reflexivity.
  - assert (Hq : strip (App.args_get query_arg EmptyString) <> EmptyString)
      by (rewrite Hs; discriminate).
    destruct (@all_rows_built pubs st (String c s) Hb) as (rows & Hrows & Hlen).
    rewrite <- Hs in Hrows.
    rewrite (results_nonblank nltk strip st query_arg page_arg per_page_arg Hq Hrows).
    destruct (Z.eqb_spec (App.args_get per_page_arg App.DEFAULT_RESULTS_PER_PAGE) 0)
      as [Hz|Hnz].
    + split; [|discriminate]. intros e. split.
      * intros [= <-]. repeat split; [discriminate|exact Hz].
      * intros (-> & _ & _). reflexivity.
    + split.
      * intros e. split; [discriminate|]. intros (_ & _ & Hz). contradiction.
      * intros ctx [= <-]. cbn [App.paginate App.c_total_results]. rewrite Hlen.
        destruct (preprocess_text nltk (String c s)); reflexivity.
Qed.

End ResultsView.

Section DisplayedScore.
Variable nltk : Nltk.

Lemma rank_documents_rounded {F : Type} `{FloatOps F} (self : InvertedIndexer F)
    (query : string) (top_n : option Z) (results : list (Ranked F)) (r : Ranked F) :
  rank_documents nltk self query top_n = Ok results ->
  In r results -> exists s, r_score r = fround4 s.
Proof.
  rewrite rank_documents_bind.
  destruct (preprocess_text nltk query) as [|term terms].
  - intros [= <-] [].
  - destruct (map_result (result_entry self) (ranked_docs self (term :: terms)))
      as [full|e] eqn:Hfull; cbn [bind]; [|discriminate].
    intros [= <-] Hr. rewrite truncate_kept in Hr. apply In_firstn in Hr.
    apply map_result_ok_iff in Hfull.
    apply Forall2_flip in Hfull.
    destruct (@Forall2_In_l _ _ _ _ _ r Hfull Hr) as ([d s] & _ & He).
    cbn in He. unfold result_entry in He.
    destruct (nth_error (documents self) d); [|discriminate].
    injection He as <-. exists s. reflexivity.
Qed.

(** X16.  The displayed score of every result is its score: the ranker has
    rounded the score to four decimals, and rounding it again for display
    changes nothing. *)
Theorem score_display_is_score (self : InvertedIndexer R) (query : string)
    (rows : list (App.Row R)) :
  App.all_rows nltk self query = Ok rows ->
  Forall (fun row => App.row_score_display row = App.row_score row) rows.
Proof.
  unfold App.all_rows.
  destruct (rank_documents nltk self query None) as [results|e] eqn:Hrank;
    cbn [bind]; [|discriminate].
  intros Hrows. apply map_result_ok_iff in Hrows. apply Forall_forall.
  intros row Hrow. apply Forall2_flip in Hrows.
  destruct (@Forall2_In_l _ _ _ _ _ row Hrows Hrow) as (r & Hr & Hadd).
  cbn in Hadd. unfold App.add_display in Hadd.
  destruct (author_names (d_authors (r_doc r))); cbn [bind] in Hadd; [|discriminate].
  injection Hadd as <-. cbn [App.row_score_display App.row_score].
  destruct (@rank_documents_rounded R _ self query None results r Hrank Hr) as [s ->].
  apply round4_idempotent.
Qed.

End DisplayedScore.

(** The index of the two publications, and the rows of a query on it. *)
Lemma toy_index_built : build_index Toy.nltk Toy.corpus init = Ok Toy.index.
Proof. vm_compute; reflexivity. Defined.

Lemma toy_rows :
  exists rows,
    App.all_rows Toy.nltk Toy.index
      (PyStr.strip_whitespace (App.args_get (Some " growth banking ") EmptyString))
    = Ok rows
    /\ List.length rows = 2.
Proof.
  destruct (@all_rows_built R _ Toy.nltk Toy.corpus Toy.index
              (PyStr.strip_whitespace " growth banking ") toy_index_built)
    as (rows & Hrows & Hlen).
  exists rows. split; [exact Hrows|]. exact Hlen.
Defined.

Lemma toy_query_not_blank :
  PyStr.strip_whitespace (App.args_get (Some " growth banking ") EmptyString)
  <> EmptyString.
Proof. vm_compute. discriminate. Defined.

Lemma result_pages_partition_witness :
  exists rows,
    App.all_rows Toy.nltk Toy.index
      (PyStr.strip_whitespace (App.args_get (Some " growth banking ") EmptyString))
    = Ok rows
    /\ exists total_pages,
         (forall page_arg, exists ctx,
             App.results Toy.nltk PyStr.strip_whitespace Toy.index
                         (Some " growth banking ") page_arg (Some 1%Z)
             = App.Rendered ctx
             /\ App.c_total_pages ctx = total_pages)
         /\ List.concat
              (map (fun page =>
                      App.shown (App.results Toy.nltk PyStr.strip_whitespace Toy.index
                                             (Some " growth banking ") (Some page)
                                             (Some 1%Z)))
                   (App.range 1 (total_pages + 1)))
            = rows.
Proof.
  destruct toy_rows as (rows & Hrows & _). exists rows. split; [exact Hrows|].
  apply (@result_pages_partition R _ Toy.nltk PyStr.strip_whitespace Toy.index
           (Some " growth banking ") (Some 1%Z) rows toy_query_not_blank Hrows).
  reflexivity.
Defined.

Lemma result_page_size_witness :
  exists rows ctx,
    App.all_rows Toy.nltk Toy.index
      (PyStr.strip_whitespace (App.args_get (Some " growth banking ") EmptyString))
    = Ok rows
    /\ App.results Toy.nltk PyStr.strip_whitespace Toy.index
                   (Some " growth banking ") (Some 7%Z) (Some 1%Z)
       = App.Rendered ctx
    /\ App.c_current_page ctx = 2%Z
    /\ List.length (App.c_paginated_results ctx) = 1.
Proof.
  destruct toy_rows as (rows & Hrows & Hlen). exists rows.
  destruct (@result_page_size R _ Toy.nltk PyStr.strip_whitespace Toy.index
              (Some " growth banking ") (Some 7%Z) (Some 1%Z) rows
              toy_query_not_blank Hrows eq_refl)
    as (ctx & Hres & Htotal & _ & Hcur & Hsize & Hne).
  exists ctx. split; [exact Hrows|]. split; [exact Hres|].
  assert (Hrows' : rows <> []) by (destruct rows; [discriminate Hlen|discriminate]).
  destruct (Hne Hrows') as (_ & Hpages).
  cbn [App.args_get] in *. rewrite Htotal, Hlen in *. split; lia.
Defined.

Lemma page_range_window_witness :
  exists rows ctx,
    App.all_rows Toy.nltk Toy.index
      (PyStr.strip_whitespace (App.args_get (Some " growth banking ") EmptyString))
    = Ok rows
    /\ App.results Toy.nltk PyStr.strip_whitespace Toy.index
                   (Some " growth banking ") (Some 1%Z) (Some 1%Z)
       = App.Rendered ctx
    /\ In (App.c_current_page ctx) (App.c_page_range ctx)
    /\ List.length (App.c_page_range ctx) <= 5.
Proof.
  destruct toy_rows as (rows & Hrows & _). exists rows.
  destruct (@page_range_window R _ Toy.nltk PyStr.strip_whitespace Toy.index
              (Some " growth banking ") (Some 1%Z) (Some 1%Z) rows
              toy_query_not_blank Hrows ltac:(discriminate))
    as (ctx & Hres & _ & Hin & Hlen).
  exists ctx. repeat split; assumption.
Defined.

Lemma negative_page_size_witness :
  exists rows ctx,
    App.all_rows Toy.nltk Toy.index
      (PyStr.strip_whitespace (App.args_get (Some " growth banking ") EmptyString))
    = Ok rows
    /\ App.results Toy.nltk PyStr.strip_whitespace Toy.index
                   (Some " growth banking ") (Some 1%Z) (Some (-1)%Z)
       = App.Rendered ctx
    /\ App.c_total_results ctx = 2%Z
    /\ List.length (App.c_paginated_results ctx) = 1.
Proof.
  destruct toy_rows as (rows & Hrows & Hlen). exists rows.
  destruct (@negative_page_size R _ Toy.nltk PyStr.strip_whitespace Toy.index
              (Some " growth banking ") (Some 1%Z) (Some (-1)%Z) rows
              toy_query_not_blank Hrows eq_refl)
    as (ctx & Hres & _ & _ & _ & Htotal & Hpage).
  exists ctx. split; [exact Hrows|]. split; [exact Hres|].
  rewrite Htotal, Hpage, Hlen. split; [reflexivity|].
  rewrite length_firstn, Hlen. reflexivity.
Defined.

Lemma results_on_built_witness :
  build_index Toy.nltk Toy.corpus init = Ok Toy.index
  /\ App.results Toy.nltk PyStr.strip_whitespace Toy.index
                 (Some " growth banking ") None (Some 0%Z)
     = App.Failed App.ZeroDivisionError.
Proof.
  split; [exact toy_index_built|].
  apply (proj1 (@results_on_built R _ Toy.nltk PyStr.strip_whitespace Toy.corpus
                  Toy.index (Some " growth banking ") None (Some 0%Z)
                  toy_index_built)).
  split; [reflexivity|]. split; [exact toy_query_not_blank|reflexivity].
Defined.

Lemma score_display_is_score_witness :
  exists rows,
    App.all_rows Toy.nltk Toy.index
      (PyStr.strip_whitespace (App.args_get (Some " growth banking ") EmptyString))
    = Ok rows
    /\ Forall (fun row => App.row_score_display row = App.row_score row) rows.
Proof.
  destruct toy_rows as (rows & Hrows & _). exists rows. split; [exact Hrows|].
  exact (@score_display_is_score Toy.nltk Toy.index _ rows Hrows).
Defined.

(** * The crawler *)

Section StripFacts.
Variable chars : list ascii.

Local Abbreviation lstrip_list := (PyStr.lstrip_list chars).

Lemma lstrip_chars (s : string) :
  list_ascii_of_string (PyStr.lstrip chars s) = lstrip_list (list_ascii_of_string s).
Proof.
  induction s as [|c s IH]; [reflexivity|]. cbn [PyStr.lstrip list_ascii_of_string PyStr.lstrip_list].
  destruct (existsb (Ascii.eqb c) chars); [exact IH|reflexivity].
Qed.

Lemma reverse_chars (s : string) :
  list_ascii_of_string (PyStr.reverse s) = rev (list_ascii_of_string s).
Proof. unfold PyStr.reverse. apply list_ascii_of_string_of_list_ascii. Qed.

Lemma strip_chars (s : string) :
  list_ascii_of_string (PyStr.strip chars s)
  = rev (lstrip_list (rev (lstrip_list (list_ascii_of_string s)))).
Proof.
  unfold PyStr.strip, PyStr.rstrip.
  now rewrite reverse_chars, lstrip_chars, reverse_chars, lstrip_chars.
Qed.

Lemma In_lstrip_list (c : ascii) (l : list ascii) : In c (lstrip_list l) -> In c l.
Proof.
  induction l as [|x l IH]; [tauto|]. cbn [PyStr.lstrip_list].
  destruct (existsb (Ascii.eqb x) chars); [right; auto|auto].
Qed.

Lemma lstrip_list_head (l : list ascii) :
  lstrip_list l = []
  \/ exists c l', lstrip_list l = c :: l' /\ existsb (Ascii.eqb c) chars = false.
Proof.
  induction l as [|x l IH]; [now left|]. cbn [PyStr.lstrip_list].
  destruct (existsb (Ascii.eqb x) chars) eqn:Hx; [exact IH|].
  right. exists x, l. split; [reflexivity|exact Hx].
Qed.

Lemma lstrip_list_fixed (c : ascii) (l : list ascii) :
  existsb (Ascii.eqb c) chars = false -> lstrip_list (c :: l) = c :: l.
Proof. intros Hc. cbn [PyStr.lstrip_list]. now rewrite Hc. Qed.

Lemma lstrip_list_idempotent (l : list ascii) :
  lstrip_list (lstrip_list l) = lstrip_list l.
Proof.
  destruct (lstrip_list_head l) as [->|(c & l' & -> & Hc)]; [reflexivity|].
  now apply lstrip_list_fixed.
Qed.

Lemma lstrip_list_snoc (l : list ascii) (c : ascii) :
  existsb (Ascii.eqb c) chars = false ->
  lstrip_list (l ++ [c]) = lstrip_list l ++ [c].
Proof.
  intros Hc. induction l as [|x l IH]; cbn [app PyStr.lstrip_list].
  - now rewrite Hc.
  - destruct (existsb (Ascii.eqb x) chars); [exact IH|reflexivity].
Qed.

Lemma strip_list_fixed (l : list ascii) :
  let stripped := rev (lstrip_list (rev (lstrip_list l))) in
  rev (lstrip_list (rev (lstrip_list stripped))) = stripped.
Proof.
  cbv zeta.
  destruct (lstrip_list_head l) as [->|(c & l' & -> & Hc)]; [reflexivity|].
  cbn [rev]. rewrite (@lstrip_list_snoc (rev l') c Hc), rev_app_distr. cbn [rev app].
  rewrite (@lstrip_list_fixed c _ Hc). cbn [rev].
  rewrite rev_involutive, (@lstrip_list_snoc _ c Hc), lstrip_list_idempotent.
  now rewrite rev_app_distr.
Qed.

Lemma string_of_chars_inj (s t : string) :
  list_ascii_of_string s = list_ascii_of_string t -> s = t.
Proof.
  intros Heq. rewrite <- (string_of_list_ascii_of_string s),
                <- (string_of_list_ascii_of_string t).
  now rewrite Heq.
Qed.

Lemma strip_idempotent (s : string) :
  PyStr.strip chars (PyStr.strip chars s) = PyStr.strip chars s.
Proof.
  apply string_of_chars_inj. rewrite strip_chars, (strip_chars s).
  apply strip_list_fixed.
Qed.

Lemma In_strip (c : ascii) (s : string) :
  In c (list_ascii_of_string (PyStr.strip chars s)) -> In c (list_ascii_of_string s).
Proof.
  rewrite strip_chars. intros Hin. apply in_rev in Hin.
  apply In_lstrip_list in Hin. apply in_rev in Hin. now apply In_lstrip_list in Hin.
Qed.

End StripFacts.

Lemma split_at_no_sep (sep : ascii) (s : string) (word : list ascii) (piece : string) :
  ~ In sep word ->
  In piece (PyStr.split_at sep s word) ->
  ~ In sep (list_ascii_of_string piece).
Proof.
  revert word. induction s as [|c s IH]; intros word Hword; cbn [PyStr.split_at].
  - intros [<-|[]]. rewrite list_ascii_of_string_of_list_ascii.
    intros Hin. apply in_rev in Hin. contradiction.
  - destruct (Ascii.eqb_spec c sep) as [->|Hne].
    + intros [<-|Hin].
      * rewrite list_ascii_of_string_of_list_ascii.
        intros Hin. apply in_rev in Hin. contradiction.
      * apply (IH [] (fun H => H) Hin).
    + apply IH. intros [Heq|Hin]; [congruence|contradiction].
Qed.

Section CrawlerFacts.
Variable urljoin : string -> string -> result string.

Lemma In_text_authors (element : string) (a : Crawler.AuthorRecord) :
  In a (Crawler.text_authors element)
  <-> exists possible_name,
        In possible_name (PyStr.split ","%char element)
        /\ Crawler.ar_name a = PyStr.strip [" "%char; ","%char] possible_name
        /\ Crawler.ar_name a <> EmptyString
        /\ Crawler.ar_url a = None.
Proof.
  unfold Crawler.text_authors. rewrite in_flat_map. split.
  - intros (possible_name & Hpiece & Hin). exists possible_name.
    destruct (PyStr.strip [" "%char; ","%char] possible_name) as [|c s] eqn:Hs;
      [destruct Hin|].
    destruct Hin as [<-|[]]. cbn. repeat split; [exact Hpiece|discriminate].
  - intros (possible_name & Hpiece & Hname & Hne & Hurl). exists possible_name.
    split; [exact Hpiece|]. rewrite <- Hname.
    destruct a as [name url]. cbn in *. subst url.
    destruct name as [|c s]; [congruence|]. now left.
Qed.

Lemma In_concat_map_result {A B : Type} (f : A -> result (list B)) (l : list A)
    (ys : list (list B)) (b : B) :
  map_result f l = Ok ys ->
  (In b (List.concat ys) <-> exists x y, In x l /\ f x = Ok y /\ In b y).
Proof.
  intros Hmap. apply map_result_ok_iff in Hmap.
  induction Hmap as [|x y l ys Hxy _ IH]; cbn [List.concat].
  - split; [intros []|intros (x & y & [] & _)].
  - rewrite in_app_iff, IH. split.
    + intros [Hb|(x' & y' & Hx' & Hf & Hb)].
      * exists x, y. split; [now left|]. split; assumption.
      * exists x', y'. split; [now right|]. split; assumption.
    + intros (x' & y' & [<-|Hx'] & Hf & Hb).
      * left. rewrite Hxy in Hf. injection Hf as <-. exact Hb.
      * right. exists x', y'. repeat split; assumption.
Qed.

Lemma In_element_authors (base_url : string) (element : Crawler.Element)
    (records : list Crawler.AuthorRecord) (a : Crawler.AuthorRecord) :
  Crawler.element_authors urljoin base_url element = Ok records ->
  (In a records
   <-> match element with
       | Crawler.Anchor name href =>
           name <> EmptyString
           /\ Crawler.ar_name a = name
           /\ exists url,
                urljoin base_url (pub_get href EmptyString) = Ok url
                /\ Crawler.ar_url a = Some url
       | Crawler.Text s =>
           exists possible_name,
             In possible_name (PyStr.split ","%char s)
             /\ Crawler.ar_name a = PyStr.strip [" "%char; ","%char] possible_name
             /\ Crawler.ar_name a <> EmptyString
             /\ Crawler.ar_url a = None
       | Crawler.OtherTag => False
       end).
Proof.
  destruct element as [name href|s|]; cbn [Crawler.element_authors].
  - destruct (urljoin base_url (pub_get href EmptyString)) as [url|e] eqn:Hurl;
      cbn [bind]; [|discriminate].
    destruct name as [|c name]; intros [= <-].
    + split; [intros []|intros (Hne & _); congruence].
    + split.
      * intros [<-|[]]. cbn. split; [discriminate|]. split; [reflexivity|].
        exists url. split; reflexivity.
      * intros (_ & Hname & url' & [= <-] & Hurl'). left.
        destruct a as [name' url']. cbn in *. now subst.
  - intros [= <-]. apply In_text_authors.
  - intros [= <-]. reflexivity.
Qed.

Lemma element_authors_raise (base_url : string) (element : Crawler.Element) (e : exn) :
  Crawler.element_authors urljoin base_url element = Raise e ->
  exists name href,
    element = Crawler.Anchor name href
    /\ urljoin base_url (pub_get href EmptyString) = Raise e.
Proof.
  destruct element as [name href|s|]; cbn [Crawler.element_authors]; try discriminate.
  destruct (urljoin base_url (pub_get href EmptyString)) as [url|e'] eqn:Hurl;
    cbn [bind].
  - destruct name; discriminate.
  - intros [= <-]. now exists name, href.
Qed.

(** X17.  What [extract_authors] returns.  When it returns a list, the
    records are exactly these: for every link of the author paragraph with
    a text that is not empty, the text as the name with the url joined from
    the href of that link (the empty string when it has none); for every
    string of the paragraph and every piece of it between commas that is
    not empty once blanks and commas are stripped from its ends, the
    stripped piece as the name, with no url.  So every name is not empty,
    and a name read from a string holds no comma and has nothing left to
    strip.  It raises only when [urljoin] raises on the href of a link of
    the paragraph, and then raises the same. *)
Theorem extract_authors_names (detail_soup : Crawler.DetailPage) (base_url : string) :
  match Crawler.extract_authors urljoin detail_soup base_url with
  | Ok authors =>
      (forall a,
          In a authors
          <-> exists contents element,
                Crawler.persons detail_soup = Some contents
                /\ In element contents
                /\ match element with
                   | Crawler.Anchor name href =>
                       name <> EmptyString
                       /\ Crawler.ar_name a = name
                       /\ exists url,
                            urljoin base_url (pub_get href EmptyString) = Ok url
                            /\ Crawler.ar_url a = Some url
                   | Crawler.Text s =>
                       exists possible_name,
                         In possible_name (PyStr.split ","%char s)
                         /\ Crawler.ar_name a
                            = PyStr.strip [" "%char; ","%char] possible_name
                         /\ Crawler.ar_name a <> EmptyString
                         /\ Crawler.ar_url a = None
                   | Crawler.OtherTag => False
                   end)
      /\ (forall a,
             In a authors ->
             Crawler.ar_name a <> EmptyString
             /\ (Crawler.ar_url a = None ->
                 ~ In ","%char (list_ascii_of_string (Crawler.ar_name a))
                 /\ PyStr.strip [" "%char; ","%char] (Crawler.ar_name a)
                    = Crawler.ar_name a))
  | Raise e =>
      exists contents name href,
        Crawler.persons detail_soup = Some contents
        /\ In (Crawler.Anchor name href) contents
        /\ urljoin base_url (pub_get href EmptyString) = Raise e
  end.
Proof.
  unfold Crawler.extract_authors.
  destruct (Crawler.persons detail_soup) as [contents|].
  - destruct (map_result (Crawler.element_authors urljoin base_url) contents)
      as [records|e] eqn:Hmap; cbn [bind].
    + assert (Hall : forall a,
                 In a (List.concat records)
                 <-> exists element,
                       In element contents
                       /\ match element with
                          | Crawler.Anchor name href =>
                              name <> EmptyString
                              /\ Crawler.ar_name a = name
                              /\ exists url,
                                   urljoin base_url (pub_get href EmptyString) = Ok url
                                   /\ Crawler.ar_url a = Some url
                          | Crawler.Text s =>
                              exists possible_name,
                                In possible_name (PyStr.split ","%char s)
                                /\ Crawler.ar_name a
                                   = PyStr.strip [" "%char; ","%char] possible_name
                                /\ Crawler.ar_name a <> EmptyString
                                /\ Crawler.ar_url a = None
                          | Crawler.OtherTag => False
                          end).
      { intros a. rewrite (In_concat_map_result _ _ a Hmap). split.
        - intros (element & rs & Hin & Hrs & Ha). exists element.
          split; [exact Hin|]. now apply (In_element_authors _ _ a Hrs).
        - intros (element & Hin & Ha).
          assert (Hok := proj1 (map_result_ok_iff _ _ _) Hmap).
          destruct (@Forall2_In_l _ _ _ _ _ element Hok Hin) as (rs & _ & Hrs).
          exists element, rs. split; [exact Hin|]. split; [exact Hrs|].
          now apply (In_element_authors _ _ a Hrs). }
      split.
      * intros a. rewrite Hall. split.
        -- intros (element & Hin & Ha). now exists contents, element.
        -- intros (contents' & element & [= <-] & Hin & Ha). now exists element.
      * intros a Ha. apply Hall in Ha. destruct Ha as (element & _ & Ha).
        destruct element as [name href|s|]; [| |destruct Ha].
        -- destruct Ha as (Hne & -> & url & _ & Hurl). split; [exact Hne|].
           rewrite Hurl. discriminate.
        -- destruct Ha as (possible_name & Hpiece & Hname & Hne & _).
           split; [exact Hne|]. intros _. rewrite Hname. split.
           ++ intros Hin. apply In_strip in Hin. revert Hin.
              apply (@split_at_no_sep ","%char s [] possible_name);
                [intros []|exact Hpiece].
           ++ apply strip_idempotent.
    + apply map_result_raise in Hmap. destruct Hmap as (element & Hin & Hraise).
      apply element_authors_raise in Hraise.
      destruct Hraise as (name & href & -> & Hurl).
      now exists contents, name, href.
  - split.
    + intros a. split; [intros []|intros (contents & _ & Hc & _); discriminate].
    + intros a [].
Qed.

Lemma first_success_spec {A : Type} (outcome : nat -> option A) (attempt left : nat) :
  match Crawler.first_success outcome attempt left with
  | Some page =>
      exists k, attempt <= k < attempt + left
                /\ outcome k = Some page
                /\ forall j, attempt <= j < k -> outcome j = None
  | None => forall k, attempt <= k < attempt + left -> outcome k = None
  end.
Proof.
  revert attempt. induction left as [|left IH]; intros attempt;
    cbn [Crawler.first_success].
  - intros k Hk. lia.
  - destruct (outcome attempt) as [page|] eqn:Hout.
    + exists attempt. split; [lia|]. split; [exact Hout|]. intros j Hj. lia.
    + specialize (IH (S attempt)).
      destruct (Crawler.first_success outcome (S attempt) left) as [page|].
      * destruct IH as (k & Hk & Hpage & Hbefore). exists k.
        split; [lia|]. split; [exact Hpage|]. intros j Hj.
        destruct (Nat.eq_dec j attempt) as [->|Hne]; [exact Hout|apply Hbefore; lia].
      * intros k Hk.
        destruct (Nat.eq_dec k attempt) as [->|Hne]; [exact Hout|apply IH; lia].
Qed.

(** X18.  What phase two makes of a record.  The first of the three
    attempts that does not end in a caught exception decides, whatever
    later attempts would give.  If it loads the page, the record keeps its
    title, url and date and gets the authors and the abstract extracted from
    that page, and if [extract_authors] raises on that page, so does the
    loop.  If it raises an exception that the loop does not catch, so does
    the loop.  If all three attempts end in a caught exception, the record
    keeps its title, url and date and gets no author and an empty
    abstract. *)
Theorem enrich_first_success (record : Crawler.Listed)
    (outcome : nat -> option (result Crawler.DetailPage)) :
  (exists k loaded,
      k < 3
      /\ outcome k = Some loaded
      /\ (forall j, j < k -> outcome j = None)
      /\ Crawler.enrich urljoin record outcome
         = match loaded with
           | Ok detail_soup =>
               match Crawler.extract_authors urljoin detail_soup
                                             Crawler.PORTAL_ROOT with
               | Ok authors =>
                   Ok {| Crawler.e_title := Crawler.li_title record;
                         Crawler.e_url := Crawler.li_url record;
                         Crawler.e_date := Crawler.li_date record;
                         Crawler.e_authors := authors;
                         Crawler.e_abstract :=
                           Crawler.extract_abstract detail_soup |}
               | Raise e => Raise e
               end
           | Raise e => Raise e
           end)
  \/ ((forall k, k < 3 -> outcome k = None)
      /\ Crawler.enrich urljoin record outcome
         = Ok {| Crawler.e_title := Crawler.li_title record;
                 Crawler.e_url := Crawler.li_url record;
                 Crawler.e_date := Crawler.li_date record;
                 Crawler.e_authors := [];
                 Crawler.e_abstract := EmptyString |}).
Proof.
  unfold Crawler.enrich, Crawler.retry.
  assert (Hspec := first_success_spec outcome 0 Crawler.MAX_RETRY_ATTEMPTS).
  destruct (Crawler.first_success outcome 0 Crawler.MAX_RETRY_ATTEMPTS)
    as [loaded|].
  - destruct Hspec as (k & Hk & Hpage & Hbefore). left.
    exists k, loaded. change Crawler.MAX_RETRY_ATTEMPTS with 3 in Hk.
    split; [lia|]. split; [exact Hpage|].
    split; [intros j Hj; apply Hbefore; lia|].
    destruct loaded as [detail_soup|e]; [|reflexivity].
    destruct (Crawler.extract_authors urljoin detail_soup Crawler.PORTAL_ROOT);
      reflexivity.
  - right. split; [|reflexivity]. intros k Hk. apply Hspec.
    change Crawler.MAX_RETRY_ATTEMPTS with 3. lia.
Qed.

End CrawlerFacts.

Lemma extract_authors_names_witness :
  Crawler.extract_authors ToyPortal.urljoin ToyPortal.detail1 Crawler.PORTAL_ROOT
  = Ok [ {| Crawler.ar_name := "Alice";
            Crawler.ar_url := Some "https://pureportal.coventry.ac.uk/persons/alice" |};
         {| Crawler.ar_name := "Bob Smith"; Crawler.ar_url := None |} ]
  /\ ~ In ","%char (list_ascii_of_string "Bob Smith").
Proof.
  assert (Hrun : Crawler.extract_authors ToyPortal.urljoin ToyPortal.detail1
                                         Crawler.PORTAL_ROOT
                 = Ok [ {| Crawler.ar_name := "Alice";
                           Crawler.ar_url :=
                             Some "https://pureportal.coventry.ac.uk/persons/alice" |};
                        {| Crawler.ar_name := "Bob Smith"; Crawler.ar_url := None |} ])
    by (vm_compute; reflexivity).
  split; [exact Hrun|].
  assert (Hspec := extract_authors_names ToyPortal.urljoin ToyPortal.detail1
                     Crawler.PORTAL_ROOT).
  rewrite Hrun in Hspec. destruct Hspec as [_ Hnames].
  exact (proj1 (proj2 (Hnames {| Crawler.ar_name := "Bob Smith";
                                 Crawler.ar_url := None |}
                              ltac:(right; now left))
                      eq_refl)).
Defined.

Section PhaseOne.
Variable urljoin : string -> string -> result string.
Variable listing : string -> nat -> option (result Crawler.ListingPage).
Variable sites : list string.
Hypothesis listing_sites : forall url attempt, ~ In url sites -> listing url attempt = None.

Lemma retry_sites (url : string) :
  Crawler.retry (listing url) <> None -> In url sites.
Proof.
  intros Hretry. destruct (in_dec string_dec url sites) as [Hin|Hout]; [exact Hin|].
  exfalso. apply Hretry. unfold Crawler.retry.
  assert (Hspec := first_success_spec (listing url) 0 Crawler.MAX_RETRY_ATTEMPTS).
  destruct (Crawler.first_success (listing url) 0 Crawler.MAX_RETRY_ATTEMPTS);
    [|reflexivity].
  destruct Hspec as (k & _ & Hk & _). rewrite (listing_sites url k Hout) in Hk.
  discriminate.
Qed.

Lemma collect_item_raise (collected : list Crawler.Listed) (pub : Crawler.Item)
    (e : exn) :
  Crawler.collect_item urljoin collected pub = Raise e ->
  exists title_tag,
    Crawler.i_title_tag pub = Some title_tag
    /\ ((Crawler.t_a title_tag = Some None /\ e = KeyError)
        \/ exists href,
             Crawler.t_a title_tag = Some (Some href)
             /\ urljoin Crawler.PORTAL_ROOT href = Raise e).
Proof.
  unfold Crawler.collect_item.
  destruct (Crawler.i_title_tag pub) as [title_tag|]; [|discriminate].
  intros Hraise. exists title_tag. split; [reflexivity|]. revert Hraise.
  destruct (Crawler.t_a title_tag) as [[href|]|]; try discriminate.
  - destruct (urljoin Crawler.PORTAL_ROOT href) as [url|e'] eqn:Hurl; cbn [bind];
      [discriminate|].
    intros [= <-]. right. now exists href.
  - intros [= <-]. left. now split.
Qed.

Lemma collect_items_raise (pubs : list Crawler.Item) (collected : list Crawler.Listed)
    (e : exn) :
  for_each (fun collected pub => Crawler.collect_item urljoin collected pub)
           pubs collected = Raise e ->
  exists pub title_tag,
    In pub pubs
    /\ Crawler.i_title_tag pub = Some title_tag
    /\ ((Crawler.t_a title_tag = Some None /\ e = KeyError)
        \/ exists href,
             Crawler.t_a title_tag = Some (Some href)
             /\ urljoin Crawler.PORTAL_ROOT href = Raise e).
Proof.
  revert collected. induction pubs as [|pub pubs IH]; intros collected;
    cbn [for_each]; [discriminate|].
  destruct (Crawler.collect_item urljoin collected pub) as [collected'|e'] eqn:Hc;
    cbn [bind].
  - intros Hrest. destruct (IH _ Hrest) as (pub' & title_tag & Hin & Hrest').
    exists pub', title_tag. split; [now right|exact Hrest'].
  - intros [= <-]. destruct (collect_item_raise _ _ Hc) as (title_tag & Htag & He).
    exists pub, title_tag. split; [now left|]. split; assumption.
Qed.

Lemma collect_items_error (pubs : list Crawler.Item) (collected : list Crawler.Listed)
    (e : exn) :
  for_each (fun collected pub => Crawler.collect_item urljoin collected pub)
           pubs collected = Raise e ->
  Crawler.phase_one_error urljoin listing e.
Proof.
  intros Hraise. destruct (collect_items_raise _ _ Hraise)
    as (pub & title_tag & _ & _ & [[_ ->]|(href & _ & Hurl)]).
  - now left.
  - right. right. now exists href.
Qed.

Lemma visit_raise (current_page : string) (rest : list string) (st : Crawler.Frontier)
    (e : exn) :
  Crawler.visit urljoin listing current_page rest st = Raise e ->
  Crawler.phase_one_error urljoin listing e.
Proof.
  unfold Crawler.visit, Crawler.retry.
  assert (Hspec := first_success_spec (listing current_page) 0
                     Crawler.MAX_RETRY_ATTEMPTS).
  destruct (Crawler.first_success (listing current_page) 0
              Crawler.MAX_RETRY_ATTEMPTS) as [[soup|e0]|]; [| |discriminate].
  - destruct (for_each _ (Crawler.l_publications soup) _) as [collected|e'] eqn:Hc;
      cbn [bind].
    + destruct (Crawler.l_next_link soup) as [[href|]|]; try discriminate.
      destruct (urljoin Crawler.PORTAL_ROOT href) as [next_url|e'] eqn:Hurl;
        cbn [bind].
      * destruct (str_in _ _); discriminate.
      * intros [= <-]. right. right. now exists href.
    + intros [= <-]. exact (collect_items_error _ _ Hc).
  - intros [= <-]. destruct Hspec as (k & _ & Hk & _).
    right. left. now exists current_page, k.
Qed.

Lemma visit_ok (current_page : string) (rest : list string) (st st' : Crawler.Frontier) :
  Crawler.visit urljoin listing current_page rest st = Ok st' ->
  (Crawler.queue st' = rest
   /\ Crawler.discovered_pages st' = Crawler.discovered_pages st)
  \/ (exists next_url,
         Crawler.queue st' = rest ++ [next_url]
         /\ Crawler.discovered_pages st' = Crawler.discovered_pages st ++ [next_url]
         /\ str_in next_url (Crawler.discovered_pages st) = false
         /\ In current_page sites).
Proof.
  unfold Crawler.visit.
  destruct (Crawler.retry (listing current_page)) as [[soup|e0]|] eqn:Hretry.
  - assert (Hsite : In current_page sites)
      by (apply retry_sites; rewrite Hretry; discriminate).
    destruct (for_each _ (Crawler.l_publications soup) _) as [collected|e'];
      cbn [bind]; [|discriminate].
    destruct (Crawler.l_next_link soup) as [[href|]|].
    + destruct (urljoin Crawler.PORTAL_ROOT href) as [next_url|e']; cbn [bind];
        [|discriminate].
      destruct (str_in next_url (Crawler.discovered_pages st)) eqn:Hseen;
        intros [= <-]; cbn.
      * left. tauto.
      * right. exists next_url. tauto.
    + intros [= <-]. left. cbn. tauto.
    + intros [= <-]. left. cbn. tauto.
  - discriminate.
  - intros [= <-]. left. cbn. tauto.
Qed.

Lemma visit_unknown (current_page : string) (rest : list string) (st : Crawler.Frontier) :
  ~ In current_page sites ->
  Crawler.visit urljoin listing current_page rest st
  = Ok {| Crawler.queue := rest;
          Crawler.discovered_pages := Crawler.discovered_pages st;
          Crawler.collected_publications := Crawler.collected_publications st |}.
Proof.
  intros Hout. unfold Crawler.visit.
  destruct (Crawler.retry (listing current_page)) eqn:Hretry; [|reflexivity].
  exfalso. apply Hout. apply retry_sites. rewrite Hretry. discriminate.
Qed.

Lemma undiscovered_le (urls discovered : list string) (next_url : string) :
  Crawler.undiscovered urls (discovered ++ [next_url])
  <= Crawler.undiscovered urls discovered.
Proof.
  unfold Crawler.undiscovered. induction urls as [|u urls IH]; [reflexivity|].
  cbn [filter]. rewrite str_in_app.
  destruct (str_in u discovered); cbn [orb negb]; [exact IH|].
  destruct (str_in u [next_url]); cbn [negb List.length]; lia.
Qed.

Lemma undiscovered_lt (urls discovered : list string) (next_url : string) :
  In next_url urls ->
  str_in next_url discovered = false ->
  Crawler.undiscovered urls (discovered ++ [next_url])
  < Crawler.undiscovered urls discovered.
Proof.
  unfold Crawler.undiscovered. intros Hin Hnew.
  induction urls as [|u urls IH]; [destruct Hin|].
  assert (Hle := undiscovered_le urls discovered next_url).
  unfold Crawler.undiscovered in Hle.
  cbn [filter]. rewrite str_in_app. destruct Hin as [->|Hin].
  - rewrite Hnew. cbn [orb].
    assert (Hself : str_in next_url [next_url] = true)
      by (apply str_in_In; now left).
    rewrite Hself. cbn [negb List.length]. lia.
  - specialize (IH Hin).
    destruct (str_in u discovered); cbn [orb negb]; [exact IH|].
    destruct (str_in u [next_url]); cbn [negb List.length]; lia.
Qed.

Lemma phase_one_one_page (m : nat) :
  forall (st : Crawler.Frontier) (current_page : string),
    Crawler.queue st = [current_page] ->
    Crawler.undiscovered sites (Crawler.discovered_pages st) <= m ->
    exists r,
      (forall fuel, m + 3 <= fuel -> Crawler.phase_one urljoin fuel listing st = Some r)
      /\ (forall e, r = Raise e -> Crawler.phase_one_error urljoin listing e).
Proof.
  induction m as [|m IH]; intros st current_page Hq Hm.
  all: destruct (Crawler.visit urljoin listing current_page [] st) as [st'|e] eqn:Hvisit.
  all: try (exists (Raise e); split;
            [intros [|fuel] Hfuel; [lia|]; cbn [Crawler.phase_one];
             rewrite Hq, Hvisit; reflexivity
            |intros e' [= <-]; exact (visit_raise _ _ _ Hvisit)]).
  all: destruct (visit_ok _ _ _ Hvisit)
         as [[Hq' _]|(next_url & Hq' & Hd' & Hnew & Hsite)].
  all: try (exists (Ok (Crawler.collected_publications st')); split;
            [intros [|[|fuel]] Hfuel; try lia; cbn [Crawler.phase_one];
             rewrite Hq, Hvisit; cbn [Crawler.phase_one]; rewrite Hq'; reflexivity
            |discriminate]).
  all: destruct (in_dec string_dec next_url sites) as [Hin|Hout].
  all: try (exists (Ok (Crawler.collected_publications st')); split;
            [intros [|[|[|fuel]]] Hfuel; try lia; cbn [Crawler.phase_one];
             rewrite Hq, Hvisit; cbn [Crawler.phase_one]; rewrite Hq'; cbn [app];
             rewrite (@visit_unknown next_url [] st' Hout);
             cbn [Crawler.phase_one Crawler.queue]; reflexivity
            |discriminate]).
  - assert (Hlt := @undiscovered_lt sites _ next_url Hin Hnew). lia.
  - assert (Hlt := @undiscovered_lt sites _ next_url Hin Hnew).
    destruct (IH st' next_url Hq') as (r & Hr & He); [rewrite Hd'; lia|].
    exists r. split; [|exact He]. intros [|fuel] Hfuel; [lia|].
    cbn [Crawler.phase_one]. rewrite Hq, Hvisit. apply Hr. lia.
Qed.

Lemma undiscovered_length (urls discovered : list string) :
  Crawler.undiscovered urls discovered <= List.length urls.
Proof. unfold Crawler.undiscovered. apply filter_length_le. Qed.

(** X19.  On a portal of finitely many listing pages phase one ends, also
    when the next links run in a circle: a number of turns of the loop of
    three more than the number of pages is enough, and more turns change
    nothing.  It returns the collected records, or raises one of three
    things: the KeyError of a title link without href, an exception of the
    driver that the loop of the attempts does not catch (that of reading the
    page source among them), or what [urljoin] raises on an href. *)
Theorem phase_one_terminates :
  exists r,
    (forall fuel, List.length sites + 3 <= fuel ->
                  Crawler.phase_one urljoin fuel listing Crawler.start = Some r)
    /\ (forall e,
           r = Raise e ->
           e = KeyError
           \/ (exists url attempt, listing url attempt = Some (Raise e))
           \/ exists href, urljoin Crawler.PORTAL_ROOT href = Raise e).
Proof.
  destruct (@phase_one_one_page (List.length sites) Crawler.start
              Crawler.PORTAL_ENTRY_URL eq_refl (undiscovered_length _ _))
    as (r & Hr & He).
  exists r. split; [exact Hr|exact He].
Qed.

End PhaseOne.

Lemma toy_phase_one :
  Crawler.phase_one ToyPortal.urljoin 5 ToyPortal.listing Crawler.start
  = Some (Ok [ {| Crawler.li_title := "Economic growth models";
                  Crawler.li_url := "https://pureportal.coventry.ac.uk/pub/1";
                  Crawler.li_date := "2020" |};
               {| Crawler.li_title := "Finance markets";
                  Crawler.li_url := "https://pureportal.coventry.ac.uk/pub/2";
                  Crawler.li_date := "N/A" |} ]).
Proof. vm_compute. reflexivity. Defined.

Lemma phase_one_terminates_witness :
  (forall url attempt, ~ In url ToyPortal.sites -> ToyPortal.listing url attempt = None)
  /\ exists r,
       (forall fuel, 5 <= fuel ->
          Crawler.phase_one ToyPortal.urljoin fuel ToyPortal.listing Crawler.start
          = Some r)
       /\ r = Ok [ {| Crawler.li_title := "Economic growth models";
                      Crawler.li_url := "https://pureportal.coventry.ac.uk/pub/1";
                      Crawler.li_date := "2020" |};
                   {| Crawler.li_title := "Finance markets";
                      Crawler.li_url := "https://pureportal.coventry.ac.uk/pub/2";
                      Crawler.li_date := "N/A" |} ].
Proof.
  assert (Hsites : forall url attempt,
             ~ In url ToyPortal.sites -> ToyPortal.listing url attempt = None).
  { intros url attempt Hout. unfold ToyPortal.listing.
    destruct (String.eqb_spec url Crawler.PORTAL_ENTRY_URL) as [->|_].
    - exfalso. apply Hout. now left.
    - destruct (String.eqb_spec url ToyPortal.second_page) as [->|_]; [|reflexivity].
      exfalso. apply Hout. right. now left. }
  split; [exact Hsites|].
  destruct (phase_one_terminates ToyPortal.urljoin ToyPortal.listing ToyPortal.sites
              Hsites) as (r & Hr & _).
  exists r. split; [exact Hr|].
  assert (H5 := Hr 5 (le_n 5)). rewrite toy_phase_one in H5.
  injection H5 as <-. reflexivity.
Defined.

Section CrawlToIndex.
Context {F : Type} `{FloatOps F}.
Variable nltk : Nltk.
Variable urljoin : string -> string -> result string.

Lemma map_snd_combine_seq {A : Type} (k : nat) (l : list A) :
  map snd (combine (seq k (List.length l)) l) = l.
Proof.
  revert k. induction l as [|x l IH]; intros k; [reflexivity|].
  cbn [List.length seq combine map snd]. now rewrite IH.
Qed.

Lemma enrich_listed (record : Crawler.Listed)
    (outcome : nat -> option (result Crawler.DetailPage)) (e : Crawler.Enriched) :
  Crawler.enrich urljoin record outcome = Ok e ->
  {| Crawler.li_title := Crawler.e_title e;
     Crawler.li_url := Crawler.e_url e;
     Crawler.li_date := Crawler.e_date e |} = record.
Proof.
  unfold Crawler.enrich. destruct record as [title url date].
  destruct (Crawler.retry outcome) as [[detail_soup|e0]|].
  - destruct (Crawler.extract_authors urljoin detail_soup Crawler.PORTAL_ROOT);
      cbn [bind]; [|discriminate].
    now intros [= <-].
  - discriminate.
  - now intros [= <-].
Qed.

Lemma phase_two_listed (details : nat -> nat -> option (result Crawler.DetailPage))
    (collected : list Crawler.Listed) (enriched : list Crawler.Enriched) :
  Crawler.phase_two urljoin details collected = Ok enriched ->
  map (fun e => {| Crawler.li_title := Crawler.e_title e;
                   Crawler.li_url := Crawler.e_url e;
                   Crawler.li_date := Crawler.e_date e |})
      enriched
  = collected.
Proof.
  unfold Crawler.phase_two, enumerate. intros Hmap.
  apply map_result_ok_iff in Hmap.
  transitivity (map snd (combine (seq 0 (List.length collected)) collected));
    [|apply map_snd_combine_seq].
  remember (combine (seq 0 (List.length collected)) collected) as l eqn:Hl.
  clear Hl. induction Hmap as [|[idx record] e l enriched He _ IH]; [reflexivity|].
  cbn [map snd]. rewrite IH. f_equal. exact (enrich_listed _ _ He).
Qed.

Lemma publication_of_named (r : Crawler.Enriched) :
  authors_named (Crawler.publication_of r).
Proof.
  unfold authors_named, Crawler.publication_of. cbn [p_authors pub_get].
  apply Forall_forall. intros a Ha. apply in_map_iff in Ha.
  destruct Ha as (ar & <- & _). discriminate.
Qed.

Lemma documents_from_listed (k : nat) (records : list Crawler.Enriched) :
  map (fun doc => {| Crawler.li_title := d_title doc;
                     Crawler.li_url := d_url doc;
                     Crawler.li_date := d_date doc |})
      (documents_from k (map Crawler.publication_of records))
  = map (fun e => {| Crawler.li_title := Crawler.e_title e;
                     Crawler.li_url := Crawler.e_url e;
                     Crawler.li_date := Crawler.e_date e |})
        records.
Proof.
  unfold documents_from. revert k.
  induction records as [|e records IH]; intros k; [reflexivity|].
  cbn [map List.length seq combine]. f_equal. apply IH.
Qed.

Lemma crawl_output_built (details : nat -> nat -> option (result Crawler.DetailPage))
    (collected : list Crawler.Listed) (enriched : list Crawler.Enriched) :
  Crawler.phase_two urljoin details collected = Ok enriched ->
  exists indexer,
    build_index nltk (map Crawler.publication_of enriched) init = Ok indexer
    /\ map (fun doc => {| Crawler.li_title := d_title doc;
                          Crawler.li_url := d_url doc;
                          Crawler.li_date := d_date doc |})
           (documents indexer)
       = collected.
Proof.
  intros Hphase.
  destruct (build_index_built nltk (pubs := map Crawler.publication_of enriched))
    as (indexer & Hbuild & Hbuilt).
  { apply Forall_forall. intros pub Hpub. apply in_map_iff in Hpub.
    destruct Hpub as (r & <- & _). apply publication_of_named. }
  exists indexer. split; [exact Hbuild|].
  rewrite (bs_documents Hbuilt), documents_from_listed.
  exact (phase_two_listed _ _ Hphase).
Qed.

(** X20.  Whatever the pages of the publications hold, and whether they
    load or not: when phase two returns its records, they can be indexed.
    [build_index] does not raise on them, and the stored documents carry the
    titles, urls and dates of the listing, in the order of the listing. *)
Theorem crawl_output_indexable (details : nat -> nat -> option (result Crawler.DetailPage))
    (collected : list Crawler.Listed) (enriched : list Crawler.Enriched) :
  Crawler.phase_two urljoin details collected = Ok enriched ->
  exists indexer,
    build_index nltk (map Crawler.publication_of enriched) init = Ok indexer
    /\ map (fun doc => {| Crawler.li_title := d_title doc;
                          Crawler.li_url := d_url doc;
                          Crawler.li_date := d_date doc |})
           (documents indexer)
       = collected.
Proof. apply crawl_output_built. Qed.

Variable blob : Type.
Variable pickle_dumps : Pickled F -> blob.
Variable pickle_loads : blob -> result (Pickled F).

Lemma run_pipeline_cases (fuel : nat)
    (listing : string -> nat -> option (result Crawler.ListingPage))
    (details : nat -> nat -> option (result Crawler.DetailPage))
    (files : Scheduler.Files blob) (r : result (list Crawler.Listed)) :
  Crawler.phase_one urljoin fuel listing Crawler.start = Some r ->
  match r with
  | Raise _ =>
      Scheduler.run_pipeline nltk urljoin pickle_dumps fuel listing details files
      = Some (files, false)
  | Ok collected =>
      match Crawler.phase_two urljoin details collected with
      | Raise _ =>
          Scheduler.run_pipeline nltk urljoin pickle_dumps fuel listing details files
          = Some (files, false)
      | Ok enriched =>
          exists indexer,
            build_index nltk (map Crawler.publication_of enriched) init = Ok indexer
            /\ Scheduler.run_pipeline nltk urljoin pickle_dumps fuel listing details
                                      files
               = Some ({| Scheduler.json :=
                            PyDict.set Crawler.OUTPUT_FILE
                              (map Crawler.publication_of enriched)
                              (Scheduler.json files);
                          Scheduler.pickles :=
                            save_index pickle_dumps "inverted_index.pkl" indexer
                                       (Scheduler.pickles files) |},
                       true)
      end
  end.
Proof.
  intros Hphase. unfold Scheduler.run_pipeline, Crawler.crawl_portal.
  rewrite Hphase. destruct r as [collected|e]; [|reflexivity].
  destruct (Crawler.phase_two urljoin details collected) as [enriched|e] eqn:Htwo;
    [|reflexivity].
  destruct (crawl_output_built _ _ Htwo) as (indexer & Hbuild & _).
  exists indexer. split; [exact Hbuild|].
  unfold Scheduler.build_index_file.
  change "coventry_publications.json" with Crawler.OUTPUT_FILE.
  rewrite get_set_eq, Hbuild. reflexivity.
Qed.

(** X21.  A run of the pipeline, once phase one of the crawl has ended.  If
    phase one raised, or if phase two raises (which it does when
    [extract_authors] raises on a page, or the driver raises what the
    attempts do not catch), the run is logged as a failure and no file is
    touched, so the saved index is the one of the last good run.  If both
    phases return, the run cannot fail any more: the JSON file holds the
    crawled records, the index built from them in a new indexer is saved,
    and the run is logged as finished. *)
Theorem run_pipeline_outcome (fuel : nat)
    (listing : string -> nat -> option (result Crawler.ListingPage))
    (details : nat -> nat -> option (result Crawler.DetailPage))
    (files : Scheduler.Files blob) (r : result (list Crawler.Listed)) :
  Crawler.phase_one urljoin fuel listing Crawler.start = Some r ->
  match r with
  | Raise _ =>
      Scheduler.run_pipeline nltk urljoin pickle_dumps fuel listing details files
      = Some (files, false)
  | Ok collected =>
      match Crawler.phase_two urljoin details collected with
      | Raise _ =>
          Scheduler.run_pipeline nltk urljoin pickle_dumps fuel listing details files
          = Some (files, false)
      | Ok enriched =>
          exists indexer,
            build_index nltk (map Crawler.publication_of enriched) init = Ok indexer
            /\ Scheduler.run_pipeline nltk urljoin pickle_dumps fuel listing details
                                      files
               = Some ({| Scheduler.json :=
                            PyDict.set Crawler.OUTPUT_FILE
                              (map Crawler.publication_of enriched)
                              (Scheduler.json files);
                          Scheduler.pickles :=
                            save_index pickle_dumps "inverted_index.pkl" indexer
                                       (Scheduler.pickles files) |},
                       true)
      end
  end.
Proof. apply run_pipeline_cases. Qed.

Hypothesis pickle_round_trip : forall data, pickle_loads (pickle_dumps data) = Ok data.

(** X22.  After a run of the pipeline that is logged as finished, the
    application that starts on the written files loads the index that
    [build_index] builds from the JSON file the crawler wrote, whatever
    index file was there before. *)
Theorem pipeline_then_startup (fuel : nat)
    (listing : string -> nat -> option (result Crawler.ListingPage))
    (details : nat -> nat -> option (result Crawler.DetailPage))
    (files files' : Scheduler.Files blob) :
  Scheduler.run_pipeline nltk urljoin pickle_dumps fuel listing details files
  = Some (files', true) ->
  exists publications indexer,
    PyDict.get Crawler.OUTPUT_FILE (Scheduler.json files') = Some publications
    /\ build_index nltk publications init = Ok indexer
    /\ App.startup pickle_loads (Scheduler.pickles files') = Ok indexer.
Proof.
  intros Hrun.
  destruct (Crawler.phase_one urljoin fuel listing Crawler.start) as [r|] eqn:Hphase.
  - assert (Hcases := @run_pipeline_cases fuel listing details files r Hphase).
    destruct r as [collected|e].
    + destruct (Crawler.phase_two urljoin details collected) as [enriched|e].
      * destruct Hcases as (indexer & Hbuild & Hrun'). rewrite Hrun in Hrun'.
        injection Hrun' as ->.
        exists (map Crawler.publication_of enriched), indexer.
        cbn [Scheduler.json Scheduler.pickles]. split; [apply get_set_eq|].
        split; [exact Hbuild|]. unfold App.startup.
        now apply load_of_save.
      * rewrite Hrun in Hcases. discriminate.
    + rewrite Hrun in Hcases. discriminate.
  - unfold Scheduler.run_pipeline, Crawler.crawl_portal in Hrun.
    rewrite Hphase in Hrun. discriminate.
Qed.

End CrawlToIndex.

Lemma toy_phase_two :
  exists enriched,
    Crawler.phase_two ToyPortal.urljoin ToyPortal.details
      [ {| Crawler.li_title := "Economic growth models";
           Crawler.li_url := "https://pureportal.coventry.ac.uk/pub/1";
           Crawler.li_date := "2020" |};
        {| Crawler.li_title := "Finance markets";
           Crawler.li_url := "https://pureportal.coventry.ac.uk/pub/2";
           Crawler.li_date := "N/A" |} ]
    = Ok enriched
    /\ map Crawler.e_authors enriched
       = [ [ {| Crawler.ar_name := "Alice";
                Crawler.ar_url :=
                  Some "https://pureportal.coventry.ac.uk/persons/alice" |};
             {| Crawler.ar_name := "Bob Smith"; Crawler.ar_url := None |} ];
           [] ].
Proof. eexists. split; vm_compute; reflexivity. Defined.

Lemma crawl_output_indexable_witness :
  exists enriched indexer,
    Crawler.phase_two ToyPortal.urljoin ToyPortal.details
      [ {| Crawler.li_title := "Economic growth models";
           Crawler.li_url := "https://pureportal.coventry.ac.uk/pub/1";
           Crawler.li_date := "2020" |};
        {| Crawler.li_title := "Finance markets";
           Crawler.li_url := "https://pureportal.coventry.ac.uk/pub/2";
           Crawler.li_date := "N/A" |} ]
    = Ok enriched
    /\ build_index (F:=R) Toy.nltk (map Crawler.publication_of enriched) init
       = Ok indexer
    /\ map d_title (documents indexer) = ["Economic growth models"; "Finance markets"].
Proof.
  destruct toy_phase_two as (enriched & Htwo & _).
  destruct (@crawl_output_indexable R _ Toy.nltk ToyPortal.urljoin ToyPortal.details
              _ enriched Htwo) as (indexer & Hbuild & Hdocs).
  exists enriched, indexer. split; [exact Htwo|]. split; [exact Hbuild|].
  apply (f_equal (map Crawler.li_title)) in Hdocs.
  rewrite map_map in Hdocs. exact Hdocs.
Defined.

Lemma run_pipeline_outcome_witness :
  Crawler.phase_one ToyPortal.urljoin 5 ToyPortal.listing Crawler.start
  = Some (Ok [ {| Crawler.li_title := "Economic growth models";
                  Crawler.li_url := "https://pureportal.coventry.ac.uk/pub/1";
                  Crawler.li_date := "2020" |};
               {| Crawler.li_title := "Finance markets";
                  Crawler.li_url := "https://pureportal.coventry.ac.uk/pub/2";
                  Crawler.li_date := "N/A" |} ])
  /\ (exists files',
        Scheduler.run_pipeline (F:=R) Toy.nltk ToyPortal.urljoin Toy.pickle_dumps 5
          ToyPortal.listing ToyPortal.details
          {| Scheduler.json := []; Scheduler.pickles := [] |}
        = Some (files', true))
  /\ Scheduler.run_pipeline (F:=R) Toy.nltk ToyPortal.urljoin Toy.pickle_dumps 5
       ToyPortal.listing ToyPortal.details_refused
       {| Scheduler.json := []; Scheduler.pickles := [] |}
     = Some ({| Scheduler.json := []; Scheduler.pickles := [] |}, false).
Proof.
  split; [exact toy_phase_one|]. split.
  - assert (Hcase := @run_pipeline_outcome R _ Toy.nltk ToyPortal.urljoin (Pickled R)
                       Toy.pickle_dumps 5 ToyPortal.listing ToyPortal.details
                       {| Scheduler.json := []; Scheduler.pickles := [] |} _
                       toy_phase_one).
    cbv beta iota in Hcase. destruct toy_phase_two as (enriched & Htwo & _).
    rewrite Htwo in Hcase. destruct Hcase as (indexer & _ & Hrun).
    eexists. exact Hrun.
  - assert (Hcase := @run_pipeline_outcome R _ Toy.nltk ToyPortal.urljoin (Pickled R)
                       Toy.pickle_dumps 5 ToyPortal.listing ToyPortal.details_refused
                       {| Scheduler.json := []; Scheduler.pickles := [] |} _
                       toy_phase_one).
    cbv beta iota in Hcase.
    replace (Crawler.phase_two ToyPortal.urljoin ToyPortal.details_refused _)
      with (@Raise (list Crawler.Enriched) ValueError) in Hcase
      by (vm_compute; reflexivity).
    exact Hcase.
Defined.

Lemma pipeline_then_startup_witness :
  (forall data, Toy.pickle_loads (Toy.pickle_dumps data) = Ok data)
  /\ exists files',
       Scheduler.run_pipeline (F:=R) Toy.nltk ToyPortal.urljoin Toy.pickle_dumps 5
         ToyPortal.listing ToyPortal.details
         {| Scheduler.json := []; Scheduler.pickles := [] |}
       = Some (files', true)
       /\ exists publications indexer,
            PyDict.get Crawler.OUTPUT_FILE (Scheduler.json files') = Some publications
            /\ build_index Toy.nltk publications init = Ok indexer
            /\ App.startup Toy.pickle_loads (Scheduler.pickles files') = Ok indexer.
Proof.
  assert (Hpickle : forall data, Toy.pickle_loads (Toy.pickle_dumps data) = Ok data)
    by reflexivity.
  split; [exact Hpickle|].
  assert (Hcase := @run_pipeline_cases R _ Toy.nltk ToyPortal.urljoin (Pickled R)
                     Toy.pickle_dumps 5 ToyPortal.listing ToyPortal.details
                     {| Scheduler.json := []; Scheduler.pickles := [] |} _
                     toy_phase_one).
  cbv beta iota in Hcase. destruct toy_phase_two as (enriched & Htwo & _).
  rewrite Htwo in Hcase. destruct Hcase as (indexer & _ & Hrun).
  eexists. split; [exact Hrun|].
  exact (@pipeline_then_startup R _ Toy.nltk ToyPortal.urljoin (Pickled R)
           Toy.pickle_dumps Toy.pickle_loads Hpickle 5 ToyPortal.listing
           ToyPortal.details _ _ Hrun).
Defined.

(** * The order of the query terms *)

Section TermOrder.
Context {F : Type} `{FloatOps F}.

Lemma filter_Permutation {A : Type} (p : A -> bool) (l m : list A) :
  Permutation l m -> Permutation (filter p l) (filter p m).
Proof.
  induction 1 as [|x l m _ IH|x y l|l m n _ IH1 _ IH2]; cbn [filter].
  - constructor.
  - destruct (p x); [now constructor|exact IH].
  - destruct (p x), (p y); try reflexivity; apply perm_swap.
  - now transitivity (filter p m).
Qed.

Lemma dict_Permutation {K V : Type} `{KeyEq K} (a b : dict K V) :
  NoDup (keys a) -> NoDup (keys b) ->
  (forall k, get k a = get k b) ->
  Permutation a b.
Proof.
  intros Ha Hb Hget. apply NoDup_Permutation.
  - exact (NoDup_map_inv fst a Ha).
  - exact (NoDup_map_inv fst b Hb).
  - intros [k v]. split; intros Hin.
    + apply get_Some_In. rewrite <- Hget. now apply In_get_Some.
    + apply get_Some_In. rewrite Hget. now apply In_get_Some.
Qed.

Lemma query_vector_Permutation (self : InvertedIndexer F) (terms terms' : list string)
    (t : string) :
  Permutation terms terms' ->
  get t (calculate_query_vector self terms) = get t (calculate_query_vector self terms').
Proof.
  intros Hperm.
  rewrite (proj2 (query_vector_get self terms t)),
          (proj2 (query_vector_get self terms' t)).
  rewrite (proj1 (Permutation_count_occ string_dec terms terms') Hperm t).
  destruct (str_in t terms) eqn:Hin; destruct (str_in t terms') eqn:Hin';
    try reflexivity.
  - apply str_in_In in Hin. apply str_in_false in Hin'.
    exfalso. apply Hin'. now apply (Permutation_in _ Hperm).
  - apply str_in_In in Hin'. apply str_in_false in Hin.
    exfalso. apply Hin. now apply (Permutation_in _ (Permutation_sym Hperm)).
Qed.

(** X23.  Whatever the floats are, the order of the query terms changes
    nothing but the order of the entries of the query vector.  For two term
    lists that are permutations of each other, every term has the same
    weight in both query vectors, and for every document vector the terms
    shared with it, the products summed for the numerator of the cosine and
    the squares summed for the norm of the query are the same up to their
    order.  So the two rankings can differ only through the order in which
    floats are added. *)
Theorem term_order_permutes_summands (self : InvertedIndexer F)
    (terms terms' : list string) (document_vector : dict string F) :
  Permutation terms terms' ->
  let query_vector := calculate_query_vector self terms in
  let query_vector' := calculate_query_vector self terms' in
  (forall t, get t query_vector = get t query_vector')
  /\ Permutation (items query_vector) (items query_vector')
  /\ Permutation (common_terms query_vector document_vector)
                 (common_terms query_vector' document_vector)
  /\ Permutation
       (map (fun t => fmul (get_default t f0 query_vector)
                           (get_default t f0 document_vector))
            (common_terms query_vector document_vector))
       (map (fun t => fmul (get_default t f0 query_vector')
                           (get_default t f0 document_vector))
            (common_terms query_vector' document_vector))
  /\ Permutation (map fsqr (values query_vector)) (map fsqr (values query_vector')).
Proof.
  intros Hperm q q'.
  assert (Hget : forall t, get t q = get t q')
    by (intros t; now apply query_vector_Permutation).
  assert (Hitems : Permutation q q').
  { apply dict_Permutation; try apply NoDup_keys_query_vector. exact Hget. }
  assert (Hcommon : Permutation (common_terms q document_vector)
                                (common_terms q' document_vector)).
  { unfold common_terms. apply filter_Permutation. unfold keys.
    now apply Permutation_map. }
  split; [exact Hget|]. split; [exact Hitems|]. split; [exact Hcommon|]. split.
  - rewrite (map_ext (fun t => fmul (get_default t f0 q)
                                    (get_default t f0 document_vector))
                     (fun t => fmul (get_default t f0 q')
                                    (get_default t f0 document_vector))).
    + now apply Permutation_map.
    + intros t. unfold get_default. now rewrite Hget.
  - unfold values. now do 2 apply Permutation_map.
Qed.

End TermOrder.

Lemma term_order_permutes_summands_witness :
  Permutation ["growth"; "banking"; "growth"] ["banking"; "growth"; "growth"]
  /\ get "growth" (calculate_query_vector Toy.index ["growth"; "banking"; "growth"])
     = get "growth" (calculate_query_vector Toy.index ["banking"; "growth"; "growth"]).
Proof.
  assert (Hperm : Permutation ["growth"; "banking"; "growth"]
                              ["banking"; "growth"; "growth"])
    by apply perm_swap.
  split; [exact Hperm|].
  exact (proj1 (term_order_permutes_summands Toy.index [] Hperm) "growth").
Defined.

(** * Rare terms *)

Section RareTerms.
Local Open Scope R_scope.

(** X24.  With real arithmetic a term found in fewer documents has the
    higher inverse document frequency, strictly so; a term found in no
    document has the highest of all, [ln(N + 1) + 1]. *)
Theorem rarer_term_higher_idf (self : InvertedIndexer R) (t1 t2 : string) :
  (get_default t1 0 (term_document_counts self)
   < get_default t2 0 (term_document_counts self))%nat ->
  compute_inverse_document_frequency self t2
  < compute_inverse_document_frequency self t1
  /\ compute_inverse_document_frequency self t1
     <= ln (INR (List.length (documents self) + 1)) + 1.
Proof.
  intros Hlt. unfold compute_inverse_document_frequency.
  cbn [fadd fln fdiv of_nat f1 R_ops].
  set (n := INR (List.length (documents self) + 1)).
  set (df1 := INR (get_default t1 0%nat (term_document_counts self) + 1)).
  set (df2 := INR (get_default t2 0%nat (term_document_counts self) + 1)).
  assert (Hn : 0 < n) by (apply lt_0_INR; lia).
  assert (H1 : 1 <= df1) by (change 1 with (INR 1); apply le_INR; lia).
  assert (H12 : df1 < df2) by (apply lt_INR; lia).
  assert (Hq2 : 0 < n / df2) by (apply Rdiv_lt_0_compat; lra).
  assert (Hq1 : 0 < n / df1) by (apply Rdiv_lt_0_compat; lra).
  split.
  - apply Rplus_lt_compat_r. apply ln_increasing; [exact Hq2|].
    unfold Rdiv. apply Rmult_lt_compat_l; [exact Hn|].
    apply Rinv_lt_contravar; [nra|exact H12].
  - apply Rplus_le_compat_r.
    destruct (Req_dec df1 1) as [->|Hne].
    + unfold Rdiv. rewrite Rinv_1, Rmult_1_r. lra.
    + left. apply ln_increasing; [exact Hq1|].
      rewrite <- (Rmult_1_r n) at 2. unfold Rdiv.
      apply Rmult_lt_compat_l; [exact Hn|].
      rewrite <- Rinv_1. apply Rinv_lt_contravar; lra.
Qed.

End RareTerms.

Lemma rarer_term_higher_idf_witness :
  (compute_inverse_document_frequency Toy.index "growth"
   < compute_inverse_document_frequency Toy.index "zebra")%R.
Proof.
  apply (rarer_term_higher_idf Toy.index "zebra" "growth"). vm_compute. lia.
Defined.

(** * A listing entry without a link target *)

Section BrokenListing.
Context {F : Type} `{FloatOps F}.
Variable nltk : Nltk.
Variable urljoin : string -> string -> result string.
Variable blob : Type.
Variable pickle_dumps : Pickled F -> blob.

Lemma collect_items_no_href (pubs : list Crawler.Item) (collected : list Crawler.Listed) :
  (exists pub title_tag,
      In pub pubs
      /\ Crawler.i_title_tag pub = Some title_tag
      /\ Crawler.t_a title_tag = Some None) ->
  exists e,
    for_each (fun collected pub => Crawler.collect_item urljoin collected pub)
             pubs collected
    = Raise e.
Proof.
  intros (pub & title_tag & Hin & Htag & Ha). revert collected.
  induction pubs as [|pub0 pubs IH]; intros collected; [destruct Hin|].
  cbn [for_each].
  destruct (Crawler.collect_item urljoin collected pub0) as [collected'|e] eqn:Hc;
    cbn [bind].
  - destruct Hin as [->|Hin]; [|now apply IH].
    unfold Crawler.collect_item in Hc. rewrite Htag, Ha in Hc. discriminate.
  - now exists e.
Qed.

(** X25.  One entry on the first listing page whose title link has no href
    stops the whole run, whatever the other pages hold: phase one raises,
    the crawler writes no output file, no index is built, and the pipeline
    logs a failure and leaves every file as it was.  What is raised is the
    KeyError of that entry, unless [urljoin] has raised before on the href
    of a title link of the page; then it is what [urljoin] raised. *)
Theorem listing_without_href_stops_pipeline (fuel : nat)
    (listing : string -> nat -> option (result Crawler.ListingPage))
    (details : nat -> nat -> option (result Crawler.DetailPage))
    (files : Scheduler.Files blob) (soup : Crawler.ListingPage) :
  Crawler.retry (listing Crawler.PORTAL_ENTRY_URL) = Some (Ok soup) ->
  (exists pub title_tag,
      In pub (Crawler.l_publications soup)
      /\ Crawler.i_title_tag pub = Some title_tag
      /\ Crawler.t_a title_tag = Some None) ->
  exists e,
    Crawler.phase_one urljoin (S fuel) listing Crawler.start = Some (Raise e)
    /\ Crawler.crawl_portal urljoin (S fuel) listing details (Scheduler.json files)
       = Some (Raise e)
    /\ Scheduler.run_pipeline nltk urljoin pickle_dumps (S fuel) listing details files
       = Some (files, false)
    /\ (e = KeyError
        \/ exists pub title_tag href,
             In pub (Crawler.l_publications soup)
             /\ Crawler.i_title_tag pub = Some title_tag
             /\ Crawler.t_a title_tag = Some (Some href)
             /\ urljoin Crawler.PORTAL_ROOT href = Raise e).
Proof.
  intros Hsoup Hbad.
  destruct (@collect_items_no_href (Crawler.l_publications soup) [] Hbad) as [e He].
  exists e.
  assert (Hvisit : Crawler.visit urljoin listing Crawler.PORTAL_ENTRY_URL []
                                 Crawler.start
                   = Raise e).
  { unfold Crawler.visit. rewrite Hsoup.
    change (Crawler.collected_publications Crawler.start)
      with (@nil Crawler.Listed).
    now rewrite He. }
  assert (Hphase : Crawler.phase_one urljoin (S fuel) listing Crawler.start
                   = Some (Raise e)).
  { change (Crawler.phase_one urljoin (S fuel) listing Crawler.start)
      with (match Crawler.visit urljoin listing Crawler.PORTAL_ENTRY_URL []
                                Crawler.start with
            | Ok st' => Crawler.phase_one urljoin fuel listing st'
            | Raise e => Some (Raise e)
            end).
    now rewrite Hvisit. }
  split; [exact Hphase|].
  unfold Scheduler.run_pipeline, Crawler.crawl_portal. rewrite Hphase.
  split; [reflexivity|]. split; [reflexivity|].
  destruct (collect_items_raise _ _ _ He)
    as (pub & title_tag & Hin & Htag & [[_ ->]|(href & Ha & Hurl)]).
  - now left.
  - right. now exists pub, title_tag, href.
Qed.

End BrokenListing.

Lemma listing_without_href_stops_pipeline_witness :
  exists e,
    Crawler.phase_one ToyPortal.urljoin 4 ToyPortal.broken Crawler.start
    = Some (Raise e)
    /\ Scheduler.run_pipeline (F:=R) Toy.nltk ToyPortal.urljoin Toy.pickle_dumps 4
         ToyPortal.broken ToyPortal.details
         {| Scheduler.json := []; Scheduler.pickles := [] |}
       = Some ({| Scheduler.json := []; Scheduler.pickles := [] |}, false).
Proof.
  destruct (@listing_without_href_stops_pipeline R _ Toy.nltk
              ToyPortal.urljoin (Pickled R) Toy.pickle_dumps 3
              ToyPortal.broken ToyPortal.details
              {| Scheduler.json := []; Scheduler.pickles := [] |}
              _ eq_refl)
    as (e & Hphase & _ & Hrun & _).
  - eexists. eexists. split; [left; reflexivity|]. split; reflexivity.
  - exists e. split; [exact Hphase|exact Hrun].
Defined.

Lemma rank_documents_top_n_prefix_witness :
  rank_documents Toy.nltk Toy.index "growth banking" (Some 1%Z)
  = match rank_documents Toy.nltk Toy.index "growth banking" None with
    | Ok full => Ok (firstn 1 full)
    | Raise e => Raise e
    end.
Proof.
  exact (proj2 (rank_documents_top_n_prefix Toy.nltk Toy.index "growth banking")
               1%Z eq_refl).
Defined.
